(** * wasm-gen.c: the binary emitter of the s-expression WebAssembly prototype

    A shallow embedding of [src/wasm-gen.c]: the growable output buffer, the
    primitive encoders, the header layout pass of [before_module], the parser
    callbacks and the footer writer, followed by the properties the
    specification states about them.

    Conventions of the embedding.
    - C integers are [Z]; every conversion to a fixed-width type is written
      out ([to_uint8], [to_uint32], ...).  [size_t] quantities (buffer size
      and capacity) are kept exact: a buffer of 2^64 bytes cannot be allocated.
    - The storage behind [buf->start] is a finite map from byte offsets to
      byte values.  Bytes that [malloc]/[realloc] leave indeterminate are
      absent from the map, so nothing is assumed about them.
    - A failed [assert], an out-of-bounds array read, a null dereference and an
      undefined builtin call make the embedded function return [None]; so does
      the capacity loop when it cannot terminate.  Allocation failure (the
      [FATAL] exits) is not modelled.
    - The [desc] strings and the [g_verbose] dumps only reach stdout; they are
      left out. *)

From Stdlib Require Import ZArith Lia String Ascii.
From stdpp Require Import base option list gmap.

Local Open Scope Z_scope.

(** ** Fixed-width integer conversions *)

Definition to_uint8 (x : Z) : Z := x mod 2 ^ 8.
Definition to_uint16 (x : Z) : Z := x mod 2 ^ 16.
Definition to_uint32 (x : Z) : Z := x mod 2 ^ 32.
Definition to_uint64 (x : Z) : Z := x mod 2 ^ 64.
Definition to_int32 (x : Z) : Z := (x + 2 ^ 31) mod 2 ^ 32 - 2 ^ 31.

(** The object representation of an integer on the (little-endian) host:
    [n] bytes, least significant first.  [memcpy] from [&value] copies these. *)
Fixpoint le_bytes (n : nat) (v : Z) : list Z :=
  match n with
  | O => []
  | S n' => v mod 256 :: le_bytes n' (v / 256)
  end.

(** Reading such a representation back. *)
Fixpoint le_value (bs : list Z) : Z :=
  match bs with
  | [] => 0
  | b :: bs' => b + 256 * le_value bs'
  end.

(** ** The output buffer *)

Record OutputBuffer := mkOutputBuffer {
  buf_start : gmap Z Z;
  buf_size : Z;
  buf_capacity : Z
}.

Definition INITIAL_OUTPUT_BUFFER_CAPACITY : Z := 64 * 1024.
Definition DEFAULT_MEMORY_EXPORT : Z := 1.

Definition GLOBAL_HEADERS_OFFSET : Z := 8.
Definition GLOBAL_HEADER_SIZE : Z := 6.
Definition FUNC_HEADERS_OFFSET (num_globals : Z) : Z :=
  GLOBAL_HEADERS_OFFSET + num_globals * GLOBAL_HEADER_SIZE.
Definition FUNC_HEADER_SIZE (num_args : Z) : Z := 24 + num_args.
Definition SEGMENT_HEADER_SIZE : Z := 13.

Definition FUNC_SIG_SIZE (num_args : Z) : Z := 2 + num_args.
Definition FUNC_HEADER_NAME_OFFSET (num_args : Z) : Z := FUNC_SIG_SIZE num_args + 0.
Definition FUNC_HEADER_CODE_START_OFFSET (num_args : Z) : Z := FUNC_SIG_SIZE num_args + 4.
Definition FUNC_HEADER_CODE_END_OFFSET (num_args : Z) : Z := FUNC_SIG_SIZE num_args + 8.
Definition FUNC_HEADER_EXPORTED_OFFSET (num_args : Z) : Z := FUNC_SIG_SIZE num_args + 20.

Definition SEGMENT_HEADER_DATA_OFFSET : Z := 4.

(** [log_two_u32]: [__builtin_clz] is undefined at 0, which is what [x - 1]
    is for [x = 1].  For [y > 0], [32 - clz y] is the bit length of [y]. *)
Definition log_two_u32 (x : Z) : option Z :=
  let x := to_uint32 x in
  if x =? 0 then Some 0
  else if x - 1 =? 0 then None
  else Some (Z.log2 (x - 1) + 1).

Definition init_output_buffer (buf : OutputBuffer) (initial_capacity : Z) : OutputBuffer :=
  {| buf_start := ∅; buf_size := 0; buf_capacity := initial_capacity |}.

(** The loop [while (new_capacity < ensure_capacity) new_capacity *= 2].
    The capacities are [size_t]; the products are exact as long as they stay
    below 2^64, which they do for every request up to 2^63. *)
Fixpoint double_capacity (fuel : nat) (new_capacity ensure_capacity : Z) : option Z :=
  if new_capacity <? ensure_capacity then
    match fuel with
    | O => None
    | S fuel' => double_capacity fuel' (new_capacity * 2) ensure_capacity
    end
  else Some new_capacity.

Definition ensure_output_buffer_capacity (buf : OutputBuffer) (ensure_capacity : Z)
  : option OutputBuffer :=
  if buf_capacity buf <? ensure_capacity then
    new_capacity ← double_capacity (Z.to_nat ensure_capacity)
                                   (buf_capacity buf * 2) ensure_capacity;
    Some {| buf_start := buf_start buf; buf_size := buf_size buf;
            buf_capacity := new_capacity |}
  else Some buf.

(** [memcpy(start + offset, src, size)] with [src] the list of the [size]
    source bytes. *)
Fixpoint memcpy (start : gmap Z Z) (offset : Z) (src : list Z) : gmap Z Z :=
  match src with
  | [] => start
  | b :: src' => memcpy (<[offset := b]> start) (offset + 1) src'
  end.

Definition out_data (buf : OutputBuffer) (offset : Z) (src : list Z)
  : option (OutputBuffer * Z) :=
  let size := Z.of_nat (length src) in
  if negb (offset <=? buf_size buf) then None
  else
    buf' ← ensure_output_buffer_capacity buf (offset + size);
    Some ({| buf_start := memcpy (buf_start buf') offset src;
             buf_size := buf_size buf';
             buf_capacity := buf_capacity buf' |}, offset + size).

(** The shared body of [OUT_TYPE], [out_leb128] and [out_cstr]:
    [buf->size = out_data(buf, buf->size, src, size, desc)]. *)
Definition out_at_end (buf : OutputBuffer) (src : list Z) : option OutputBuffer :=
  '(buf', new_size) ← out_data buf (buf_size buf) src;
  Some {| buf_start := buf_start buf'; buf_size := new_size;
          buf_capacity := buf_capacity buf' |}.

(** [OUT_TYPE(name, ctype)]: the argument is converted to [ctype] and its
    [sizeof(ctype)] bytes are appended. *)
Definition OUT_TYPE (width : nat) (buf : OutputBuffer) (value : Z) : option OutputBuffer :=
  out_at_end buf (le_bytes width value).

Definition out_u8 := OUT_TYPE 1.
Definition out_u16 := OUT_TYPE 2.
Definition out_u32 := OUT_TYPE 4.
Definition out_u64 := OUT_TYPE 8.
(** [float] and [double] arguments are carried as their IEEE bit patterns. *)
Definition out_f32 := OUT_TYPE 4.
Definition out_f64 := OUT_TYPE 8.

(** [OUT_AT_TYPE(name, ctype)]: [offset] is a [uint32_t] parameter; the value
    returned by [out_data] is dropped, so [buf->size] keeps its value. *)
Definition OUT_AT_TYPE (width : nat) (buf : OutputBuffer) (offset value : Z)
  : option OutputBuffer :=
  '(buf', _) ← out_data buf (to_uint32 offset) (le_bytes width value);
  Some buf'.

Definition out_u8_at := OUT_AT_TYPE 1.
Definition out_u32_at := OUT_AT_TYPE 4.

Definition out_opcode (buf : OutputBuffer) (opcode : Z) : option OutputBuffer :=
  out_u8 buf (to_uint8 opcode).

(** The [do ... while (value)] loop of [out_leb128]; [data] holds
    [data[0..i)].  The loop leaves through the [assert] before [fuel] runs
    out when started with [fuel > 5 - i]. *)
Fixpoint leb128_loop (fuel : nat) (i : Z) (value : Z) (data : list Z) : option (list Z) :=
  match fuel with
  | O => None
  | S fuel' =>
    if negb (i <? 5) then None
    else
      let d := Z.land value 0x7f in
      let value := Z.shiftr value 7 in
      let d := if value =? 0 then d else Z.lor d 0x80 in
      let data := data ++ [d] in
      let i := i + 1 in
      if value =? 0 then Some data else leb128_loop fuel' i value data
  end.

Definition leb128_data (value : Z) : option (list Z) :=
  leb128_loop 6 0 (to_uint32 value) [].

Definition out_leb128 (buf : OutputBuffer) (value : Z) : option OutputBuffer :=
  data ← leb128_data value;
  out_at_end buf data.

(** [strlen(s)] bytes of a C string: the characters before the first NUL. *)
Fixpoint cstr_bytes (s : string) : list Z :=
  match s with
  | EmptyString => []
  | String c s' =>
    if (N_of_ascii c =? 0)%N then [] else Z.of_N (N_of_ascii c) :: cstr_bytes s'
  end.

Definition strlen (s : string) : Z := Z.of_nat (length (cstr_bytes s)).

(** [out_cstr] copies [strlen(s) + 1] bytes: the characters and the NUL. *)
Definition out_cstr (buf : OutputBuffer) (s : string) : option OutputBuffer :=
  out_at_end buf (cstr_bytes s ++ [0]).

(** ** The module handed over by the parser (wasm.h) *)

(** wasm.h is not among the sources.  The enumerators of [WasmType] are taken
    in the order in which wasm-gen.c indexes its [WASM_NUM_TYPES]-sized
    tables ([global_type_codes], [num_locals]). *)
Inductive WasmType := WASM_TYPE_VOID | WASM_TYPE_I32 | WASM_TYPE_I64 | WASM_TYPE_F32 | WASM_TYPE_F64.

Definition WasmType_value (t : WasmType) : Z :=
  match t with
  | WASM_TYPE_VOID => 0
  | WASM_TYPE_I32 => 1
  | WASM_TYPE_I64 => 2
  | WASM_TYPE_F32 => 3
  | WASM_TYPE_F64 => 4
  end.

Definition WASM_NUM_TYPES : Z := 5.

Record WasmVariable := mkWasmVariable { var_type : WasmType }.

Record WasmImport := mkWasmImport {
  import_args : list WasmVariable;
  import_result_type : WasmType;
  import_func_name : string
}.

Record WasmFunction := mkWasmFunction {
  num_args : Z;
  result_type : WasmType;
  locals : list WasmVariable;
  exported : Z;
  exported_name : string
}.

(** [seg_data] stands for what [wasm_copy_segment_data] reads. *)
Record WasmSegment := mkWasmSegment {
  seg_address : Z;
  seg_data : list Z;
  seg_size : Z
}.

Record WasmModule := mkWasmModule {
  max_memory_size : Z;
  globals : list WasmVariable;
  imports : list WasmImport;
  functions : list WasmFunction;
  segments : list WasmSegment
}.

(** The union [WasmNumber], kept as the 64 bits of its storage. *)
Record WasmNumber := mkWasmNumber { number_bits : Z }.

Definition number_i32 (value : WasmNumber) : Z := to_int32 (number_bits value).
Definition number_i64 (value : WasmNumber) : Z := to_uint64 (number_bits value).
Definition number_f32 (value : WasmNumber) : Z := to_uint32 (number_bits value).
Definition number_f64 (value : WasmNumber) : Z := to_uint64 (number_bits value).

(** The enumerators of [WasmOpcode] that wasm-gen.c names.  Their values
    come from the [OPCODES] table of wasm.h, which is not among the sources;
    the development is parametric in them. *)
Class WasmOpcodes := {
  WASM_OPCODE_NOP : Z;
  WASM_OPCODE_BLOCK : Z;
  WASM_OPCODE_LOOP : Z;
  WASM_OPCODE_IF : Z;
  WASM_OPCODE_IF_THEN : Z;
  WASM_OPCODE_BREAK : Z;
  WASM_OPCODE_CALL : Z;
  WASM_OPCODE_I8_CONST : Z;
  WASM_OPCODE_GET_LOCAL : Z;
  WASM_OPCODE_SET_LOCAL : Z;
  WASM_OPCODE_GET_GLOBAL : Z;
  WASM_OPCODE_SET_GLOBAL : Z;
  WASM_OPCODE_RETURN : Z
}.

(** Modelled from the spec: [wasm_copy_segment_data] is defined outside
    wasm-gen.c; section 4.2 describes it as the raw-block writer that "copies
    an externally supplied contiguous byte range verbatim".  It yields the
    [size] bytes it stores at [dest]. *)
Definition wasm_copy_segment_data (data : list Z) (size : Z) : list Z :=
  take (Z.to_nat size) data.

(** Array reads with a C [int] index; outside the array the read is undefined. *)
Definition array_get {A} (data : list A) (i : Z) : option A :=
  if i <? 0 then None else data !! Z.to_nat i.

(** A [for] loop over the elements of a vector, threading the state. *)
Fixpoint for_each {A S} (body : S → A → option S) (data : list A) (s : S) : option S :=
  match data with
  | [] => Some s
  | x :: data' => s' ← body s x; for_each body data' s'
  end.

Definition vector_size {A} (data : list A) : Z := Z.of_nat (length data).

Definition out_segment (buf : OutputBuffer) (segment : WasmSegment) : option OutputBuffer :=
  let offset := buf_size buf in
  buf' ← ensure_output_buffer_capacity buf (offset + seg_size segment);
  Some {| buf_start := memcpy (buf_start buf') offset
                              (wasm_copy_segment_data (seg_data segment) (seg_size segment));
          buf_size := buf_size buf' + seg_size segment;
          buf_capacity := buf_capacity buf' |}.

(** ** Module header *)

Definition global_type_codes (t : WasmType) : Z :=
  to_uint8 (match t with
            | WASM_TYPE_VOID => -1
            | WASM_TYPE_I32 => 4
            | WASM_TYPE_I64 => 6
            | WASM_TYPE_F32 => 8
            | WASM_TYPE_F64 => 9
            end).

Definition out_global_header (buf : OutputBuffer) (global : WasmVariable) : option OutputBuffer :=
  buf ← out_u32 buf 0;
  buf ← out_u8 buf (global_type_codes (var_type global));
  out_u8 buf 0.

Definition out_import_header (buf : OutputBuffer) (import : WasmImport) : option OutputBuffer :=
  buf ← out_u8 buf (vector_size (import_args import));
  buf ← out_u8 buf (WasmType_value (import_result_type import));
  buf ← for_each (λ buf arg, out_u8 buf (WasmType_value (var_type arg)))
                 (import_args import) buf;
  buf ← out_u32 buf 0;
  buf ← out_u32 buf 0;
  buf ← out_u32 buf 0;
  buf ← out_u16 buf 0;
  buf ← out_u16 buf 0;
  buf ← out_u16 buf 0;
  buf ← out_u16 buf 0;
  buf ← out_u8 buf 0;
  out_u8 buf 1.

(** [int num_locals[WASM_NUM_TYPES] = {}] and the loop that fills it. *)
Definition count_locals (function : WasmFunction) : option (list Z) :=
  for_each (λ num_locals j,
              local ← array_get (locals function) j;
              Some (alter (λ n, n + 1) (Z.to_nat (WasmType_value (var_type local))) num_locals))
           (seqZ (num_args function) (vector_size (locals function) - num_args function))
           (replicate (Z.to_nat WASM_NUM_TYPES) 0).

Definition out_function_header (buf : OutputBuffer) (function : WasmFunction)
  : option OutputBuffer :=
  buf ← out_u8 buf (num_args function);
  buf ← out_u8 buf (WasmType_value (result_type function));
  buf ← for_each (λ buf j,
                    local ← array_get (locals function) j;
                    out_u8 buf (WasmType_value (var_type local)))
                 (seqZ 0 (num_args function)) buf;
  buf ← out_u32 buf 0;
  buf ← out_u32 buf 0;
  buf ← out_u32 buf 0;
  num_locals ← count_locals function;
  n_i32 ← array_get num_locals (WasmType_value WASM_TYPE_I32);
  n_i64 ← array_get num_locals (WasmType_value WASM_TYPE_I64);
  n_f32 ← array_get num_locals (WasmType_value WASM_TYPE_F32);
  n_f64 ← array_get num_locals (WasmType_value WASM_TYPE_F64);
  buf ← out_u16 buf n_i32;
  buf ← out_u16 buf n_i64;
  buf ← out_u16 buf n_f32;
  buf ← out_u16 buf n_f64;
  buf ← out_u8 buf 0;
  out_u8 buf 0.

Definition out_segment_header (buf : OutputBuffer) (segment : WasmSegment)
  : option OutputBuffer :=
  buf ← out_u32 buf (seg_address segment);
  buf ← out_u32 buf 0;
  buf ← out_u32 buf (seg_size segment);
  out_u8 buf 1.

Definition out_module_header (buf : OutputBuffer) (module : WasmModule) : option OutputBuffer :=
  mem_size ← log_two_u32 (max_memory_size module);
  buf ← out_u8 buf mem_size;
  buf ← out_u8 buf DEFAULT_MEMORY_EXPORT;
  buf ← out_u16 buf (vector_size (globals module));
  buf ← out_u16 buf (vector_size (imports module) + vector_size (functions module));
  buf ← out_u16 buf (vector_size (segments module));
  buf ← for_each out_global_header (globals module) buf;
  buf ← for_each out_import_header (imports module) buf;
  buf ← for_each out_function_header (functions module) buf;
  for_each out_segment_header (segments module) buf.

(** ** The emission context and the parser callbacks *)

(** [module] is [None] for the null pointer of a freshly zeroed context. *)
Record Context := mkContext {
  module : option WasmModule;
  buf : OutputBuffer;
  function_num_exprs_offset : Z;
  function_header_offsets : list Z;
  segment_header_offsets : list Z
}.

Definition with_buf (ctx : Context) (b : OutputBuffer) : Context :=
  {| module := module ctx; buf := b;
     function_num_exprs_offset := function_num_exprs_offset ctx;
     function_header_offsets := function_header_offsets ctx;
     segment_header_offsets := segment_header_offsets ctx |}.

(** A [WasmParserCookie] is an integer wide enough for a buffer offset; it is
    a plain [Z] here. *)

(** The three layout loops of [before_module]; [offset] is a [uint32_t]. *)
Fixpoint skip_import_headers (data : list WasmImport) (offset : Z) : Z :=
  match data with
  | [] => offset
  | import :: data' =>
    skip_import_headers data'
      (to_uint32 (offset + FUNC_HEADER_SIZE (vector_size (import_args import))))
  end.

Fixpoint plan_function_headers (data : list WasmFunction) (offset : Z) : list Z * Z :=
  match data with
  | [] => ([], offset)
  | function :: data' =>
    let '(table, last) :=
      plan_function_headers data' (to_uint32 (offset + FUNC_HEADER_SIZE (num_args function))) in
    (offset :: table, last)
  end.

Fixpoint plan_segment_headers (data : list WasmSegment) (offset : Z) : list Z * Z :=
  match data with
  | [] => ([], offset)
  | _ :: data' =>
    let '(table, last) :=
      plan_segment_headers data' (to_uint32 (offset + SEGMENT_HEADER_SIZE)) in
    (offset :: table, last)
  end.

(** The layout pass: the part of [before_module] that fills
    [function_header_offsets] and [segment_header_offsets]. *)
Definition plan_header_offsets (m : WasmModule) : list Z * list Z :=
  let offset := to_uint32 (FUNC_HEADERS_OFFSET (vector_size (globals m))) in
  let offset := skip_import_headers (imports m) offset in
  let '(function_table, offset) := plan_function_headers (functions m) offset in
  let '(segment_table, offset) := plan_segment_headers (segments m) offset in
  (function_table, segment_table).

Definition before_module (m : WasmModule) (ctx : Context) : option Context :=
  let '(function_table, segment_table) := plan_header_offsets m in
  b ← out_module_header (init_output_buffer (buf ctx) INITIAL_OUTPUT_BUFFER_CAPACITY) m;
  Some {| module := Some m; buf := b;
          function_num_exprs_offset := function_num_exprs_offset ctx;
          function_header_offsets := function_table;
          segment_header_offsets := segment_table |}.

(** ** Module footer *)

Definition out_segment_data (table : list Z) (st : OutputBuffer * Z) (segment : WasmSegment)
  : option (OutputBuffer * Z) :=
  let '(buf, i) := st in
  header ← array_get table i;
  buf ← out_u32_at buf (header + SEGMENT_HEADER_DATA_OFFSET) (buf_size buf);
  buf ← out_segment buf segment;
  Some (buf, i + 1).

Definition out_import_name (st : OutputBuffer * Z) (import : WasmImport)
  : option (OutputBuffer * Z) :=
  let '(buf, offset) := st in
  buf ← out_u32_at buf (offset + FUNC_HEADER_NAME_OFFSET (vector_size (import_args import)))
                   (buf_size buf);
  buf ← out_cstr buf (import_func_name import);
  Some (buf, to_uint32 (offset + FUNC_HEADER_SIZE (vector_size (import_args import)))).

Definition out_function_name (st : OutputBuffer * Z) (function : WasmFunction)
  : option (OutputBuffer * Z) :=
  let '(buf, offset) := st in
  buf ← (if exported function =? 0 then Some buf
         else
           buf ← out_u32_at buf (offset + FUNC_HEADER_NAME_OFFSET (num_args function))
                            (buf_size buf);
           out_cstr buf (exported_name function));
  Some (buf, to_uint32 (offset + FUNC_HEADER_SIZE (num_args function))).

Definition out_module_footer (ctx : Context) (m : WasmModule) : option Context :=
  '(b, _) ← for_each (out_segment_data (segment_header_offsets ctx)) (segments m) (buf ctx, 0);
  let offset := to_uint32 (FUNC_HEADERS_OFFSET (vector_size (globals m))) in
  '(b, offset) ← for_each out_import_name (imports m) (b, offset);
  '(b, _) ← for_each out_function_name (functions m) (b, offset);
  Some (with_buf ctx b).

Definition after_module (m : WasmModule) (ctx : Context) : option Context :=
  out_module_footer ctx m.

Section Callbacks.
Context {ops : WasmOpcodes}.

(** The parser passes [function] as a pointer into [module->functions.data];
    the callbacks recover [function_index] by pointer subtraction.  Here the
    index is the argument and the function is read through it. *)
Definition before_function (m : WasmModule) (function_index : Z) (ctx : Context)
  : option Context :=
  function ← array_get (functions m) function_index;
  header ← array_get (function_header_offsets ctx) function_index;
  b ← out_u32_at (buf ctx) (header + FUNC_HEADER_CODE_START_OFFSET (num_args function))
                 (buf_size (buf ctx));
  b ← out_opcode b WASM_OPCODE_BLOCK;
  let num_exprs_offset := to_uint32 (buf_size b) in
  b ← out_u8 b 0;
  Some {| module := module ctx; buf := b;
          function_num_exprs_offset := num_exprs_offset;
          function_header_offsets := function_header_offsets ctx;
          segment_header_offsets := segment_header_offsets ctx |}.

Definition after_function (m : WasmModule) (function_index : Z) (num_exprs : Z) (ctx : Context)
  : option Context :=
  function ← array_get (functions m) function_index;
  b ← out_u8_at (buf ctx) (function_num_exprs_offset ctx) num_exprs;
  header ← array_get (function_header_offsets ctx) function_index;
  b ← out_u32_at b (header + FUNC_HEADER_CODE_END_OFFSET (num_args function)) (buf_size b);
  Some (with_buf ctx b).

Definition before_export (m : WasmModule) (ctx : Context) : option Context := Some ctx.

Definition after_export (m : WasmModule) (function_index : Z) (ctx : Context) : option Context :=
  function ← array_get (functions m) function_index;
  header ← array_get (function_header_offsets ctx) function_index;
  b ← out_u8_at (buf ctx) (header + FUNC_HEADER_EXPORTED_OFFSET (num_args function)) 1;
  Some (with_buf ctx b).

Definition before_block (ctx : Context) : option (Z * Context) :=
  b ← out_opcode (buf ctx) WASM_OPCODE_BLOCK;
  let cookie := buf_size b in
  b ← out_u8 b 0;
  Some (cookie, with_buf ctx b).

Definition after_block (num_exprs : Z) (cookie : Z) (ctx : Context)
  : option Context :=
  let offset := to_uint32 cookie in
  b ← out_u8_at (buf ctx) offset num_exprs;
  Some (with_buf ctx b).

Definition before_binary (opcode : Z) (ctx : Context) : option Context :=
  b ← out_opcode (buf ctx) opcode;
  Some (with_buf ctx b).

Definition after_break (depth : Z) (ctx : Context) : option Context :=
  b ← out_opcode (buf ctx) WASM_OPCODE_BREAK;
  b ← out_u8 b depth;
  Some (with_buf ctx b).

Definition before_call (function_index : Z) (ctx : Context) : option Context :=
  b ← out_opcode (buf ctx) WASM_OPCODE_CALL;
  m ← module ctx;
  b ← out_leb128 b (vector_size (imports m) + function_index);
  Some (with_buf ctx b).

Definition before_call_import (import_index : Z) (ctx : Context) : option Context :=
  b ← out_opcode (buf ctx) WASM_OPCODE_CALL;
  b ← out_leb128 b import_index;
  Some (with_buf ctx b).

Definition before_compare (opcode : Z) (ctx : Context) : option Context :=
  b ← out_opcode (buf ctx) opcode;
  Some (with_buf ctx b).

Definition after_const (opcode : Z) (type : WasmType) (value : WasmNumber) (ctx : Context)
  : option Context :=
  match type with
  | WASM_TYPE_I32 =>
    let i32 := number_i32 value in
    if (-128 <=? i32) && (i32 <? 127) then
      b ← out_opcode (buf ctx) WASM_OPCODE_I8_CONST;
      b ← out_u8 b (number_i32 value);
      Some (with_buf ctx b)
    else
      b ← out_opcode (buf ctx) opcode;
      b ← out_u32 b (number_i32 value);
      Some (with_buf ctx b)
  | WASM_TYPE_I64 =>
    b ← out_opcode (buf ctx) opcode;
    b ← out_u64 b (number_i64 value);
    Some (with_buf ctx b)
  | WASM_TYPE_F32 =>
    b ← out_opcode (buf ctx) opcode;
    b ← out_f32 b (number_f32 value);
    Some (with_buf ctx b)
  | WASM_TYPE_F64 =>
    b ← out_opcode (buf ctx) opcode;
    b ← out_f64 b (number_f64 value);
    Some (with_buf ctx b)
  | WASM_TYPE_VOID => None
  end.

Definition before_convert (opcode : Z) (ctx : Context) : option Context :=
  b ← out_opcode (buf ctx) opcode;
  Some (with_buf ctx b).

Definition after_get_local (remapped_index : Z) (ctx : Context) : option Context :=
  b ← out_opcode (buf ctx) WASM_OPCODE_GET_LOCAL;
  b ← out_leb128 b remapped_index;
  Some (with_buf ctx b).

Definition before_if (ctx : Context) : option (Z * Context) :=
  let offset := to_uint32 (buf_size (buf ctx)) in
  b ← out_opcode (buf ctx) WASM_OPCODE_IF;
  Some (offset, with_buf ctx b).

Definition after_if (with_else : Z) (cookie : Z) (ctx : Context)
  : option Context :=
  if with_else =? 0 then Some ctx
  else
    let offset := to_uint32 cookie in
    b ← out_u8_at (buf ctx) offset WASM_OPCODE_IF_THEN;
    Some (with_buf ctx b).

Definition before_label (ctx : Context) : option (Z * Context) :=
  b ← out_opcode (buf ctx) WASM_OPCODE_BLOCK;
  let cookie := buf_size b in
  b ← out_u8 b 0;
  Some (cookie, with_buf ctx b).

Definition after_label (num_exprs : Z) (cookie : Z) (ctx : Context)
  : option Context :=
  let offset := to_uint32 cookie in
  b ← out_u8_at (buf ctx) offset num_exprs;
  Some (with_buf ctx b).

Definition before_load (opcode : Z) (access : Z) (ctx : Context) : option Context :=
  b ← out_opcode (buf ctx) opcode;
  b ← out_u8 b access;
  Some (with_buf ctx b).

Definition after_load_global (index : Z) (ctx : Context) : option Context :=
  b ← out_opcode (buf ctx) WASM_OPCODE_GET_GLOBAL;
  b ← out_leb128 b index;
  Some (with_buf ctx b).

Definition before_loop (ctx : Context) : option (Z * Context) :=
  b ← out_opcode (buf ctx) WASM_OPCODE_LOOP;
  let cookie := buf_size b in
  b ← out_u8 b 0;
  Some (cookie, with_buf ctx b).

Definition after_loop (num_exprs : Z) (cookie : Z) (ctx : Context)
  : option Context :=
  let offset := to_uint32 cookie in
  b ← out_u8_at (buf ctx) offset num_exprs;
  Some (with_buf ctx b).

Definition after_nop (ctx : Context) : option Context :=
  b ← out_opcode (buf ctx) WASM_OPCODE_NOP;
  Some (with_buf ctx b).

Definition before_return (ctx : Context) : option Context :=
  b ← out_opcode (buf ctx) WASM_OPCODE_RETURN;
  Some (with_buf ctx b).

Definition before_set_local (index : Z) (ctx : Context) : option Context :=
  b ← out_opcode (buf ctx) WASM_OPCODE_SET_LOCAL;
  b ← out_leb128 b index;
  Some (with_buf ctx b).

Definition before_store (opcode : Z) (access : Z) (ctx : Context) : option Context :=
  b ← out_opcode (buf ctx) opcode;
  b ← out_u8 b access;
  Some (with_buf ctx b).

Definition before_store_global (index : Z) (ctx : Context) : option Context :=
  b ← out_opcode (buf ctx) WASM_OPCODE_SET_GLOBAL;
  b ← out_leb128 b index;
  Some (with_buf ctx b).

Definition before_unary (opcode : Z) (ctx : Context) : option Context :=
  b ← out_opcode (buf ctx) opcode;
  Some (with_buf ctx b).

End Callbacks.

(** ** The callback table of [wasm_gen_file]

    One constructor per callback installed in [WasmParserCallbacks]; the
    external parser invokes them in traversal order.  Cookies returned by the
    opening callbacks are held by the parser, which hands them back (as event
    arguments) to the closing ones.  The module passed to the function and
    export callbacks is the one given to [before_module], i.e. [ctx->module]. *)
Inductive Event :=
| EvBeforeModule (m : WasmModule)
| EvAfterModule
| EvBeforeFunction (function_index : Z)
| EvAfterFunction (function_index num_exprs : Z)
| EvBeforeExport
| EvAfterExport (function_index : Z)
| EvBeforeBlock
| EvAfterBlock (num_exprs : Z) (cookie : Z)
| EvBeforeBinary (opcode : Z)
| EvAfterBreak (depth : Z)
| EvBeforeCall (function_index : Z)
| EvBeforeCallImport (import_index : Z)
| EvBeforeCompare (opcode : Z)
| EvAfterConst (opcode : Z) (type : WasmType) (value : WasmNumber)
| EvBeforeConvert (opcode : Z)
| EvAfterGetLocal (remapped_index : Z)
| EvBeforeIf
| EvAfterIf (with_else : Z) (cookie : Z)
| EvBeforeLabel
| EvAfterLabel (num_exprs : Z) (cookie : Z)
| EvBeforeLoad (opcode access : Z)
| EvAfterLoadGlobal (index : Z)
| EvBeforeLoop
| EvAfterLoop (num_exprs : Z) (cookie : Z)
| EvAfterNop
| EvBeforeReturn
| EvBeforeSetLocal (index : Z)
| EvBeforeStore (opcode access : Z)
| EvBeforeStoreGlobal (index : Z)
| EvBeforeUnary (opcode : Z).

Section Driver.
Context {ops : WasmOpcodes}.

Definition callback (ctx : Context) (e : Event) : option Context :=
  match e with
  | EvBeforeModule m => before_module m ctx
  | EvAfterModule => m ← module ctx; after_module m ctx
  | EvBeforeFunction i => m ← module ctx; before_function m i ctx
  | EvAfterFunction i n => m ← module ctx; after_function m i n ctx
  | EvBeforeExport => m ← module ctx; before_export m ctx
  | EvAfterExport i => m ← module ctx; after_export m i ctx
  | EvBeforeBlock => snd <$> before_block ctx
  | EvAfterBlock n cookie => after_block n cookie ctx
  | EvBeforeBinary opcode => before_binary opcode ctx
  | EvAfterBreak depth => after_break depth ctx
  | EvBeforeCall i => before_call i ctx
  | EvBeforeCallImport i => before_call_import i ctx
  | EvBeforeCompare opcode => before_compare opcode ctx
  | EvAfterConst opcode type value => after_const opcode type value ctx
  | EvBeforeConvert opcode => before_convert opcode ctx
  | EvAfterGetLocal i => after_get_local i ctx
  | EvBeforeIf => snd <$> before_if ctx
  | EvAfterIf with_else cookie => after_if with_else cookie ctx
  | EvBeforeLabel => snd <$> before_label ctx
  | EvAfterLabel n cookie => after_label n cookie ctx
  | EvBeforeLoad opcode access => before_load opcode access ctx
  | EvAfterLoadGlobal i => after_load_global i ctx
  | EvBeforeLoop => snd <$> before_loop ctx
  | EvAfterLoop n cookie => after_loop n cookie ctx
  | EvAfterNop => after_nop ctx
  | EvBeforeReturn => before_return ctx
  | EvBeforeSetLocal i => before_set_local i ctx
  | EvBeforeStore opcode access => before_store opcode access ctx
  | EvBeforeStoreGlobal i => before_store_global i ctx
  | EvBeforeUnary opcode => before_unary opcode ctx
  end.

Definition run_events (events : list Event) (ctx : Context) : option Context :=
  for_each callback events ctx.

End Driver.

(** The events of an expression: everything but the module, function and
    export callbacks. *)
Definition expression_event (e : Event) : bool :=
  match e with
  | EvBeforeModule _ | EvAfterModule | EvBeforeFunction _ | EvAfterFunction _ _
  | EvBeforeExport | EvAfterExport _ => false
  | _ => true
  end.

(** The freshly zeroed [Context ctx = {}] and [OutputBuffer buf = {}] of
    [wasm_gen_file]. *)
Definition zero_context : Context :=
  {| module := None;
     buf := {| buf_start := ∅; buf_size := 0; buf_capacity := 0 |};
     function_num_exprs_offset := 0;
     function_header_offsets := [];
     segment_header_offsets := [] |}.

(** ** Observations on a buffer *)

(** The bytes of [[0, size)]; an indeterminate byte reads as [None]. *)
Definition contents (b : OutputBuffer) : list (option Z) :=
  (λ i, buf_start b !! i) <$> seqZ 0 (buf_size b).

(** The [n] bytes at [offset]. *)
Definition bytes_at (b : OutputBuffer) (offset : Z) (n : Z) : list (option Z) :=
  (λ i, buf_start b !! i) <$> seqZ offset n.

(** The invariant of a buffer in use: initialised with a positive capacity. *)
Definition buf_ok (b : OutputBuffer) : Prop :=
  0 ≤ buf_size b ≤ buf_capacity b ∧ 0 < buf_capacity b.

(** ** Reference definitions used to state the properties *)

(** The usual reader of a base-128 varint: seven payload bits per byte, least
    significant group first, stopping at the first byte without bit 7. *)
Fixpoint leb128_decode (bs : list Z) : Z :=
  match bs with
  | [] => 0
  | b :: bs' => Z.land b 0x7f + (if Z.testbit b 7 then 128 * leb128_decode bs' else 0)
  end.

(** Binary digits needed to write [v]; the numeral 0 has one digit. *)
Definition bits_needed (v : Z) : Z := if v =? 0 then 1 else Z.log2 v + 1.

Definition ceil_div (a b : Z) : Z := (a + b - 1) / b.

Definition sum_list_Z (l : list Z) : Z := foldr Z.add 0 l.

Definition import_header_sizes (m : WasmModule) : list Z :=
  (λ i, 24 + vector_size (import_args i)) <$> imports m.

Definition function_header_sizes (m : WasmModule) : list Z :=
  (λ f, 24 + num_args f) <$> functions m.

(** 8 + 6*G + Σ_j (24 + a_j) + Σ_{k<i} (24 + b_k). *)
Definition function_header_offset_closed (m : WasmModule) (i : nat) : Z :=
  8 + 6 * vector_size (globals m) + sum_list_Z (import_header_sizes m)
  + sum_list_Z (take i (function_header_sizes m)).

Definition segment_header_offset_closed (m : WasmModule) (s : nat) : Z :=
  function_header_offset_closed m (length (functions m)) + 13 * Z.of_nat s.

(** The end of the last header record. *)
Definition headers_end (m : WasmModule) : Z :=
  segment_header_offset_closed m (length (segments m)).

(** Every byte of a varint but the last carries the continuation bit. *)
Fixpoint leb128_shaped (bs : list Z) : Prop :=
  match bs with
  | [] => False
  | b :: bs' =>
    match bs' with
    | [] => 0 ≤ b < 128
    | _ :: _ => 128 ≤ b < 256 ∧ leb128_shaped bs'
    end
  end.

(** The little-endian 32-bit field stored at [offset], when all four of its
    bytes are determinate. *)
Definition read_u32 (b : OutputBuffer) (offset : Z) : option Z :=
  le_value <$> mapM id (bytes_at b offset 4).

(** The fields of the context that the expression callbacks leave alone,
    together with the growth of the buffer. *)
Definition same_frame (ctx ctx' : Context) : Prop :=
  module ctx' = module ctx
  ∧ function_num_exprs_offset ctx' = function_num_exprs_offset ctx
  ∧ function_header_offsets ctx' = function_header_offsets ctx
  ∧ segment_header_offsets ctx' = segment_header_offsets ctx
  ∧ buf_ok (buf ctx')
  ∧ buf_size (buf ctx) ≤ buf_size (buf ctx').

(** The three counted regions share one protocol. *)
Inductive Region := RegionBlock | RegionLoop | RegionLabel.

Section Regions.
Context {ops : WasmOpcodes}.

Definition region_open (r : Region) : Context → option (Z * Context) :=
  match r with
  | RegionBlock => before_block
  | RegionLoop => before_loop
  | RegionLabel => before_label
  end.

Definition region_close (r : Region) : Z → Z → Context → option Context :=
  match r with
  | RegionBlock => after_block
  | RegionLoop => after_loop
  | RegionLabel => after_label
  end.

Definition region_opcode (r : Region) : Z :=
  match r with
  | RegionBlock => WASM_OPCODE_BLOCK
  | RegionLoop => WASM_OPCODE_LOOP
  | RegionLabel => WASM_OPCODE_BLOCK
  end.

End Regions.

(** An opcode table to run the examples with.  The numbers are placeholders
    (wasm.h is not available); no general statement depends on them. *)
Definition example_opcodes : WasmOpcodes :=
  {| WASM_OPCODE_NOP := 0; WASM_OPCODE_BLOCK := 1; WASM_OPCODE_LOOP := 2;
     WASM_OPCODE_IF := 3; WASM_OPCODE_IF_THEN := 4; WASM_OPCODE_BREAK := 6;
     WASM_OPCODE_CALL := 18; WASM_OPCODE_I8_CONST := 9; WASM_OPCODE_GET_LOCAL := 14;
     WASM_OPCODE_SET_LOCAL := 15; WASM_OPCODE_GET_GLOBAL := 16;
     WASM_OPCODE_SET_GLOBAL := 17; WASM_OPCODE_RETURN := 20 |}.

(** The module of the end-to-end scenario: no globals, imports or segments,
    one function without arguments, locals or result, exported as "main". *)
Definition main_module : WasmModule :=
  {| max_memory_size := 0; globals := []; imports := [];
     functions := [ {| num_args := 0; result_type := WASM_TYPE_VOID; locals := [];
                       exported := 1; exported_name := "main" |} ];
     segments := [] |}.

(** A module the header writer can process: [log_two_u32] is defined at its
    memory size and every function has its arguments among its locals. *)
Definition module_ok (m : WasmModule) : Prop :=
  to_uint32 (max_memory_size m) ≠ 1
  ∧ Forall (λ f, 0 ≤ num_args f ≤ vector_size (locals f)) (functions m).

(** A context whose tables and header records are those of [m]. *)
Definition laid_out (m : WasmModule) (ctx : Context) : Prop :=
  module ctx = Some m
  ∧ (function_header_offsets ctx, segment_header_offsets ctx) = plan_header_offsets m
  ∧ buf_ok (buf ctx)
  ∧ headers_end m ≤ buf_size (buf ctx).

(** ** The tail of the image, as the footer is meant to leave it *)

(** A header field that points into the tail, with the bytes it points to. *)
Definition TailItem : Type := Z * list Z.

(** One item per segment header starting at [offset]: its data-offset field
    and the segment's initializer bytes. *)
Fixpoint segment_items (offset : Z) (data : list WasmSegment) : list TailItem :=
  match data with
  | [] => []
  | segment :: data' =>
    (offset + SEGMENT_HEADER_DATA_OFFSET, seg_data segment)
    :: segment_items (offset + SEGMENT_HEADER_SIZE) data'
  end.

(** One item per import header starting at [offset]: its name-offset field
    and the NUL-terminated import name. *)
Fixpoint import_items (offset : Z) (data : list WasmImport) : list TailItem :=
  match data with
  | [] => []
  | import :: data' =>
    (offset + FUNC_HEADER_NAME_OFFSET (vector_size (import_args import)),
     cstr_bytes (import_func_name import) ++ [0])
    :: import_items (offset + FUNC_HEADER_SIZE (vector_size (import_args import))) data'
  end.

(** The same for the function headers starting at [offset], exported
    functions only. *)
Fixpoint function_items (offset : Z) (data : list WasmFunction) : list TailItem :=
  match data with
  | [] => []
  | function :: data' =>
    let rest := function_items (offset + FUNC_HEADER_SIZE (num_args function)) data' in
    if exported function =? 0 then rest
    else (offset + FUNC_HEADER_NAME_OFFSET (num_args function),
          cstr_bytes (exported_name function) ++ [0]) :: rest
  end.

(** Segments first, then imports, then exported functions, each group in
    declaration order. *)
Definition footer_items (m : WasmModule) : list TailItem :=
  segment_items (function_header_offset_closed m (length (functions m))) (segments m)
  ++ import_items (FUNC_HEADERS_OFFSET (vector_size (globals m))) (imports m)
  ++ function_items (function_header_offset_closed m 0) (functions m).

Definition tail_bytes (items : list TailItem) : list Z := concat (snd <$> items).

(** Patch the field with the current size, then append the bytes. *)
Definition patch_append (b : OutputBuffer) (item : TailItem) : option OutputBuffer :=
  b ← out_u32_at b (fst item) (buf_size b);
  out_at_end b (snd item).

Fixpoint fields_disjoint (items : list TailItem) : Prop :=
  match items with
  | [] => True
  | item :: items' =>
    Forall (λ other, fst item + 4 ≤ fst other ∨ fst other + 4 ≤ fst item) items'
    ∧ fields_disjoint items'
  end.

(** A segment whose [size] is the number of its initializer bytes. *)
Definition segment_ok (segment : WasmSegment) : Prop :=
  Z.of_nat (length (seg_data segment)) = seg_size segment.

(** The reader of a NUL-terminated string: the bytes before the first zero. *)
Fixpoint read_cstr (bs : list Z) : list Z :=
  match bs with
  | [] => []
  | b :: bs' => if b =? 0 then [] else b :: read_cstr bs'
  end.

(** The characters of a string as byte values, embedded NULs included. *)
Fixpoint string_bytes (s : string) : list Z :=
  match s with
  | EmptyString => []
  | String c s' => Z.of_N (N_of_ascii c) :: string_bytes s'
  end.

(** ** The traversal that drives the expression callbacks *)

(** Modelled from the spec: the parser that calls the callbacks is outside
    wasm-gen.c.  Section 6 fixes its protocol: expression events nest; an
    operator's callback runs before or after the events of its operands
    (the [before_] and [after_] callbacks); a block, loop or label is opened,
    its expressions are emitted, and it is closed with the cookie of its own
    opening and the number of those expressions; a conditional is closed with
    the cookie of its opening and the flag for an else branch. *)
#[warnings="-register-all"] Inductive Expr :=
| ExprBefore (e : Event) (operands : list Expr)
| ExprAfter (operands : list Expr) (e : Event)
| ExprRegion (r : Region) (body : list Expr)
| ExprIf (with_else : Z) (parts : list Expr).

(** The callbacks that only append: every expression callback except the
    opening and closing ones. *)
Definition leaf_event (e : Event) : bool :=
  match e with
  | EvBeforeBinary _ | EvAfterBreak _ | EvBeforeCall _ | EvBeforeCallImport _
  | EvBeforeCompare _ | EvAfterConst _ _ _ | EvBeforeConvert _ | EvAfterGetLocal _
  | EvBeforeLoad _ _ | EvAfterLoadGlobal _ | EvAfterNop | EvBeforeReturn
  | EvBeforeSetLocal _ | EvBeforeStore _ _ | EvBeforeStoreGlobal _ | EvBeforeUnary _ => true
  | _ => false
  end.

Section Traversal.
Context {ops : WasmOpcodes}.

Fixpoint emit (t : Expr) (ctx : Context) {struct t} : option Context :=
  let emit_all :=
    fix emit_all (ts : list Expr) (ctx : Context) {struct ts} : option Context :=
      match ts with
      | [] => Some ctx
      | t :: ts' => ctx ← emit t ctx; emit_all ts' ctx
      end in
  match t with
  | ExprBefore e operands =>
    if leaf_event e then ctx ← callback ctx e; emit_all operands ctx else None
  | ExprAfter operands e =>
    if leaf_event e then ctx ← emit_all operands ctx; callback ctx e else None
  | ExprRegion r body =>
    '(cookie, ctx) ← region_open r ctx;
    ctx ← emit_all body ctx;
    region_close r (Z.of_nat (length body)) cookie ctx
  | ExprIf with_else parts =>
    '(cookie, ctx) ← before_if ctx;
    ctx ← emit_all parts ctx;
    after_if with_else cookie ctx
  end.

Fixpoint emit_list (ts : list Expr) (ctx : Context) : option Context :=
  match ts with
  | [] => Some ctx
  | t :: ts' => ctx ← emit t ctx; emit_list ts' ctx
  end.

(** The bytes a leaf callback appends; [None] where the callback fails
    ([after_const] at type void, a call without a module). *)
Definition leaf_bytes (m : option WasmModule) (e : Event) : option (list Z) :=
  match e with
  | EvBeforeBinary opcode | EvBeforeCompare opcode | EvBeforeConvert opcode
  | EvBeforeUnary opcode => Some [to_uint8 opcode]
  | EvAfterBreak depth => Some [to_uint8 WASM_OPCODE_BREAK; to_uint8 depth]
  | EvBeforeCall i =>
    m ← m; data ← leb128_data (vector_size (imports m) + i);
    Some (to_uint8 WASM_OPCODE_CALL :: data)
  | EvBeforeCallImport i =>
    data ← leb128_data i; Some (to_uint8 WASM_OPCODE_CALL :: data)
  | EvAfterConst opcode type value =>
    match type with
    | WASM_TYPE_I32 =>
      if (-128 <=? number_i32 value) && (number_i32 value <? 127)
      then Some [to_uint8 WASM_OPCODE_I8_CONST; to_uint8 (number_i32 value)]
      else Some (to_uint8 opcode :: le_bytes 4 (number_i32 value))
    | WASM_TYPE_I64 => Some (to_uint8 opcode :: le_bytes 8 (number_i64 value))
    | WASM_TYPE_F32 => Some (to_uint8 opcode :: le_bytes 4 (number_f32 value))
    | WASM_TYPE_F64 => Some (to_uint8 opcode :: le_bytes 8 (number_f64 value))
    | WASM_TYPE_VOID => None
    end
  | EvAfterGetLocal i =>
    data ← leb128_data i; Some (to_uint8 WASM_OPCODE_GET_LOCAL :: data)
  | EvBeforeSetLocal i =>
    data ← leb128_data i; Some (to_uint8 WASM_OPCODE_SET_LOCAL :: data)
  | EvAfterLoadGlobal i =>
    data ← leb128_data i; Some (to_uint8 WASM_OPCODE_GET_GLOBAL :: data)
  | EvBeforeStoreGlobal i =>
    data ← leb128_data i; Some (to_uint8 WASM_OPCODE_SET_GLOBAL :: data)
  | EvBeforeLoad opcode access | EvBeforeStore opcode access =>
    Some [to_uint8 opcode; to_uint8 access]
  | EvAfterNop => Some [to_uint8 WASM_OPCODE_NOP]
  | EvBeforeReturn => Some [to_uint8 WASM_OPCODE_RETURN]
  | _ => None
  end.

(** The encoding of an expression written front to back, with every count
    and every conditional opcode known in advance. *)
Fixpoint encode (m : option WasmModule) (t : Expr) {struct t} : option (list Z) :=
  let encode_all :=
    fix encode_all (ts : list Expr) {struct ts} : option (list Z) :=
      match ts with
      | [] => Some []
      | t :: ts' => bytes ← encode m t; rest ← encode_all ts'; Some (bytes ++ rest)
      end in
  match t with
  | ExprBefore e operands =>
    op ← leaf_bytes m e; rest ← encode_all operands; Some (op ++ rest)
  | ExprAfter operands e =>
    rest ← encode_all operands; op ← leaf_bytes m e; Some (rest ++ op)
  | ExprRegion r body =>
    rest ← encode_all body;
    Some (to_uint8 (region_opcode r) :: to_uint8 (Z.of_nat (length body)) :: rest)
  | ExprIf with_else parts =>
    rest ← encode_all parts;
    Some (to_uint8 (if with_else =? 0 then WASM_OPCODE_IF else WASM_OPCODE_IF_THEN) :: rest)
  end.

Definition encode_list (m : option WasmModule) : list Expr → option (list Z) :=
  fix encode_list (ts : list Expr) {struct ts} : option (list Z) :=
    match ts with
    | [] => Some []
    | t :: ts' => bytes ← encode m t; rest ← encode_list ts'; Some (bytes ++ rest)
    end.

End Traversal.

(** [b'] is [b] with [bytes] appended and nothing else changed below the
    old size. *)
Definition buf_appends (b b' : OutputBuffer) (bytes : list Z) : Prop :=
  buf_ok b'
  ∧ buf_size b' = buf_size b + Z.of_nat (length bytes)
  ∧ contents b' = contents b ++ (Some <$> bytes).

(** What [emit] does on one expression whose encoding exists. *)
Definition emit_encodes {ops : WasmOpcodes} (t : Expr) : Prop :=
  ∀ ctx bytes,
    buf_ok (buf ctx) → encode (module ctx) t = Some bytes →
    buf_size (buf ctx) + Z.of_nat (length bytes) < 2 ^ 32 →
    ∃ b', emit t ctx = Some (with_buf ctx b') ∧ buf_appends (buf ctx) b' bytes.

Section FunctionTraversal.
Context {ops : WasmOpcodes}.

(** Modelled from the spec: the parser's events for one function (section 6):
    [function_open(fn)], the events of the body's expressions, then
    [function_close(fn, expression_count)]. *)
Definition emit_function (m : WasmModule) (function_index : Z) (body : list Expr)
    (ctx : Context) : option Context :=
  ctx ← before_function m function_index ctx;
  ctx ← emit_list body ctx;
  after_function m function_index (Z.of_nat (length body)) ctx.

End FunctionTraversal.

(** ** The header records, byte by byte *)

(** How many of the variables have the type with enumerator value [tag]. *)
Definition count_type (tag : Z) (vars : list WasmVariable) : Z :=
  Z.of_nat (length (filter (λ v, WasmType_value (var_type v) = tag) vars)).

Definition preamble_bytes (mem_size_log2 : Z) (m : WasmModule) : list Z :=
  [to_uint8 mem_size_log2; DEFAULT_MEMORY_EXPORT]
  ++ le_bytes 2 (vector_size (globals m))
  ++ le_bytes 2 (vector_size (imports m) + vector_size (functions m))
  ++ le_bytes 2 (vector_size (segments m)).

Definition global_header_bytes (global : WasmVariable) : list Z :=
  le_bytes 4 0 ++ [global_type_codes (var_type global); 0].

Definition import_header_bytes (import : WasmImport) : list Z :=
  [to_uint8 (vector_size (import_args import));
   to_uint8 (WasmType_value (import_result_type import))]
  ++ ((λ arg, to_uint8 (WasmType_value (var_type arg))) <$> import_args import)
  ++ le_bytes 4 0 ++ le_bytes 4 0 ++ le_bytes 4 0
  ++ le_bytes 2 0 ++ le_bytes 2 0 ++ le_bytes 2 0 ++ le_bytes 2 0
  ++ [0; 1].

(** The arguments are the first [num_args] locals; the four counts are taken
    over the locals after them. *)
Definition function_header_bytes (function : WasmFunction) : list Z :=
  let args := take (Z.to_nat (num_args function)) (locals function) in
  let rest := drop (Z.to_nat (num_args function)) (locals function) in
  [to_uint8 (num_args function); to_uint8 (WasmType_value (result_type function))]
  ++ ((λ arg, to_uint8 (WasmType_value (var_type arg))) <$> args)
  ++ le_bytes 4 0 ++ le_bytes 4 0 ++ le_bytes 4 0
  ++ le_bytes 2 (count_type (WasmType_value WASM_TYPE_I32) rest)
  ++ le_bytes 2 (count_type (WasmType_value WASM_TYPE_I64) rest)
  ++ le_bytes 2 (count_type (WasmType_value WASM_TYPE_F32) rest)
  ++ le_bytes 2 (count_type (WasmType_value WASM_TYPE_F64) rest)
  ++ [0; 0].

Definition segment_header_bytes (segment : WasmSegment) : list Z :=
  le_bytes 4 (seg_address segment) ++ le_bytes 4 0 ++ le_bytes 4 (seg_size segment) ++ [1].

Definition module_header_bytes (mem_size_log2 : Z) (m : WasmModule) : list Z :=
  preamble_bytes mem_size_log2 m
  ++ concat (global_header_bytes <$> globals m)
  ++ concat (import_header_bytes <$> imports m)
  ++ concat (function_header_bytes <$> functions m)
  ++ concat (segment_header_bytes <$> segments m).

(** The offset of the header record of import [j], as [out_module_footer]
    recomputes it. *)
Definition import_header_offset_closed (m : WasmModule) (j : nat) : Z :=
  8 + 6 * vector_size (globals m) + sum_list_Z (take j (import_header_sizes m)).

(** The functions of [data] that are exported, in declaration order. *)
Definition exported_functions (data : list WasmFunction) : list WasmFunction :=
  filter (λ f, exported f ≠ 0) data.

(** A name as [out_cstr] writes it: its characters, then the NUL. *)
Definition name_bytes (name : string) : list Z := cstr_bytes name ++ [0].

(** * Properties *)

(** ** The buffer *)

Lemma double_capacity_total fuel new_capacity ensure_capacity :
  0 < new_capacity →
  ensure_capacity ≤ new_capacity + Z.of_nat fuel →
  ∃ c, double_capacity fuel new_capacity ensure_capacity = Some c
       ∧ ensure_capacity ≤ c ∧ new_capacity ≤ c.
Proof.
  revert new_capacity.
  induction fuel as [|fuel IH]; intros nc Hpos Hfuel; simpl;
    destruct (Z.ltb_spec nc ensure_capacity) as [Hlt|Hge].
  - lia.
  - exists nc. repeat split; lia.
  - destruct (IH (nc * 2)) as (c & Hc & ? & ?); [lia | lia |].
    exists c. repeat split; [done | lia..].
  - exists nc. repeat split; lia.
Qed.

Lemma ensure_output_buffer_capacity_ok b ensure_capacity :
  0 < buf_capacity b →
  ∃ c, ensure_output_buffer_capacity b ensure_capacity
       = Some {| buf_start := buf_start b; buf_size := buf_size b; buf_capacity := c |}
       ∧ ensure_capacity ≤ c ∧ buf_capacity b ≤ c.
Proof.
  intros Hpos. unfold ensure_output_buffer_capacity.
  destruct (Z.ltb_spec (buf_capacity b) ensure_capacity) as [Hlt|Hge].
  - destruct (double_capacity_total (Z.to_nat ensure_capacity) (buf_capacity b * 2)
                ensure_capacity) as (c & -> & ? & ?); [lia | lia |].
    exists c. simpl. repeat split; [done | lia..].
  - exists (buf_capacity b). destruct b; simpl in *. repeat split; [done | lia..].
Qed.

Lemma memcpy_lookup src : ∀ (start : gmap Z Z) offset j,
  memcpy start offset src !! j =
  if decide (offset ≤ j < offset + Z.of_nat (length src))
  then src !! Z.to_nat (j - offset) else start !! j.
Proof.
  induction src as [|b src IH]; intros start offset j; simpl.
  - case_decide; [lia | done].
  - rewrite IH. repeat case_decide; try lia.
    + replace (Z.to_nat (j - offset)) with (S (Z.to_nat (j - (offset + 1)))) by lia. done.
    + assert (j = offset) as -> by lia.
      rewrite lookup_insert_eq. by replace (offset - offset) with 0 by lia.
    + rewrite lookup_insert_ne; [done | lia].
Qed.

Lemma memcpy_lookup_outside (start : gmap Z Z) offset src j :
  ¬ (offset ≤ j < offset + Z.of_nat (length src)) →
  memcpy start offset src !! j = start !! j.
Proof. intros. rewrite memcpy_lookup. by case_decide. Qed.

Lemma memcpy_read (start : gmap Z Z) offset src :
  (λ i, memcpy start offset src !! i) <$> seqZ offset (Z.of_nat (length src)) = Some <$> src.
Proof.
  apply list_eq; intros k. rewrite !list_lookup_fmap.
  destruct (decide (k < length src)%nat) as [Hk|Hk].
  - rewrite lookup_seqZ_lt by lia. simpl. rewrite memcpy_lookup.
    case_decide; [|lia]. replace (Z.to_nat (offset + Z.of_nat k - offset)) with k by lia.
    destruct (lookup_lt_is_Some_2 src k Hk) as [x ->]. done.
  - rewrite lookup_seqZ_ge by lia. rewrite lookup_ge_None_2 by lia. done.
Qed.

Lemma out_data_ok b offset src :
  buf_ok b → offset ≤ buf_size b →
  ∃ c, out_data b offset src
       = Some ({| buf_start := memcpy (buf_start b) offset src;
                  buf_size := buf_size b; buf_capacity := c |},
               offset + Z.of_nat (length src))
       ∧ offset + Z.of_nat (length src) ≤ c ∧ buf_capacity b ≤ c.
Proof.
  intros [Hsize Hcap] Hoff. unfold out_data.
  destruct (Z.leb_spec offset (buf_size b)); [simpl | lia].
  destruct (ensure_output_buffer_capacity_ok b (offset + Z.of_nat (length src)) Hcap)
    as (c & -> & ? & ?).
  exists c. simpl. done.
Qed.

Lemma out_data_assert b offset src :
  buf_size b < offset → out_data b offset src = None.
Proof. intros. unfold out_data. by destruct (Z.leb_spec offset (buf_size b)); [lia|]. Qed.

Lemma out_at_end_ok b src :
  buf_ok b →
  ∃ b', out_at_end b src = Some b' ∧ buf_ok b'
        ∧ buf_size b' = buf_size b + Z.of_nat (length src)
        ∧ buf_start b' = memcpy (buf_start b) (buf_size b) src.
Proof.
  intros Hok. unfold out_at_end.
  destruct (out_data_ok b (buf_size b) src Hok) as (c & -> & ? & ?); [lia|].
  simpl. eexists. split; [done|]. destruct Hok as [? ?].
  unfold buf_ok; simpl. repeat split; lia.
Qed.

Lemma contents_memcpy b b' src :
  0 ≤ buf_size b →
  buf_size b' = buf_size b + Z.of_nat (length src) →
  buf_start b' = memcpy (buf_start b) (buf_size b) src →
  contents b' = contents b ++ (Some <$> src).
Proof.
  intros Hsize Hsize' Hstart. unfold contents.
  rewrite Hsize', Hstart, seqZ_app, fmap_app by lia. f_equal.
  - apply list_eq; intros k. rewrite !list_lookup_fmap.
    destruct (seqZ 0 (buf_size b) !! k) as [j|] eqn:Hj; [simpl | done].
    apply lookup_seqZ in Hj. rewrite memcpy_lookup_outside; [done | lia].
  - rewrite Z.add_0_l. apply memcpy_read.
Qed.

Lemma out_at_end_contents b src :
  buf_ok b →
  ∃ b', out_at_end b src = Some b' ∧ buf_ok b'
        ∧ buf_size b' = buf_size b + Z.of_nat (length src)
        ∧ contents b' = contents b ++ (Some <$> src)
        ∧ ∀ j, j < buf_size b → buf_start b' !! j = buf_start b !! j.
Proof.
  intros Hok. destruct (out_at_end_ok b src Hok) as (b' & ? & ? & ? & Hstart).
  exists b'. split_and!; try done.
  - apply contents_memcpy; [apply Hok | done..].
  - intros j Hj. rewrite Hstart, memcpy_lookup_outside; [done | lia].
Qed.

Lemma OUT_AT_TYPE_ok width b offset value :
  buf_ok b → to_uint32 offset ≤ buf_size b →
  ∃ b', OUT_AT_TYPE width b offset value = Some b' ∧ buf_ok b'
        ∧ buf_size b' = buf_size b
        ∧ buf_start b' = memcpy (buf_start b) (to_uint32 offset) (le_bytes width value).
Proof.
  intros Hok Hoff. unfold OUT_AT_TYPE.
  destruct (out_data_ok b (to_uint32 offset) (le_bytes width value) Hok Hoff)
    as (c & -> & ? & ?).
  simpl. eexists. split; [done|]. destruct Hok as [? ?].
  unfold buf_ok; simpl. repeat split; lia.
Qed.

Lemma length_le_bytes width value : length (le_bytes width value) = width.
Proof. revert value. induction width; intros; simpl; [done | by rewrite IHwidth]. Qed.

Lemma le_bytes_range width value : Forall (λ x, 0 ≤ x < 256) (le_bytes width value).
Proof.
  revert value. induction width; intros; simpl; constructor; [|done].
  apply Z.mod_pos_bound. lia.
Qed.

Lemma le_value_le_bytes width value :
  le_value (le_bytes width value) = value mod 2 ^ (8 * Z.of_nat width).
Proof.
  revert value. induction width as [|width IH]; intros value.
  - simpl. by rewrite Z.mod_1_r.
  - cbn [le_bytes le_value]. rewrite IH.
    replace (8 * Z.of_nat (S width)) with (8 + 8 * Z.of_nat width) by lia.
    rewrite Z.pow_add_r by lia. change (2 ^ 8) with 256.
    rewrite Z.rem_mul_r by lia. lia.
Qed.

(** ** The variable-length integer writer *)

Lemma below_128_cases (P : Z → bool) :
  forallb P (seqZ 0 128) = true → ∀ d, 0 ≤ d < 128 → P d = true.
Proof.
  intros HP d Hd. rewrite forallb_forall in HP. apply HP.
  apply list_elem_of_In, elem_of_seqZ. lia.
Qed.

Lemma group_bits d :
  0 ≤ d < 128 →
  Z.land d 0x7f = d ∧ Z.testbit d 7 = false
  ∧ Z.lor d 0x80 = d + 128 ∧ Z.land (d + 128) 0x7f = d ∧ Z.testbit (d + 128) 7 = true.
Proof.
  intros Hd.
  pose proof (below_128_cases
    (λ d, (Z.land d 0x7f =? d) && negb (Z.testbit d 7) && (Z.lor d 0x80 =? d + 128)
          && (Z.land (d + 128) 0x7f =? d) && Z.testbit (d + 128) 7)
    eq_refl d Hd) as HP.
  simpl in HP. repeat (apply andb_prop in HP as [HP ?]).
  apply negb_true_iff in H2. split_and!; try done; by apply Z.eqb_eq.
Qed.

Lemma ceil_div_bits_small value :
  0 ≤ value < 128 → ceil_div (bits_needed value) 7 = 1.
Proof.
  intros Hv. unfold ceil_div, bits_needed.
  destruct (Z.eqb_spec value 0) as [->|Hne]; [done|].
  assert (Z.log2 value < 7) by (apply Z.log2_lt_pow2; lia).
  pose proof (Z.log2_nonneg value).
  symmetry. apply Z.div_unique with (r := Z.log2 value); lia.
Qed.

Lemma ceil_div_bits_step value :
  128 ≤ value →
  ceil_div (bits_needed value) 7 = 1 + ceil_div (bits_needed (Z.shiftr value 7)) 7.
Proof.
  intros Hv. unfold ceil_div, bits_needed.
  assert (7 ≤ Z.log2 value) by (apply (Z.log2_le_pow2 value 7); lia).
  assert (0 < Z.shiftr value 7).
  { rewrite Z.shiftr_div_pow2 by lia. apply Z.div_str_pos. lia. }
  destruct (Z.eqb_spec value 0); [lia|].
  destruct (Z.eqb_spec (Z.shiftr value 7) 0); [lia|].
  rewrite Z.log2_shiftr by lia.
  replace (Z.max 0 (Z.log2 value - 7)) with (Z.log2 value - 7) by lia.
  replace (Z.log2 value + 1 + 7 - 1) with (Z.log2 value - 7 + 1 + 7 - 1 + 1 * 7) by lia.
  rewrite Z.div_add by lia. lia.
Qed.

Lemma leb128_loop_ok fuel : ∀ i value data,
  0 ≤ i < 5 → 5 - i < Z.of_nat fuel → 0 ≤ value < 2 ^ (7 * (5 - i)) →
  ∃ enc, leb128_loop fuel i value data = Some (data ++ enc)
         ∧ leb128_decode enc = value
         ∧ Z.of_nat (length enc) = ceil_div (bits_needed value) 7
         ∧ Z.of_nat (length enc) ≤ 5 - i
         ∧ leb128_shaped enc.
Proof.
  induction fuel as [|fuel IH]; intros i value data Hi Hfuel Hv; [lia|].
  cbn [leb128_loop]. destruct (Z.ltb_spec i 5); [cbn [negb] | lia].
  change 0x7f with (Z.ones 7). rewrite Z.land_ones by lia.
  assert (Hd : 0 ≤ value mod 2 ^ 7 < 128) by (apply Z.mod_pos_bound; lia).
  assert (Hsplit : value = 128 * Z.shiftr value 7 + value mod 2 ^ 7).
  { rewrite Z.shiftr_div_pow2 by lia. apply (Z.div_mod value (2 ^ 7)). lia. }
  assert (Hhi : 0 ≤ Z.shiftr value 7) by (apply Z.shiftr_nonneg; lia).
  destruct (group_bits _ Hd) as (Hland & Hbit & Hlor & Hland' & Hbit').
  destruct (Z.eqb_spec (Z.shiftr value 7) 0) as [Hz|Hnz].
  - exists [value mod 2 ^ 7]. split; [done|].
    assert (value = value mod 2 ^ 7) as Hsmall by lia.
    cbn [leb128_decode length leb128_shaped]. rewrite Hland, Hbit.
    split_and!; try lia.
    rewrite ceil_div_bits_small; lia.
  - assert (128 ≤ value) by lia.
    assert (i < 4).
    { destruct (decide (i < 4)); [done|]. assert (i = 4) as -> by lia.
      change (2 ^ (7 * (5 - 4))) with 128 in Hv. lia. }
    assert (Z.shiftr value 7 < 2 ^ (7 * (5 - (i + 1)))).
    { rewrite Z.shiftr_div_pow2 by lia. apply Z.div_lt_upper_bound; [lia|].
      rewrite <- Z.pow_add_r by lia.
      replace (7 + 7 * (5 - (i + 1))) with (7 * (5 - i)) by lia. lia. }
    destruct (IH (i + 1) (Z.shiftr value 7) (data ++ [Z.lor (value mod 2 ^ 7) 0x80]))
      as (enc & -> & Hdec & Hlen & Hle & Hshape); [lia | lia | lia |].
    exists (Z.lor (value mod 2 ^ 7) 0x80 :: enc).
    split; [by rewrite <- app_assoc|].
    rewrite Hlor. cbn [leb128_decode length]. rewrite Hland', Hbit', Hdec.
    split; [lia|]. split; [rewrite ceil_div_bits_step by lia; lia|]. split; [lia|].
    cbn [leb128_shaped]. destruct enc as [|b enc]; [done|]. split; [lia | done].
Qed.

Lemma leb128_data_ok value :
  0 ≤ value < 2 ^ 32 →
  ∃ data, leb128_data value = Some data
          ∧ leb128_decode data = value
          ∧ Z.of_nat (length data) = ceil_div (bits_needed value) 7
          ∧ Z.of_nat (length data) ≤ 5
          ∧ leb128_shaped data.
Proof.
  intros Hv. unfold leb128_data, to_uint32. rewrite Z.mod_small by done.
  destruct (leb128_loop_ok 6 0 value []) as (enc & Hloop & ?); [lia | lia | |].
  - change (2 ^ (7 * (5 - 0))) with (2 ^ 35). split; [lia|].
    apply Z.lt_trans with (2 ^ 32); [lia | done].
  - exists enc. rewrite Hloop. split; [done|]. by rewrite Z.sub_0_r in H.
Qed.

(** C2. For every unsigned 32-bit value [v], [out_leb128] succeeds and appends
    the base-128 encoding of [v]: every emitted byte but the last has bit 7
    set, decoding the emitted bytes (low group first) gives back [v], the
    length is [ceil (bits_needed v / 7)], which is 1 byte below 128 and never
    more than 5 bytes. *)
Theorem out_leb128_roundtrip (b : OutputBuffer) (v : Z) :
  buf_ok b → 0 ≤ v < 2 ^ 32 →
  ∃ data b', leb128_data v = Some data
    ∧ out_leb128 b v = Some b'
    ∧ contents b' = contents b ++ (Some <$> data)
    ∧ leb128_shaped data
    ∧ leb128_decode data = v
    ∧ Z.of_nat (length data) = ceil_div (bits_needed v) 7
    ∧ (v < 128 → length data = 1%nat)
    ∧ (length data ≤ 5)%nat.
Proof.
  intros Hok Hv.
  destruct (leb128_data_ok v Hv) as (data & Hdata & Hdec & Hlen & Hle & Hshape).
  destruct (out_at_end_contents b data Hok) as (b' & Hout & _ & _ & Hcont & _).
  exists data, b'. unfold out_leb128. rewrite Hdata. simpl.
  split_and!; try done; [|lia].
  intros Hsmall. rewrite ceil_div_bits_small in Hlen by lia. lia.
Qed.

Lemma out_leb128_roundtrip_witness :
  ∃ data b', leb128_data 300 = Some data
    ∧ out_leb128 (init_output_buffer (buf zero_context) INITIAL_OUTPUT_BUFFER_CAPACITY) 300
      = Some b'
    ∧ contents b'
      = contents (init_output_buffer (buf zero_context) INITIAL_OUTPUT_BUFFER_CAPACITY)
        ++ (Some <$> data)
    ∧ leb128_shaped data
    ∧ leb128_decode data = 300
    ∧ Z.of_nat (length data) = ceil_div (bits_needed 300) 7
    ∧ (300 < 128 → length data = 1%nat)
    ∧ (length data ≤ 5)%nat.
Proof.
  apply (out_leb128_roundtrip
           (init_output_buffer (buf zero_context) INITIAL_OUTPUT_BUFFER_CAPACITY) 300).
  - unfold buf_ok, INITIAL_OUTPUT_BUFFER_CAPACITY. simpl. lia.
  - lia.
Defined.

Lemma for_each_out_at_end srcs : ∀ b,
  buf_ok b →
  ∃ b', for_each out_at_end srcs b = Some b' ∧ buf_ok b'
        ∧ buf_size b' = buf_size b + Z.of_nat (length (concat srcs))
        ∧ contents b' = contents b ++ (Some <$> concat srcs).
Proof.
  induction srcs as [|src srcs IH]; intros b Hok; simpl.
  - exists b. rewrite app_nil_r. split_and!; [done | done | lia | done].
  - destruct (out_at_end_contents b src Hok) as (b1 & -> & Hok1 & Hsize1 & Hcont1 & _).
    destruct (IH b1 Hok1) as (b' & Hrun & Hok' & Hsize' & Hcont').
    exists b'. simpl. rewrite length_app, fmap_app, app_assoc, <- Hcont1.
    split_and!; [done | done | lia | done].
Qed.

Lemma bytes_at_memcpy (start : gmap Z Z) offset src b :
  buf_start b = memcpy start offset src →
  bytes_at b offset (Z.of_nat (length src)) = Some <$> src.
Proof. intros Hstart. unfold bytes_at. rewrite Hstart. apply memcpy_read. Qed.

(** C3. Appending any sequence of byte strings leaves, in [[0, size)], the
    bytes that were there followed by the appended strings in call order
    (from a fresh buffer: exactly their concatenation); a patch at an offset
    within the buffer keeps [size], stores the value's bytes at the offset and
    changes no byte outside the targeted range. *)
Theorem buffer_append_patch (b : OutputBuffer) (srcs : list (list Z))
    (width : nat) (offset value : Z) :
  buf_ok b →
  (∃ b', for_each out_at_end srcs b = Some b'
         ∧ buf_size b' = buf_size b + Z.of_nat (length (concat srcs))
         ∧ contents b' = contents b ++ (Some <$> concat srcs))
  ∧ (∃ b', for_each out_at_end srcs (init_output_buffer b INITIAL_OUTPUT_BUFFER_CAPACITY)
           = Some b'
           ∧ contents b' = Some <$> concat srcs)
  ∧ (to_uint32 offset ≤ buf_size b →
     ∃ b', OUT_AT_TYPE width b offset value = Some b'
           ∧ buf_size b' = buf_size b
           ∧ length (contents b') = length (contents b)
           ∧ bytes_at b' (to_uint32 offset) (Z.of_nat width) = Some <$> le_bytes width value
           ∧ ∀ j, ¬ (to_uint32 offset ≤ j < to_uint32 offset + Z.of_nat width) →
                  buf_start b' !! j = buf_start b !! j).
Proof.
  intros Hok. split_and!.
  - destruct (for_each_out_at_end srcs b Hok) as (b' & ? & ? & ? & ?). by exists b'.
  - destruct (for_each_out_at_end srcs
                (init_output_buffer b INITIAL_OUTPUT_BUFFER_CAPACITY))
      as (b' & ? & ? & ? & Hcont);
      [unfold buf_ok, INITIAL_OUTPUT_BUFFER_CAPACITY; simpl; lia|].
    exists b'. done.
  - intros Hoff.
    destruct (OUT_AT_TYPE_ok width b offset value Hok Hoff) as (b' & ? & ? & Hsize & Hstart).
    exists b'. split_and!; try done.
    + unfold contents. by rewrite !length_fmap, Hsize.
    + rewrite <- (length_le_bytes width value) at 1. by eapply bytes_at_memcpy.
    + intros j Hj. rewrite Hstart, memcpy_lookup_outside; [done|].
      by rewrite length_le_bytes.
Qed.

Lemma buffer_append_patch_witness :
  let b := {| buf_start := {[ 0 := 7; 1 := 8 ]}; buf_size := 2; buf_capacity := 2 |} in
  (∃ b', for_each out_at_end [[1; 2]; []; [3]] b = Some b'
         ∧ buf_size b' = buf_size b + Z.of_nat (length (concat [[1; 2]; []; [3]]))
         ∧ contents b' = contents b ++ (Some <$> concat [[1; 2]; []; [3]]))
  ∧ (∃ b', for_each out_at_end [[1; 2]; []; [3]]
             (init_output_buffer b INITIAL_OUTPUT_BUFFER_CAPACITY) = Some b'
           ∧ contents b' = Some <$> concat [[1; 2]; []; [3]])
  ∧ (to_uint32 1 ≤ buf_size b →
     ∃ b', OUT_AT_TYPE 1 b 1 300 = Some b'
           ∧ buf_size b' = buf_size b
           ∧ length (contents b') = length (contents b)
           ∧ bytes_at b' (to_uint32 1) (Z.of_nat 1) = Some <$> le_bytes 1 300
           ∧ ∀ j, ¬ (to_uint32 1 ≤ j < to_uint32 1 + Z.of_nat 1) →
                  buf_start b' !! j = buf_start b !! j).
Proof.
  apply (buffer_append_patch
           {| buf_start := {[ 0 := 7; 1 := 8 ]}; buf_size := 2; buf_capacity := 2 |}
           [[1; 2]; []; [3]] 1 1 300).
  unfold buf_ok. simpl. lia.
Defined.

(** ** The typed writers *)

Lemma OUT_TYPE_ok width b value :
  buf_ok b →
  ∃ b', OUT_TYPE width b value = Some b' ∧ buf_ok b'
        ∧ buf_size b' = buf_size b + Z.of_nat width
        ∧ contents b' = contents b ++ (Some <$> le_bytes width value)
        ∧ ∀ j, j < buf_size b → buf_start b' !! j = buf_start b !! j.
Proof.
  intros Hok. unfold OUT_TYPE.
  destruct (out_at_end_contents b (le_bytes width value) Hok) as (b' & ? & ? & Hsize & ? & ?).
  rewrite length_le_bytes in Hsize. by exists b'.
Qed.

Lemma to_uint8_idemp x : to_uint8 x mod 256 = to_uint8 x.
Proof. unfold to_uint8. change (2 ^ 8) with 256. apply Z.mod_mod. lia. Qed.

Lemma out_opcode_ok b opcode :
  buf_ok b →
  ∃ b', out_opcode b opcode = Some b' ∧ buf_ok b'
        ∧ buf_size b' = buf_size b + 1
        ∧ contents b' = contents b ++ [Some (to_uint8 opcode)]
        ∧ ∀ j, j < buf_size b → buf_start b' !! j = buf_start b !! j.
Proof.
  intros Hok. unfold out_opcode, out_u8.
  destruct (OUT_TYPE_ok 1 b (to_uint8 opcode) Hok) as (b' & ? & ? & ? & Hcont & ?).
  simpl in Hcont. rewrite to_uint8_idemp in Hcont. by exists b'.
Qed.

Lemma out_u8_ok b value :
  buf_ok b →
  ∃ b', out_u8 b value = Some b' ∧ buf_ok b'
        ∧ buf_size b' = buf_size b + 1
        ∧ contents b' = contents b ++ [Some (to_uint8 value)]
        ∧ ∀ j, j < buf_size b → buf_start b' !! j = buf_start b !! j.
Proof.
  intros Hok. unfold out_u8.
  destruct (OUT_TYPE_ok 1 b value Hok) as (b' & ? & ? & ? & Hcont & ?). by exists b'.
Qed.

(** A patch of one byte. *)
Lemma out_u8_at_ok b offset value :
  buf_ok b → 0 ≤ offset < 2 ^ 32 → offset ≤ buf_size b →
  ∃ b', out_u8_at b offset value = Some b' ∧ buf_ok b'
        ∧ buf_size b' = buf_size b
        ∧ buf_start b' !! offset = Some (to_uint8 value)
        ∧ ∀ j, j ≠ offset → buf_start b' !! j = buf_start b !! j.
Proof.
  intros Hok Hrange Hoff. unfold out_u8_at.
  assert (Hwrap : to_uint32 offset = offset) by (apply Z.mod_small; done).
  destruct (OUT_AT_TYPE_ok 1 b offset value Hok) as (b' & ? & ? & ? & Hstart); [lia|].
  rewrite Hwrap in Hstart. exists b'. split_and!; try done.
  - rewrite Hstart. simpl. apply lookup_insert_eq.
  - intros j Hj. rewrite Hstart. simpl. by apply lookup_insert_ne.
Qed.

(** A patch of a 32-bit field that lies inside the buffer. *)
Lemma out_u32_at_ok b offset value :
  buf_ok b → 0 ≤ offset < 2 ^ 32 → offset ≤ buf_size b →
  ∃ b', out_u32_at b offset value = Some b' ∧ buf_ok b'
        ∧ buf_size b' = buf_size b
        ∧ bytes_at b' offset 4 = Some <$> le_bytes 4 value
        ∧ ∀ j, ¬ (offset ≤ j < offset + 4) → buf_start b' !! j = buf_start b !! j.
Proof.
  intros Hok Hrange Hoff. unfold out_u32_at.
  assert (Hwrap : to_uint32 offset = offset) by (apply Z.mod_small; done).
  destruct (OUT_AT_TYPE_ok 4 b offset value Hok) as (b' & ? & ? & ? & Hstart); [lia|].
  rewrite Hwrap in Hstart. exists b'. split_and!; try done.
  - change 4 with (Z.of_nat (length (le_bytes 4 value))). by eapply bytes_at_memcpy.
  - intros j Hj. rewrite Hstart, memcpy_lookup_outside; [done|].
    by rewrite length_le_bytes.
Qed.

(** ** What a returning writer leaves behind *)

Lemma out_at_end_grows b src b' :
  buf_ok b → out_at_end b src = Some b' → buf_ok b' ∧ buf_size b ≤ buf_size b'.
Proof.
  intros Hok Hrun. destruct (out_at_end_ok b src Hok) as (b1 & Hrun1 & ? & ? & ?).
  rewrite Hrun in Hrun1. injection Hrun1 as ->. split; [done | lia].
Qed.

Lemma OUT_AT_TYPE_keeps width b offset value b' :
  buf_ok b → OUT_AT_TYPE width b offset value = Some b' →
  buf_ok b' ∧ buf_size b' = buf_size b.
Proof.
  intros Hok Hrun. destruct (decide (to_uint32 offset ≤ buf_size b)) as [Hoff|Hoff].
  - destruct (OUT_AT_TYPE_ok width b offset value Hok Hoff) as (b1 & Hrun1 & ? & ? & ?).
    rewrite Hrun in Hrun1. by injection Hrun1 as ->.
  - unfold OUT_AT_TYPE in Hrun. rewrite out_data_assert in Hrun by lia. done.
Qed.

Ltac open_binds :=
  repeat match goal with
  | H : (_ ≫= _) = Some _ |- _ => apply bind_Some in H as (? & ? & H)
  | H : (_ <$> _) = Some _ |- _ => apply fmap_Some in H as (? & H & ?)
  | H : Some _ = Some _ |- _ => injection H as H
  | H : None = Some _ |- _ => discriminate H
  | H : (let '(_, _) := ?p in _) = Some _ |- _ => destruct p
  | H : (if ?c then _ else _) = Some _ |- _ => destruct c eqn:?
  | H : match ?t with WASM_TYPE_VOID => _ | _ => _ end = Some _ |- _ => destruct t
  end.

Ltac chain_writers :=
  unfold out_opcode, out_leb128, out_u8, out_u16, out_u32, out_u64, out_f32, out_f64,
         out_u8_at, out_u32_at, OUT_TYPE in *;
  open_binds;
  repeat match goal with
  | Hok : buf_ok ?b, H : out_at_end ?b _ = Some _ |- _ =>
    destruct (out_at_end_grows _ _ _ Hok H); clear H
  | Hok : buf_ok ?b, H : OUT_AT_TYPE _ ?b _ _ = Some _ |- _ =>
    destruct (OUT_AT_TYPE_keeps _ _ _ _ _ Hok H); clear H
  end.

(** ** Expression events keep the layout and only grow the buffer *)

Section Events.
Context {ops : WasmOpcodes}.

Lemma callback_expression ctx e ctx' :
  expression_event e = true → buf_ok (buf ctx) →
  callback ctx e = Some ctx' → same_frame ctx ctx'.
Proof.
  intros Hexpr Hok Hrun. unfold same_frame.
  destruct e; try discriminate Hexpr; cbn [callback] in Hrun;
    unfold before_block, after_block, before_binary, after_break, before_call,
           before_call_import, before_compare, after_const, before_convert,
           after_get_local, before_if, after_if, before_label, after_label, before_load,
           after_load_global, before_loop, after_loop, after_nop, before_return,
           before_set_local, before_store, before_store_global, before_unary in Hrun;
    chain_writers; subst; simpl; split_and!; try done; lia.
Qed.

Lemma same_frame_refl ctx : buf_ok (buf ctx) → same_frame ctx ctx.
Proof. intros. unfold same_frame. split_and!; try done. Qed.

Lemma same_frame_trans ctx1 ctx2 ctx3 :
  same_frame ctx1 ctx2 → same_frame ctx2 ctx3 → same_frame ctx1 ctx3.
Proof.
  unfold same_frame. intros (-> & -> & -> & -> & ? & ?) (-> & -> & -> & -> & ? & ?).
  split_and!; try done. lia.
Qed.

Lemma run_events_expression events : ∀ ctx ctx',
  forallb expression_event events = true → buf_ok (buf ctx) →
  run_events events ctx = Some ctx' → same_frame ctx ctx'.
Proof.
  unfold run_events.
  induction events as [|e events IH]; intros ctx ctx' Hexpr Hok Hrun; simpl in *.
  - injection Hrun as <-. by apply same_frame_refl.
  - apply andb_prop in Hexpr as [He Hes].
    apply bind_Some in Hrun as (ctx1 & Hstep & Hrun).
    pose proof (callback_expression ctx e ctx1 He Hok Hstep) as Hframe.
    eapply same_frame_trans; [done|]. apply IH; [done | apply Hframe | done].
Qed.

End Events.

(** ** Counted regions *)

Section RegionProperties.
Context {ops : WasmOpcodes}.

Lemma region_open_ok r ctx :
  buf_ok (buf ctx) →
  ∃ ctx1, region_open r ctx = Some (buf_size (buf ctx) + 1, ctx1)
    ∧ same_frame ctx ctx1
    ∧ buf_size (buf ctx1) = buf_size (buf ctx) + 2
    ∧ contents (buf ctx1)
      = contents (buf ctx) ++ [Some (to_uint8 (region_opcode r)); Some 0].
Proof.
  intros Hok.
  destruct (out_opcode_ok (buf ctx) (region_opcode r) Hok)
    as (b1 & Hop & Hok1 & Hsize1 & Hcont1 & _).
  destruct (out_u8_ok b1 0 Hok1) as (b2 & Hu8 & Hok2 & Hsize2 & Hcont2 & _).
  exists (with_buf ctx b2).
  split; [|split; [|split]].
  - destruct r; cbn [region_open region_opcode] in *;
      unfold before_block, before_loop, before_label;
      rewrite Hop; simpl; rewrite Hu8; simpl; by rewrite Hsize1.
  - unfold same_frame. simpl. split_and!; try done. lia.
  - simpl. lia.
  - simpl. rewrite Hcont2, Hcont1, <- app_assoc. done.
Qed.

Lemma region_close_ok r n cookie ctx :
  buf_ok (buf ctx) → 0 ≤ cookie < 2 ^ 32 → cookie ≤ buf_size (buf ctx) →
  ∃ ctx', region_close r n cookie ctx = Some ctx'
    ∧ same_frame ctx ctx'
    ∧ buf_size (buf ctx') = buf_size (buf ctx)
    ∧ buf_start (buf ctx') !! cookie = Some (n mod 256)
    ∧ ∀ j, j ≠ cookie → buf_start (buf ctx') !! j = buf_start (buf ctx) !! j.
Proof.
  intros Hok Hcookie Hle.
  assert (Hwrap : to_uint32 cookie = cookie) by (apply Z.mod_small; done).
  destruct (out_u8_at_ok (buf ctx) cookie n Hok Hcookie Hle)
    as (b' & Hat & Hok' & Hsize & Hbyte & Hframe).
  exists (with_buf ctx b').
  split; [|split; [|split; [|split]]]; simpl; try done.
  - destruct r; cbn [region_close]; unfold after_block, after_loop, after_label;
      rewrite Hwrap, Hat; done.
  - unfold same_frame. simpl. split_and!; try done. lia.
Qed.

End RegionProperties.

Lemma length_contents b : 0 ≤ buf_size b → length (contents b) = Z.to_nat (buf_size b).
Proof. intros. unfold contents. by rewrite length_fmap, length_seqZ. Qed.

Lemma contents_lookup b j :
  0 ≤ j < buf_size b → contents b !! Z.to_nat j = Some (buf_start b !! j).
Proof.
  intros Hj. unfold contents. rewrite list_lookup_fmap, lookup_seqZ_lt by lia.
  simpl. do 2 f_equal. lia.
Qed.

(** C4 (amended). On a buffer whose offsets fit 32 bits, opening a block, loop
    or labeled region appends the region's opcode byte and one zero byte, and
    returns the offset of that zero byte as the cookie; after any expression
    events, the closing callback called with that cookie and a count [n]
    succeeds, keeps the size and leaves [n mod 256] at the cookie's offset,
    which is [n] itself when [0 <= n < 256].  The count is the caller's: the
    emitter does not count the expressions between the two events. *)
Theorem region_count_backpatch {ops : WasmOpcodes} (r : Region) (ctx : Context) :
  buf_ok (buf ctx) → buf_size (buf ctx) + 1 < 2 ^ 32 →
  ∃ cookie ctx1,
    region_open r ctx = Some (cookie, ctx1)
    ∧ contents (buf ctx1)
      = contents (buf ctx) ++ [Some (to_uint8 (region_opcode r)); Some 0]
    ∧ cookie = buf_size (buf ctx) + 1
    ∧ buf_start (buf ctx1) !! cookie = Some 0
    ∧ ∀ events ctx2 n,
        forallb expression_event events = true →
        run_events events ctx1 = Some ctx2 →
        ∃ ctx3, region_close r n cookie ctx2 = Some ctx3
          ∧ buf_size (buf ctx3) = buf_size (buf ctx2)
          ∧ buf_start (buf ctx3) !! cookie = Some (n mod 256)
          ∧ (0 ≤ n < 256 → buf_start (buf ctx3) !! cookie = Some n).
Proof.
  intros Hok Hbound.
  destruct (region_open_ok r ctx Hok) as (ctx1 & Hopen & Hframe1 & Hsize1 & Hcont1).
  pose proof Hok as [[Hsize0 _] _].
  exists (buf_size (buf ctx) + 1), ctx1. split_and!; try done.
  - assert (Hl : contents (buf ctx1) !! Z.to_nat (buf_size (buf ctx) + 1) = Some (Some 0)).
    { rewrite Hcont1, lookup_app_r by (rewrite length_contents; lia).
      rewrite length_contents by lia.
      by replace (Z.to_nat (buf_size (buf ctx) + 1) - Z.to_nat (buf_size (buf ctx)))%nat
        with 1%nat by lia. }
    rewrite contents_lookup in Hl by lia. by injection Hl.
  - intros events ctx2 n Hexpr Hrun.
    destruct Hframe1 as (_ & _ & _ & _ & Hok1 & _).
    destruct (run_events_expression events ctx1 ctx2 Hexpr Hok1 Hrun)
      as (_ & _ & _ & _ & Hok2 & Hsize2).
    destruct (region_close_ok r n (buf_size (buf ctx) + 1) ctx2 Hok2)
      as (ctx3 & Hclose & _ & Hsize3 & Hbyte & _); [lia | lia |].
    exists ctx3. split_and!; try done.
    intros Hn. by rewrite Hbyte, Z.mod_small.
Qed.

Lemma region_count_backpatch_witness :
  ∃ ctx cookie ctx1 ctx2 ctx3,
    run_events (ops := example_opcodes)
      [EvBeforeModule main_module; EvBeforeFunction 0] zero_context = Some ctx
    ∧ region_open (ops := example_opcodes) RegionLoop ctx = Some (cookie, ctx1)
    ∧ run_events (ops := example_opcodes) [EvAfterNop; EvAfterNop] ctx1 = Some ctx2
    ∧ region_close RegionLoop 2 cookie ctx2 = Some ctx3
    ∧ buf_start (buf ctx3) !! cookie = Some 2.
Proof.
  destruct (run_events (ops := example_opcodes)
              [EvBeforeModule main_module; EvBeforeFunction 0] zero_context)
    as [ctx|] eqn:Hctx; [|vm_compute in Hctx; discriminate Hctx].
  assert (Hsize : buf_size (buf ctx) = 34).
  { vm_compute in Hctx. injection Hctx as <-. reflexivity. }
  assert (Hcap : buf_capacity (buf ctx) = 65536).
  { vm_compute in Hctx. injection Hctx as <-. reflexivity. }
  destruct (region_count_backpatch (ops := example_opcodes) RegionLoop ctx)
    as (cookie & ctx1 & Hopen & _ & _ & _ & Hclose).
  - unfold buf_ok. rewrite Hsize, Hcap. lia.
  - rewrite Hsize. lia.
  - destruct (run_events (ops := example_opcodes) [EvAfterNop; EvAfterNop] ctx1)
      as [ctx2|] eqn:Hrun.
    + destruct (Hclose [EvAfterNop; EvAfterNop] ctx2 2 eq_refl Hrun)
        as (ctx3 & Hclosed & _ & _ & Hbyte).
      exists ctx, cookie, ctx1, ctx2, ctx3.
      split; [first [exact Hctx | reflexivity]|]. split; [exact Hopen|]. split; [exact Hrun|].
      split; [exact Hclosed|]. apply Hbyte. lia.
    + exfalso. vm_compute in Hctx. injection Hctx as <-.
      vm_compute in Hopen. injection Hopen as <- <-.
      vm_compute in Hrun. discriminate Hrun.
Defined.

(** The count of a block with 256 expressions does not fit the placeholder:
    after the closing callback the byte at the cookie is 0, not 256. *)
Lemma region_count_counterexample :
  ∃ ctx cookie ctx1 ctx2 ctx3,
    run_events (ops := example_opcodes)
      [EvBeforeModule main_module; EvBeforeFunction 0] zero_context = Some ctx
    ∧ before_block (ops := example_opcodes) ctx = Some (cookie, ctx1)
    ∧ run_events (ops := example_opcodes) (replicate 256 EvAfterNop) ctx1 = Some ctx2
    ∧ after_block 256 cookie ctx2 = Some ctx3
    ∧ buf_start (buf ctx3) !! cookie = Some 0
    ∧ buf_start (buf ctx3) !! cookie ≠ Some 256.
Proof.
  do 5 eexists. split_and!.
  - vm_compute. reflexivity.
  - vm_compute. reflexivity.
  - vm_compute. reflexivity.
  - vm_compute. reflexivity.
  - vm_compute. reflexivity.
  - vm_compute. discriminate.
Qed.

(** ** Leaf events *)

Lemma out_leb128_ok b value :
  buf_ok b → 0 ≤ value < 2 ^ 32 →
  ∃ data b', leb128_data value = Some data ∧ out_leb128 b value = Some b'
    ∧ buf_ok b'
    ∧ contents b' = contents b ++ (Some <$> data)
    ∧ leb128_decode data = value.
Proof.
  intros Hok Hv.
  destruct (leb128_data_ok value Hv) as (data & Hdata & Hdec & _).
  destruct (out_at_end_contents b data Hok) as (b' & Hout & Hok' & _ & Hcont & _).
  exists data, b'. unfold out_leb128. rewrite Hdata. done.
Qed.

(** C5. A 32-bit integer literal [v] with [-128 <= v < 127] is emitted as
    the [I8_CONST] opcode and one operand byte; every other value, 127
    included, as the given full-width opcode and four operand bytes.  So
    -128 takes the compact form and 127 the full-width one. *)
Theorem after_const_i32_compaction {ops : WasmOpcodes}
    (opcode : Z) (value : WasmNumber) (ctx : Context) :
  buf_ok (buf ctx) →
  ∃ ctx', after_const opcode WASM_TYPE_I32 value ctx = Some ctx'
    ∧ (-128 ≤ number_i32 value < 127 →
       contents (buf ctx')
       = contents (buf ctx)
         ++ [Some (to_uint8 WASM_OPCODE_I8_CONST); Some (to_uint8 (number_i32 value))])
    ∧ (¬ (-128 ≤ number_i32 value < 127) →
       contents (buf ctx')
       = contents (buf ctx)
         ++ (Some <$> to_uint8 opcode :: le_bytes 4 (number_i32 value)))
    ∧ (number_i32 value = -128 →
       contents (buf ctx')
       = contents (buf ctx) ++ [Some (to_uint8 WASM_OPCODE_I8_CONST); Some 128])
    ∧ (number_i32 value = 127 →
       contents (buf ctx')
       = contents (buf ctx) ++ (Some <$> [to_uint8 opcode; 127; 0; 0; 0])).
Proof.
  intros Hok. unfold after_const.
  destruct (out_opcode_ok (buf ctx) WASM_OPCODE_I8_CONST Hok) as (b1 & Hop1 & Hok1 & _ & Hc1 & _).
  destruct (out_u8_ok b1 (number_i32 value) Hok1) as (b2 & Hu8 & _ & _ & Hc2 & _).
  destruct (out_opcode_ok (buf ctx) opcode Hok) as (b3 & Hop3 & Hok3 & _ & Hc3 & _).
  destruct (OUT_TYPE_ok 4 b3 (number_i32 value) Hok3) as (b4 & Hu32 & _ & _ & Hc4 & _).
  fold out_u32 in Hu32.
  destruct (Z.leb_spec (-128) (number_i32 value)) as [Hlo|Hlo];
    destruct (Z.ltb_spec (number_i32 value) 127) as [Hhi|Hhi]; cbn [andb].
  - rewrite Hop1. simpl. rewrite Hu8. simpl. eexists. split; [done|]. simpl.
    rewrite Hc2, Hc1, <- app_assoc. split_and!; try done; try lia.
    intros ->. done.
  - rewrite Hop3. simpl. rewrite Hu32. simpl. eexists. split; [done|]. simpl.
    rewrite Hc4, Hc3, <- app_assoc. split_and!; try done; try lia.
    intros ->. done.
  - rewrite Hop3. simpl. rewrite Hu32. simpl. eexists. split; [done|]. simpl.
    rewrite Hc4, Hc3, <- app_assoc. split_and!; try done; lia.
  - lia.
Qed.

Lemma after_const_i32_compaction_witness :
  ∃ ctx', after_const (ops := example_opcodes) 10 WASM_TYPE_I32 (mkWasmNumber (-128))
            (with_buf zero_context
               (init_output_buffer (buf zero_context) INITIAL_OUTPUT_BUFFER_CAPACITY))
          = Some ctx'
    ∧ contents (buf ctx') = [Some 9; Some 128].
Proof.
  destruct (after_const_i32_compaction (ops := example_opcodes) 10 (mkWasmNumber (-128))
              (with_buf zero_context
                 (init_output_buffer (buf zero_context) INITIAL_OUTPUT_BUFFER_CAPACITY)))
    as (ctx' & Hrun & _ & _ & Hlow & _).
  - unfold buf_ok, INITIAL_OUTPUT_BUFFER_CAPACITY. simpl. lia.
  - exists ctx'. split; [exact Hrun|]. apply Hlow. reflexivity.
Defined.

(** C6. On a buffer whose offsets fit 32 bits, [before_if] returns the offset
    at which it then writes the [IF] opcode.  After any expression events,
    [after_if] without an alternate returns the context as it is; with an
    alternate it stores the [IF_THEN] opcode at the returned offset and
    changes no other byte and not the size. *)
Theorem if_opcode_backpatch {ops : WasmOpcodes} (ctx : Context) :
  buf_ok (buf ctx) → buf_size (buf ctx) < 2 ^ 32 →
  ∃ cookie ctx1,
    before_if ctx = Some (cookie, ctx1)
    ∧ cookie = buf_size (buf ctx)
    ∧ contents (buf ctx1) = contents (buf ctx) ++ [Some (to_uint8 WASM_OPCODE_IF)]
    ∧ ∀ events ctx2 with_else,
        forallb expression_event events = true →
        run_events events ctx1 = Some ctx2 →
        (with_else = 0 → after_if with_else cookie ctx2 = Some ctx2)
        ∧ (with_else ≠ 0 →
           ∃ ctx3, after_if with_else cookie ctx2 = Some ctx3
             ∧ buf_size (buf ctx3) = buf_size (buf ctx2)
             ∧ buf_start (buf ctx3) !! cookie = Some (to_uint8 WASM_OPCODE_IF_THEN)
             ∧ ∀ j, j ≠ cookie → buf_start (buf ctx3) !! j = buf_start (buf ctx2) !! j).
Proof.
  intros Hok Hbound. pose proof Hok as [[Hsize0 _] _].
  destruct (out_opcode_ok (buf ctx) WASM_OPCODE_IF Hok) as (b1 & Hop & Hok1 & Hsize1 & Hc1 & _).
  assert (Hwrap : to_uint32 (buf_size (buf ctx)) = buf_size (buf ctx))
    by (apply Z.mod_small; lia).
  exists (buf_size (buf ctx)), (with_buf ctx b1).
  split; [|split; [|split]]; try done.
  - unfold before_if. rewrite Hop, Hwrap. done.
  - intros events ctx2 with_else Hexpr Hrun.
    destruct (run_events_expression events (with_buf ctx b1) ctx2 Hexpr Hok1 Hrun)
      as (_ & _ & _ & _ & Hok2 & Hsize2). simpl in Hsize2.
    unfold after_if. split.
    + intros ->. done.
    + intros Hne. destruct (Z.eqb_spec with_else 0); [done|].
      destruct (out_u8_at_ok (buf ctx2) (buf_size (buf ctx)) WASM_OPCODE_IF_THEN Hok2)
        as (b3 & Hat & _ & Hsize3 & Hbyte & Hframe); [lia | lia |].
      rewrite Hwrap, Hat. simpl. eexists. split; [done|]. simpl. done.
Qed.

Lemma if_opcode_backpatch_witness :
  ∃ cookie ctx1 ctx2 ctx3,
    before_if (ops := example_opcodes)
      (with_buf zero_context
         (init_output_buffer (buf zero_context) INITIAL_OUTPUT_BUFFER_CAPACITY))
    = Some (cookie, ctx1)
    ∧ run_events (ops := example_opcodes) [EvAfterNop; EvAfterNop; EvAfterNop] ctx1
      = Some ctx2
    ∧ after_if (ops := example_opcodes) 1 cookie ctx2 = Some ctx3
    ∧ buf_start (buf ctx3) !! cookie = Some 4.
Proof.
  destruct (if_opcode_backpatch (ops := example_opcodes)
              (with_buf zero_context
                 (init_output_buffer (buf zero_context) INITIAL_OUTPUT_BUFFER_CAPACITY)))
    as (cookie & ctx1 & Hopen & _ & _ & Hclose).
  - unfold buf_ok, INITIAL_OUTPUT_BUFFER_CAPACITY. simpl. lia.
  - simpl. lia.
  - destruct (run_events (ops := example_opcodes) [EvAfterNop; EvAfterNop; EvAfterNop] ctx1)
      as [ctx2|] eqn:Hrun.
    + destruct (Hclose [EvAfterNop; EvAfterNop; EvAfterNop] ctx2 1 eq_refl Hrun)
        as [_ Helse].
      destruct Helse as (ctx3 & Hclosed & _ & Hbyte & _); [lia|].
      exists cookie, ctx1, ctx2, ctx3.
      split; [exact Hopen|]. split; [exact Hrun|]. split; [exact Hclosed|]. exact Hbyte.
    + exfalso. vm_compute in Hopen. injection Hopen as <- <-.
      vm_compute in Hrun. discriminate Hrun.
Defined.

(** C8. A call to the declared function [i] emits the [CALL] opcode and the
    varint of [imports.size + i]; a call to the import [j] emits the [CALL]
    opcode and the varint of [j] itself.  The operand of an import is
    therefore below that of every declared function. *)
Theorem call_index_remap {ops : WasmOpcodes} (m : WasmModule) (ctx : Context) (i j : Z) :
  buf_ok (buf ctx) → module ctx = Some m →
  0 ≤ i → vector_size (imports m) + i < 2 ^ 32 → 0 ≤ j < 2 ^ 32 →
  ∃ operand_i operand_j ctx_i ctx_j,
    before_call i ctx = Some ctx_i
    ∧ leb128_data (vector_size (imports m) + i) = Some operand_i
    ∧ contents (buf ctx_i)
      = contents (buf ctx) ++ Some (to_uint8 WASM_OPCODE_CALL) :: (Some <$> operand_i)
    ∧ leb128_decode operand_i = vector_size (imports m) + i
    ∧ before_call_import j ctx = Some ctx_j
    ∧ leb128_data j = Some operand_j
    ∧ contents (buf ctx_j)
      = contents (buf ctx) ++ Some (to_uint8 WASM_OPCODE_CALL) :: (Some <$> operand_j)
    ∧ leb128_decode operand_j = j
    ∧ (j < vector_size (imports m) → leb128_decode operand_j < leb128_decode operand_i).
Proof.
  intros Hok Hm Hi Hbound Hj.
  assert (0 ≤ vector_size (imports m)) by (unfold vector_size; lia).
  destruct (out_opcode_ok (buf ctx) WASM_OPCODE_CALL Hok) as (b1 & Hop & Hok1 & _ & Hc1 & _).
  destruct (out_leb128_ok b1 (vector_size (imports m) + i) Hok1)
    as (operand_i & b_i & Hdata_i & Hleb_i & _ & Hc_i & Hdec_i); [lia|].
  destruct (out_leb128_ok b1 j Hok1)
    as (operand_j & b_j & Hdata_j & Hleb_j & _ & Hc_j & Hdec_j); [lia|].
  exists operand_i, operand_j, (with_buf ctx b_i), (with_buf ctx b_j).
  unfold before_call, before_call_import. rewrite Hop, Hm. simpl.
  rewrite Hleb_i, Hleb_j. simpl. rewrite Hc_i, Hc_j, Hc1, <- !app_assoc.
  split_and!; try done. lia.
Qed.

Lemma call_index_remap_witness :
  let m := {| max_memory_size := 0; globals := [];
              imports := [mkWasmImport [] WASM_TYPE_VOID "a";
                          mkWasmImport [] WASM_TYPE_VOID "b";
                          mkWasmImport [] WASM_TYPE_VOID "c"];
              functions := [mkWasmFunction 0 WASM_TYPE_VOID [] 0 "";
                            mkWasmFunction 0 WASM_TYPE_VOID [] 0 ""];
              segments := [] |} in
  ∃ ctx ctx_i ctx_j,
    run_events (ops := example_opcodes) [EvBeforeModule m; EvBeforeFunction 0] zero_context
    = Some ctx
    ∧ before_call (ops := example_opcodes) 1 ctx = Some ctx_i
    ∧ before_call_import (ops := example_opcodes) 2 ctx = Some ctx_j
    ∧ contents (buf ctx_i) = contents (buf ctx) ++ [Some 18; Some 4]
    ∧ contents (buf ctx_j) = contents (buf ctx) ++ [Some 18; Some 2]
    ∧ leb128_decode [2] < leb128_decode [4].
Proof.
  intros m.
  destruct (run_events (ops := example_opcodes)
              [EvBeforeModule m; EvBeforeFunction 0] zero_context)
    as [ctx|] eqn:Hctx; [|vm_compute in Hctx; discriminate Hctx].
  assert (Hm : module ctx = Some m).
  { vm_compute in Hctx. injection Hctx as <-. reflexivity. }
  assert (Hsize : buf_size (buf ctx) = 130).
  { vm_compute in Hctx. injection Hctx as <-. reflexivity. }
  assert (Hcap : buf_capacity (buf ctx) = 65536).
  { vm_compute in Hctx. injection Hctx as <-. reflexivity. }
  destruct (call_index_remap (ops := example_opcodes) m ctx 1 2)
    as (operand_i & operand_j & ctx_i & ctx_j
        & Hcall & Hdata_i & Hc_i & _ & Himport & Hdata_j & Hc_j & _ & Hlow).
  - unfold buf_ok. rewrite Hsize, Hcap. lia.
  - exact Hm.
  - lia.
  - vm_compute. reflexivity.
  - lia.
  - exists ctx, ctx_i, ctx_j. vm_compute in Hdata_i. vm_compute in Hdata_j.
    injection Hdata_i as <-. injection Hdata_j as <-.
    split; [first [exact Hctx | reflexivity]|]. split; [exact Hcall|]. split; [exact Himport|].
    split; [exact Hc_i|]. split; [exact Hc_j|].
    apply Hlow. vm_compute. reflexivity.
Defined.

(** ** The layout pass *)

Lemma sum_list_Z_app l1 l2 : sum_list_Z (l1 ++ l2) = sum_list_Z l1 + sum_list_Z l2.
Proof. unfold sum_list_Z. induction l1 as [|x l1 IH]; simpl; lia. Qed.

Lemma sum_list_Z_nonneg l : Forall (λ x, 0 ≤ x) l → 0 ≤ sum_list_Z l.
Proof. unfold sum_list_Z. induction 1; simpl; lia. Qed.

Lemma sum_list_Z_take_le l i :
  Forall (λ x, 0 ≤ x) l → 0 ≤ sum_list_Z (take i l) ≤ sum_list_Z l.
Proof.
  intros Hl. rewrite <- (take_drop i l) at 3. rewrite sum_list_Z_app.
  assert (0 ≤ sum_list_Z (take i l)) by (by apply sum_list_Z_nonneg, Forall_take).
  assert (0 ≤ sum_list_Z (drop i l)) by (by apply sum_list_Z_nonneg, Forall_drop).
  lia.
Qed.

Lemma sum_list_Z_take_S l i x :
  l !! i = Some x → sum_list_Z (take (S i) l) = sum_list_Z (take i l) + x.
Proof.
  intros Hx. rewrite (take_S_r _ _ _ Hx), sum_list_Z_app. unfold sum_list_Z. simpl. lia.
Qed.

Lemma sum_list_Z_cons x l : sum_list_Z (x :: l) = x + sum_list_Z l.
Proof. done. Qed.

Lemma skip_import_headers_closed data : ∀ offset,
  0 ≤ offset →
  offset + sum_list_Z ((λ i, 24 + vector_size (import_args i)) <$> data) < 2 ^ 32 →
  skip_import_headers data offset
  = offset + sum_list_Z ((λ i, 24 + vector_size (import_args i)) <$> data).
Proof.
  induction data as [|import data IH]; intros offset Hlo Hhi.
  - cbn. unfold sum_list_Z. simpl. lia.
  - rewrite fmap_cons, sum_list_Z_cons in *.
    assert (0 ≤ vector_size (import_args import)) by (unfold vector_size; lia).
    assert (0 ≤ sum_list_Z ((λ i, 24 + vector_size (import_args i)) <$> data)).
    { apply sum_list_Z_nonneg, Forall_fmap, Forall_forall. intros i _. simpl.
      unfold vector_size. lia. }
    cbn [skip_import_headers]. unfold FUNC_HEADER_SIZE, to_uint32.
    rewrite Z.mod_small by lia. rewrite IH by lia. lia.
Qed.

Lemma plan_function_headers_closed data : ∀ offset,
  0 ≤ offset →
  Forall (λ f, 0 ≤ num_args f) data →
  offset + sum_list_Z ((λ f, 24 + num_args f) <$> data) < 2 ^ 32 →
  plan_function_headers data offset
  = ((λ i, offset + sum_list_Z (take i ((λ f, 24 + num_args f) <$> data)))
       <$> seq 0 (length data),
     offset + sum_list_Z ((λ f, 24 + num_args f) <$> data)).
Proof.
  induction data as [|function data IH]; intros offset Hlo Hargs Hhi.
  - cbn. unfold sum_list_Z. simpl. f_equal. lia.
  - apply Forall_cons in Hargs as [Harg Hargs]. cbn beta in Harg.
    rewrite fmap_cons, sum_list_Z_cons in *.
    assert (0 ≤ sum_list_Z ((λ f, 24 + num_args f) <$> data)).
    { apply sum_list_Z_nonneg, Forall_fmap. eapply Forall_impl; [done|].
      intros f Hf. simpl in *. lia. }
    cbn [plan_function_headers length]. unfold FUNC_HEADER_SIZE, to_uint32.
    rewrite Z.mod_small by lia. rewrite IH by (done || lia). f_equal; [|lia].
    cbn [seq]. rewrite <- fmap_S_seq, fmap_cons, <- list_fmap_compose.
    f_equal; [cbn; unfold sum_list_Z; simpl; lia|].
    apply list_fmap_ext. intros _ i _. cbn [compose take]. rewrite sum_list_Z_cons. lia.
Qed.

Lemma plan_segment_headers_closed data : ∀ offset,
  0 ≤ offset →
  offset + 13 * Z.of_nat (length data) < 2 ^ 32 →
  plan_segment_headers data offset
  = ((λ s, offset + 13 * Z.of_nat s) <$> seq 0 (length data),
     offset + 13 * Z.of_nat (length data)).
Proof.
  induction data as [|segment data IH]; intros offset Hlo Hhi.
  - cbn. f_equal. lia.
  - cbn [plan_segment_headers length] in *.
    unfold SEGMENT_HEADER_SIZE, to_uint32. rewrite Z.mod_small by lia.
    rewrite IH by lia. f_equal; [|lia].
    cbn [seq]. rewrite <- fmap_S_seq, fmap_cons, <- list_fmap_compose.
    f_equal; [lia|]. apply list_fmap_ext. intros _ s _. cbn [compose]. lia.
Qed.

Lemma import_header_sizes_nonneg m : Forall (λ x, 0 ≤ x) (import_header_sizes m).
Proof.
  unfold import_header_sizes. apply Forall_fmap, Forall_forall. intros i _. simpl.
  unfold vector_size. lia.
Qed.

Lemma function_header_sizes_nonneg m :
  Forall (λ f, 0 ≤ num_args f) (functions m) → Forall (λ x, 0 ≤ x) (function_header_sizes m).
Proof.
  intros Hargs. unfold function_header_sizes. apply Forall_fmap.
  eapply Forall_impl; [done|]. intros f Hf. simpl in *. lia.
Qed.

Lemma headers_end_unfold m :
  headers_end m
  = 8 + 6 * vector_size (globals m) + sum_list_Z (import_header_sizes m)
    + sum_list_Z (function_header_sizes m) + 13 * vector_size (segments m).
Proof.
  unfold headers_end, segment_header_offset_closed, function_header_offset_closed.
  rewrite take_ge; [done|]. unfold function_header_sizes. by rewrite length_fmap.
Qed.

Lemma plan_header_offsets_closed m :
  Forall (λ f, 0 ≤ num_args f) (functions m) →
  headers_end m < 2 ^ 32 →
  plan_header_offsets m
  = (function_header_offset_closed m <$> seq 0 (length (functions m)),
     segment_header_offset_closed m <$> seq 0 (length (segments m))).
Proof.
  intros Hargs Hend. rewrite headers_end_unfold in Hend.
  pose proof (sum_list_Z_nonneg _ (import_header_sizes_nonneg m)).
  pose proof (sum_list_Z_nonneg _ (function_header_sizes_nonneg m Hargs)).
  assert (0 ≤ vector_size (globals m)) by (unfold vector_size; lia).
  assert (0 ≤ vector_size (segments m)) by (unfold vector_size; lia).
  unfold plan_header_offsets, FUNC_HEADERS_OFFSET, GLOBAL_HEADERS_OFFSET, GLOBAL_HEADER_SIZE.
  unfold to_uint32 at 1. rewrite Z.mod_small by lia.
  fold (import_header_sizes m) in *. unfold import_header_sizes in *.
  rewrite skip_import_headers_closed by lia.
  unfold function_header_sizes in *.
  rewrite plan_function_headers_closed by (done || lia).
  unfold vector_size in *.
  rewrite plan_segment_headers_closed by lia.
  f_equal.
  - apply list_fmap_ext. intros _ i _. unfold function_header_offset_closed.
    unfold import_header_sizes, function_header_sizes, vector_size. lia.
  - apply list_fmap_ext. intros _ s _.
    unfold segment_header_offset_closed, function_header_offset_closed.
    unfold import_header_sizes, function_header_sizes, vector_size.
    rewrite take_ge by (by rewrite length_fmap). lia.
Qed.

(** ** The header writer *)

Lemma for_each_invariant {A S} (P : S → Prop) (body : S → A → option S) data :
  (∀ s x, x ∈ data → P s → ∃ s', body s x = Some s' ∧ P s') →
  ∀ s, P s → ∃ s', for_each body data s = Some s' ∧ P s'.
Proof.
  induction data as [|x data IH]; intros Hbody s Hs; simpl.
  - by exists s.
  - destruct (Hbody s x) as (s1 & -> & Hs1); [left | done |]. simpl.
    apply IH; [|done]. intros s2 y Hy. apply Hbody. by right.
Qed.

Lemma for_each_sized {A} (body : OutputBuffer → A → option OutputBuffer)
    (step : A → Z) data :
  (∀ b x, x ∈ data → buf_ok b →
          ∃ b', body b x = Some b' ∧ buf_ok b' ∧ buf_size b' = buf_size b + step x) →
  ∀ b, buf_ok b →
       ∃ b', for_each body data b = Some b' ∧ buf_ok b'
             ∧ buf_size b' = buf_size b + sum_list_Z (step <$> data).
Proof.
  induction data as [|x data IH]; intros Hbody b Hok; cbn [for_each].
  - exists b. cbn. split_and!; [done | done | lia].
  - destruct (Hbody b x) as (b1 & -> & Hok1 & Hsize1); [left | done |].
    cbn [mbind option_bind].
    destruct (IH (λ b y Hy, Hbody b y (list_elem_of_further _ _ _ Hy)) b1 Hok1)
      as (b' & ? & ? & ?).
    exists b'. rewrite fmap_cons, sum_list_Z_cons. split_and!; [done | done | lia].
Qed.

Lemma sum_list_Z_const {A} (data : list A) c :
  sum_list_Z ((λ _, c) <$> data) = c * Z.of_nat (length data).
Proof.
  induction data as [|x data IH]; [cbn; lia|].
  rewrite fmap_cons, sum_list_Z_cons, IH. cbn [length]. lia.
Qed.

Lemma OUT_TYPE_sized width b value :
  buf_ok b →
  ∃ b', OUT_TYPE width b value = Some b' ∧ buf_ok b'
        ∧ buf_size b' = buf_size b + Z.of_nat width.
Proof.
  intros Hok. destruct (OUT_TYPE_ok width b value Hok) as (b' & ? & ? & ? & _).
  by exists b'.
Qed.

Ltac run_writers :=
  unfold out_u8, out_u16, out_u32;
  repeat match goal with
  | Hok : buf_ok ?b |- context [OUT_TYPE ?w ?b ?v] =>
    let b' := fresh "b" in
    let Hrun := fresh "Hrun" in
    let Hok' := fresh "Hok" in
    let Hsize := fresh "Hsize" in
    destruct (OUT_TYPE_sized w b v Hok) as (b' & Hrun & Hok' & Hsize);
    rewrite Hrun; clear Hrun; cbn [mbind option_bind]
  end.

Lemma out_global_header_ok b global :
  buf_ok b →
  ∃ b', out_global_header b global = Some b' ∧ buf_ok b'
        ∧ buf_size b' = buf_size b + 6.
Proof.
  intros Hok. unfold out_global_header. run_writers.
  eexists. split_and!; [done | done | lia].
Qed.

Lemma array_get_lt {A} (data : list A) i :
  0 ≤ i < vector_size data → ∃ x, array_get data i = Some x.
Proof.
  intros Hi. unfold array_get, vector_size in *.
  destruct (Z.ltb_spec i 0); [lia|]. apply lookup_lt_is_Some_2. lia.
Qed.

Lemma out_import_header_ok b import :
  buf_ok b →
  ∃ b', out_import_header b import = Some b' ∧ buf_ok b'
        ∧ buf_size b' = buf_size b + (24 + vector_size (import_args import)).
Proof.
  intros Hok. unfold out_import_header. run_writers.
  destruct (for_each_sized (λ buf arg, OUT_TYPE 1 buf (WasmType_value (var_type arg)))
              (λ _, 1) (import_args import)) with (b := b1)
    as (b2 & Hloop & Hok2 & Hsize2); [|done|].
  { intros b' arg _ Hok'. by apply (OUT_TYPE_sized 1). }
  rewrite Hloop. cbn [mbind option_bind]. run_writers.
  rewrite sum_list_Z_const in Hsize2. unfold vector_size.
  eexists. split_and!; [done | done | lia].
Qed.

Lemma count_locals_ok function :
  0 ≤ num_args function ≤ vector_size (locals function) →
  ∃ num_locals, count_locals function = Some num_locals
                ∧ length num_locals = Z.to_nat WASM_NUM_TYPES.
Proof.
  intros Hargs. unfold count_locals.
  apply (for_each_invariant (λ l, length l = Z.to_nat WASM_NUM_TYPES)).
  - intros l j Hj Hl. apply elem_of_seqZ in Hj.
    destruct (array_get_lt (locals function) j) as [local ->]; [lia|].
    simpl. eexists. split; [done|]. by rewrite length_alter.
  - by rewrite length_replicate.
Qed.

Lemma out_function_header_ok b function :
  buf_ok b → 0 ≤ num_args function ≤ vector_size (locals function) →
  ∃ b', out_function_header b function = Some b' ∧ buf_ok b'
        ∧ buf_size b' = buf_size b + (24 + num_args function).
Proof.
  intros Hok Hargs. unfold out_function_header. run_writers.
  destruct (for_each_sized
              (λ buf j, local ← array_get (locals function) j;
                        OUT_TYPE 1 buf (WasmType_value (var_type local)))
              (λ _, 1) (seqZ 0 (num_args function))) with (b := b1)
    as (b2 & Hloop & Hok2 & Hsize2); [|done|].
  { intros b' j Hj Hok'. apply elem_of_seqZ in Hj.
    destruct (array_get_lt (locals function) j) as [local ->]; [lia|].
    simpl. by apply (OUT_TYPE_sized 1). }
  rewrite Hloop. cbn [mbind option_bind]. run_writers.
  destruct (count_locals_ok function Hargs) as (num_locals & -> & Hlen).
  cbn [mbind option_bind].
  do 5 (destruct num_locals as [|? num_locals]; [discriminate Hlen|]).
  change (array_get (?a :: ?b :: ?c :: ?d :: ?e :: num_locals)
            (WasmType_value WASM_TYPE_I32)) with (Some b).
  change (array_get (?a :: ?b :: ?c :: ?d :: ?e :: num_locals)
            (WasmType_value WASM_TYPE_I64)) with (Some c).
  change (array_get (?a :: ?b :: ?c :: ?d :: ?e :: num_locals)
            (WasmType_value WASM_TYPE_F32)) with (Some d).
  change (array_get (?a :: ?b :: ?c :: ?d :: ?e :: num_locals)
            (WasmType_value WASM_TYPE_F64)) with (Some e).
  cbn [mbind option_bind]. run_writers.
  rewrite sum_list_Z_const, length_seqZ in Hsize2.
  eexists. split_and!; [done | done | lia].
Qed.

Lemma out_segment_header_ok b segment :
  buf_ok b →
  ∃ b', out_segment_header b segment = Some b' ∧ buf_ok b'
        ∧ buf_size b' = buf_size b + 13.
Proof.
  intros Hok. unfold out_segment_header. run_writers.
  eexists. split_and!; [done | done | lia].
Qed.

Lemma log_two_u32_ok x : to_uint32 x ≠ 1 → ∃ y, log_two_u32 x = Some y.
Proof.
  intros Hx. unfold log_two_u32.
  destruct (Z.eqb_spec (to_uint32 x) 0); [by eexists|].
  destruct (Z.eqb_spec (to_uint32 x - 1) 0); [lia | by eexists].
Qed.

Lemma out_module_header_ok b m :
  buf_ok b → module_ok m →
  ∃ b', out_module_header b m = Some b' ∧ buf_ok b'
        ∧ buf_size b' = buf_size b + headers_end m.
Proof.
  intros Hok [Hmem Hfuns]. unfold out_module_header.
  destruct (log_two_u32_ok _ Hmem) as [mem_size ->]. cbn [mbind option_bind].
  run_writers.
  destruct (for_each_sized out_global_header (λ _, 6) (globals m)) with (b := b4)
    as (b5 & -> & Hok5 & Hsize5); [|done|].
  { intros. by apply out_global_header_ok. }
  cbn [mbind option_bind].
  destruct (for_each_sized out_import_header
              (λ i, 24 + vector_size (import_args i)) (imports m)) with (b := b5)
    as (b6 & -> & Hok6 & Hsize6); [|done|].
  { intros. by apply out_import_header_ok. }
  cbn [mbind option_bind].
  destruct (for_each_sized out_function_header
              (λ f, 24 + num_args f) (functions m)) with (b := b6)
    as (b7 & -> & Hok7 & Hsize7); [|done|].
  { intros b' f Hf Hok'. apply out_function_header_ok; [done|].
    rewrite Forall_forall in Hfuns. by apply Hfuns. }
  cbn [mbind option_bind].
  destruct (for_each_sized out_segment_header (λ _, 13) (segments m)) with (b := b7)
    as (b8 & -> & Hok8 & Hsize8); [|done|].
  { intros. by apply out_segment_header_ok. }
  rewrite !sum_list_Z_const in *.
  exists b8. split_and!; [done | done |].
  rewrite headers_end_unfold.
  unfold import_header_sizes, function_header_sizes, vector_size in *. lia.
Qed.

Lemma module_ok_args m :
  module_ok m → Forall (λ f, 0 ≤ num_args f) (functions m).
Proof. intros [_ Hfuns]. eapply Forall_impl; [done|]. intros f Hf. simpl in Hf. lia. Qed.

Lemma before_module_ok m ctx :
  module_ok m →
  ∃ ctx', before_module m ctx = Some ctx' ∧ laid_out m ctx'
          ∧ buf_size (buf ctx') = headers_end m
          ∧ function_num_exprs_offset ctx' = function_num_exprs_offset ctx.
Proof.
  intros Hm. unfold before_module.
  destruct (plan_header_offsets m) as [function_table segment_table] eqn:Hplan.
  destruct (out_module_header_ok
              (init_output_buffer (buf ctx) INITIAL_OUTPUT_BUFFER_CAPACITY) m)
    as (b & -> & Hok & Hsize); [|done|].
  { unfold buf_ok, INITIAL_OUTPUT_BUFFER_CAPACITY. simpl. lia. }
  simpl in Hsize. eexists. split; [done|]. unfold laid_out. simpl.
  split_and!; try done; lia.
Qed.

Lemma laid_out_frame m ctx ctx' : laid_out m ctx → same_frame ctx ctx' → laid_out m ctx'.
Proof.
  unfold laid_out, same_frame.
  intros (Hm & Hplan & Hok & Hend) (-> & _ & -> & -> & Hok' & Hsize).
  split_and!; try done. lia.
Qed.

Lemma function_header_offset_closed_S m i f :
  functions m !! i = Some f →
  function_header_offset_closed m (S i)
  = function_header_offset_closed m i + (24 + num_args f).
Proof.
  intros Hf. unfold function_header_offset_closed.
  rewrite (sum_list_Z_take_S _ i (24 + num_args f)); [lia|].
  unfold function_header_sizes. by rewrite list_lookup_fmap, Hf.
Qed.

Lemma function_header_offset_closed_bounds m i :
  Forall (λ f, 0 ≤ num_args f) (functions m) →
  8 ≤ function_header_offset_closed m i ≤ headers_end m.
Proof.
  intros Hargs. rewrite headers_end_unfold. unfold function_header_offset_closed.
  pose proof (sum_list_Z_nonneg _ (import_header_sizes_nonneg m)).
  pose proof (sum_list_Z_take_le _ i (function_header_sizes_nonneg m Hargs)).
  unfold vector_size. lia.
Qed.

(** The header record of every declared function lies inside the header
    area, at the offset the table holds for it. *)
Lemma function_header_lookup m ctx i f :
  laid_out m ctx → Forall (λ f, 0 ≤ num_args f) (functions m) →
  headers_end m < 2 ^ 32 →
  array_get (functions m) i = Some f →
  ∃ h, array_get (function_header_offsets ctx) i = Some h
       ∧ h = function_header_offset_closed m (Z.to_nat i)
       ∧ 8 ≤ h ∧ h + (24 + num_args f) ≤ headers_end m.
Proof.
  intros (_ & Hplan & _ & _) Hargs Hend Hf.
  rewrite plan_header_offsets_closed in Hplan by done.
  injection Hplan as Htable _.
  unfold array_get in *. destruct (Z.ltb_spec i 0); [done|].
  pose proof (lookup_lt_Some _ _ _ Hf) as Hlt.
  exists (function_header_offset_closed m (Z.to_nat i)).
  rewrite Htable, list_lookup_fmap, lookup_seq_lt by done. simpl.
  split; [done|]. split; [done|].
  pose proof (function_header_offset_closed_bounds m (Z.to_nat i) Hargs).
  pose proof (function_header_offset_closed_bounds m (S (Z.to_nat i)) Hargs).
  rewrite (function_header_offset_closed_S m _ f Hf) in *. lia.
Qed.

(** C1. [before_module] fills the function table with the closed-form prefix
    sums: entry [i] is 8 + 6*G + Σ_j (24 + a_j) + Σ_{k<i} (24 + b_k); the
    segment table continues at strides of 13 from the end of the last function
    header.  The tables depend on the module's shape alone and no expression
    event changes them.  (Offsets are [uint32_t]: the header area is assumed
    to end below 2^32.) *)
Theorem header_offsets_closed_form {ops : WasmOpcodes} (m : WasmModule) (ctx : Context) :
  module_ok m → headers_end m < 2 ^ 32 →
  ∃ ctx', before_module m ctx = Some ctx'
    ∧ length (function_header_offsets ctx') = length (functions m)
    ∧ (∀ i, (i < length (functions m))%nat →
            function_header_offsets ctx' !! i
            = Some (8 + 6 * vector_size (globals m)
                    + sum_list_Z ((λ import, 24 + vector_size (import_args import))
                                    <$> imports m)
                    + sum_list_Z (take i ((λ f, 24 + num_args f) <$> functions m))))
    ∧ length (segment_header_offsets ctx') = length (segments m)
    ∧ (∀ s, (s < length (segments m))%nat →
            segment_header_offsets ctx' !! s
            = Some (function_header_offset_closed m (length (functions m))
                    + 13 * Z.of_nat s))
    ∧ (∀ events ctx'',
         forallb expression_event events = true →
         run_events events ctx' = Some ctx'' →
         function_header_offsets ctx'' = function_header_offsets ctx'
         ∧ segment_header_offsets ctx'' = segment_header_offsets ctx').
Proof.
  intros Hm Hend.
  destruct (before_module_ok m ctx Hm) as (ctx' & Hrun & Hlaid & _).
  exists ctx'. split; [done|].
  pose proof Hlaid as (_ & Hplan & Hok & _).
  rewrite plan_header_offsets_closed in Hplan by (by apply module_ok_args || done).
  injection Hplan as Hft Hst.
  rewrite Hft, Hst, !length_fmap, !length_seq. split_and!; try done.
  - intros i Hi. by rewrite list_lookup_fmap, lookup_seq_lt.
  - intros s Hs. by rewrite list_lookup_fmap, lookup_seq_lt.
  - rewrite <- Hft, <- Hst. intros events ctx'' Hexpr Hev.
    by destruct (run_events_expression events ctx' ctx'' Hexpr Hok Hev)
      as (_ & _ & -> & -> & _).
Qed.

Lemma header_offsets_closed_form_witness :
  let m := {| max_memory_size := 65536;
              globals := [mkWasmVariable WASM_TYPE_I32];
              imports := [mkWasmImport [mkWasmVariable WASM_TYPE_F64] WASM_TYPE_VOID "print"];
              functions := [mkWasmFunction 2 WASM_TYPE_I32
                              [mkWasmVariable WASM_TYPE_I32; mkWasmVariable WASM_TYPE_I32;
                               mkWasmVariable WASM_TYPE_F32] 0 "";
                            mkWasmFunction 0 WASM_TYPE_VOID [] 1 "main"];
              segments := [mkWasmSegment 0 [1; 2; 3; 4] 4; mkWasmSegment 16 [5] 1] |} in
  ∃ ctx', before_module m zero_context = Some ctx'
    ∧ function_header_offsets ctx' = [39; 65]
    ∧ segment_header_offsets ctx' = [89; 102].
Proof.
  intros m.
  destruct (header_offsets_closed_form (ops := example_opcodes) m zero_context)
    as (ctx' & Hrun & _).
  - split; [vm_compute; discriminate|]. repeat constructor; vm_compute; discriminate.
  - vm_compute. reflexivity.
  - exists ctx'. split; [exact Hrun|].
    vm_compute in Hrun. injection Hrun as <-. split; reflexivity.
Defined.

(** ** Function bodies *)

Section FunctionProperties.
Context {ops : WasmOpcodes}.

Lemma before_function_ok m ctx i f :
  laid_out m ctx → Forall (λ f, 0 ≤ num_args f) (functions m) →
  buf_size (buf ctx) + 1 < 2 ^ 32 →
  array_get (functions m) i = Some f →
  ∃ ctx1, before_function m i ctx = Some ctx1
    ∧ laid_out m ctx1
    ∧ function_num_exprs_offset ctx1 = buf_size (buf ctx) + 1
    ∧ buf_size (buf ctx1) = buf_size (buf ctx) + 2.
Proof.
  intros Hlaid Hargs Hbound Hf.
  pose proof Hlaid as (Hm & Hplan & Hok & Hend).
  pose proof Hok as [[Hsize0 _] _].
  destruct (function_header_lookup m ctx i f Hlaid Hargs) as (h & Hh & _ & Hlo & Hhi);
    [lia | done |].
  pose proof (proj1 (Forall_forall _ _) Hargs f) as Harg.
  assert (0 ≤ num_args f).
  { apply Harg. unfold array_get in Hf. destruct (i <? 0); [done|].
    by eapply list_elem_of_lookup_2. }
  unfold before_function. rewrite Hf, Hh. cbn [mbind option_bind].
  unfold FUNC_HEADER_CODE_START_OFFSET, FUNC_SIG_SIZE.
  destruct (out_u32_at_ok (buf ctx) (h + (2 + num_args f + 4)) (buf_size (buf ctx)) Hok)
    as (b1 & -> & Hok1 & Hsize1 & _); [lia | lia |].
  cbn [mbind option_bind].
  destruct (out_opcode_ok b1 WASM_OPCODE_BLOCK Hok1) as (b2 & -> & Hok2 & Hsize2 & _).
  cbn [mbind option_bind].
  destruct (out_u8_ok b2 0 Hok2) as (b3 & -> & Hok3 & Hsize3 & _).
  cbn [mbind option_bind].
  eexists. split; [done|]. unfold laid_out. simpl.
  unfold to_uint32. rewrite Z.mod_small by lia.
  split_and!; try done; lia.
Qed.

Lemma after_function_ok m ctx i f n :
  laid_out m ctx → Forall (λ f, 0 ≤ num_args f) (functions m) →
  headers_end m < 2 ^ 32 →
  array_get (functions m) i = Some f →
  headers_end m ≤ function_num_exprs_offset ctx ≤ buf_size (buf ctx) →
  function_num_exprs_offset ctx < 2 ^ 32 →
  ∃ ctx' h, after_function m i n ctx = Some ctx'
    ∧ h = function_header_offset_closed m (Z.to_nat i)
    ∧ laid_out m ctx'
    ∧ buf_size (buf ctx') = buf_size (buf ctx)
    ∧ buf_start (buf ctx') !! function_num_exprs_offset ctx = Some (n mod 256)
    ∧ ∀ j, j ≠ function_num_exprs_offset ctx →
           ¬ (h + FUNC_HEADER_CODE_END_OFFSET (num_args f) ≤ j
              < h + FUNC_HEADER_CODE_END_OFFSET (num_args f) + 4) →
           buf_start (buf ctx') !! j = buf_start (buf ctx) !! j.
Proof.
  intros Hlaid Hargs Hend Hf Hp Hp32.
  pose proof Hlaid as (Hm & Hplan & Hok & Hsize).
  destruct (function_header_lookup m ctx i f Hlaid Hargs Hend Hf)
    as (h & Hh & Hclosed & Hlo & Hhi).
  pose proof (proj1 (Forall_forall _ _) Hargs f) as Harg.
  assert (0 ≤ num_args f).
  { apply Harg. unfold array_get in Hf. destruct (i <? 0); [done|].
    by eapply list_elem_of_lookup_2. }
  unfold after_function. rewrite Hf. cbn [mbind option_bind].
  destruct (out_u8_at_ok (buf ctx) (function_num_exprs_offset ctx) n Hok)
    as (b1 & -> & Hok1 & Hsize1 & Hbyte1 & Hframe1); [lia | lia |].
  cbn [mbind option_bind]. rewrite Hh. cbn [mbind option_bind].
  unfold FUNC_HEADER_CODE_END_OFFSET, FUNC_SIG_SIZE.
  destruct (out_u32_at_ok b1 (h + (2 + num_args f + 8)) (buf_size b1) Hok1)
    as (b2 & -> & Hok2 & Hsize2 & _ & Hframe2); [lia | lia |].
  cbn [mbind option_bind].
  eexists _, h. split; [done|]. split; [done|]. unfold laid_out. simpl.
  split_and!; try done; try lia.
  - rewrite Hframe2 by lia. done.
  - intros j Hj Hout. rewrite Hframe2 by done. by apply Hframe1.
Qed.

End FunctionProperties.

(** C10. The count placeholders are single bytes.  Opening a block, loop or
    labeled region appends the opcode and one placeholder byte, whose offset
    is the cookie; closing it with count [n] stores [n mod 256] in that byte
    and changes no other byte and not the size.  [before_function] appends
    the [BLOCK] opcode and one placeholder byte for the implicit block, and
    [after_function] stores [n mod 256] in it: besides that byte only the
    four bytes of the header's code-end field change.  The callbacks return
    for every [n]; a count of 256 or more is reduced, not rejected, and its
    high bits are written nowhere. *)
Theorem count_placeholder_truncation {ops : WasmOpcodes}
    (r : Region) (rctx : Context) (cookie : Z)
    (m : WasmModule) (ctx : Context) (i : Z) (f : WasmFunction) (n : Z) :
  (buf_ok (buf rctx) →
   ∃ ctx1, region_open r rctx = Some (buf_size (buf rctx) + 1, ctx1)
     ∧ contents (buf ctx1)
       = contents (buf rctx) ++ [Some (to_uint8 (region_opcode r)); Some 0])
  ∧ (buf_ok (buf rctx) → 0 ≤ cookie < 2 ^ 32 → cookie ≤ buf_size (buf rctx) →
     ∃ ctx', region_close r n cookie rctx = Some ctx'
       ∧ buf_start (buf ctx') !! cookie = Some (n mod 256)
       ∧ buf_size (buf ctx') = buf_size (buf rctx)
       ∧ ∀ j, j ≠ cookie → buf_start (buf ctx') !! j = buf_start (buf rctx) !! j)
  ∧ (laid_out m ctx → module_ok m → buf_size (buf ctx) + 1 < 2 ^ 32 →
     array_get (functions m) i = Some f →
     ∃ ctx1 header, before_function m i ctx = Some ctx1
       ∧ array_get (function_header_offsets ctx) i = Some header
       ∧ function_num_exprs_offset ctx1 = buf_size (buf ctx) + 1
       ∧ buf_size (buf ctx1) = buf_size (buf ctx) + 2
       ∧ buf_start (buf ctx1) !! function_num_exprs_offset ctx1 = Some 0
       ∧ ∀ events ctx2,
           forallb expression_event events = true →
           run_events events ctx1 = Some ctx2 →
           ∃ ctx3, after_function m i n ctx2 = Some ctx3
             ∧ buf_start (buf ctx3) !! function_num_exprs_offset ctx1 = Some (n mod 256)
             ∧ buf_size (buf ctx3) = buf_size (buf ctx2)
             ∧ ∀ j, j ≠ function_num_exprs_offset ctx1 →
                    ¬ (header + FUNC_HEADER_CODE_END_OFFSET (num_args f) ≤ j
                       < header + FUNC_HEADER_CODE_END_OFFSET (num_args f) + 4) →
                    buf_start (buf ctx3) !! j = buf_start (buf ctx2) !! j).
Proof.
  split; [|split].
  - intros Hok.
    destruct (region_open_ok r rctx Hok) as (ctx1 & ? & _ & _ & ?). by exists ctx1.
  - intros Hok Hcookie Hle.
    destruct (region_close_ok r n cookie rctx Hok Hcookie Hle)
      as (ctx' & ? & _ & ? & ? & ?).
    by exists ctx'.
  - intros Hlaid Hm Hbound Hf.
    pose proof (module_ok_args m Hm) as Hargs.
    pose proof Hlaid as (_ & _ & Hok & Hend).
    destruct (function_header_lookup m ctx i f Hlaid Hargs) as (h & Hh & Hclosed & _);
      [lia | done |].
    destruct (before_function_ok m ctx i f Hlaid Hargs Hbound Hf)
      as (ctx1 & Hopen & Hlaid1 & Hp & Hsize1).
    exists ctx1, h. split_and!; try done.
    + (* the placeholder is the byte appended last *)
      unfold before_function in Hopen.
      apply bind_Some in Hopen as (f' & _ & Hopen).
      apply bind_Some in Hopen as (h' & _ & Hopen).
      apply bind_Some in Hopen as (b1 & Hb1 & Hopen).
      apply bind_Some in Hopen as (b2 & Hb2 & Hopen).
      apply bind_Some in Hopen as (b3 & Hb3 & Hopen).
      injection Hopen as <-. simpl.
      destruct (OUT_AT_TYPE_keeps _ _ _ _ _ Hok Hb1) as [Hok1 Hs1].
      destruct (out_opcode_ok b1 WASM_OPCODE_BLOCK Hok1) as (b2' & Hb2' & Hok2 & Hs2 & _).
      rewrite Hb2 in Hb2'. injection Hb2' as <-.
      destruct (out_at_end_ok b2 (le_bytes 1 0) Hok2) as (b3' & Hb3' & _ & _ & Hstart).
      unfold out_u8, OUT_TYPE in Hb3. rewrite Hb3 in Hb3'. injection Hb3' as <-.
      pose proof Hok as [[Hsize0 _] _].
      rewrite Hstart. simpl. unfold to_uint32. rewrite Z.mod_small by lia.
      apply lookup_insert_eq.
    + intros events ctx2 Hexpr Hrun.
      pose proof Hlaid1 as (_ & _ & Hok1 & _).
      pose proof (run_events_expression events ctx1 ctx2 Hexpr Hok1 Hrun) as Hframe.
      pose proof (laid_out_frame m ctx1 ctx2 Hlaid1 Hframe) as Hlaid2.
      destruct Hframe as (_ & Hp2 & _ & _ & _ & Hsize2).
      destruct (after_function_ok m ctx2 i f n Hlaid2 Hargs)
        as (ctx3 & h3 & ? & Hclosed3 & _ & ? & Hbyte & Hkeep); [lia | done | lia | lia |].
      exists ctx3. rewrite <- Hp2. rewrite Hclosed, <- Hclosed3.
      split_and!; done.
Qed.

Lemma count_placeholder_truncation_witness :
  ∃ ctx ctx1 ctx2 ctx3 ctx4 ctx5,
    before_module main_module zero_context = Some ctx
    ∧ before_function (ops := example_opcodes) main_module 0 ctx = Some ctx1
    ∧ run_events (ops := example_opcodes) [EvBeforeLoop; EvAfterNop] ctx1 = Some ctx2
    ∧ region_close RegionLoop 257 35 ctx2 = Some ctx3
    ∧ buf_start (buf ctx3) !! 35 = Some 1
    ∧ buf_start (buf ctx3) !! 36 = buf_start (buf ctx2) !! 36
    ∧ run_events (ops := example_opcodes) [EvAfterNop] ctx3 = Some ctx4
    ∧ after_function main_module 0 258 ctx4 = Some ctx5
    ∧ buf_start (buf ctx5) !! 33 = Some 2
    ∧ buf_start (buf ctx5) !! 34 = buf_start (buf ctx4) !! 34.
Proof.
  destruct (before_module main_module zero_context) as [ctx|] eqn:Hctx;
    [|vm_compute in Hctx; discriminate Hctx].
  assert (Hlaid : laid_out main_module ctx).
  { vm_compute in Hctx. injection Hctx as <-. unfold laid_out, buf_ok. simpl.
    split_and!; try reflexivity; vm_compute; discriminate. }
  assert (Hsize : buf_size (buf ctx) = 32).
  { vm_compute in Hctx. injection Hctx as <-. reflexivity. }
  assert (Hmod : module_ok main_module).
  { split; [vm_compute; discriminate|]. repeat constructor; vm_compute; discriminate. }
  destruct (before_function (ops := example_opcodes) main_module 0 ctx)
    as [ctx1|] eqn:Hctx1;
    [|vm_compute in Hctx; injection Hctx as <-; vm_compute in Hctx1; discriminate Hctx1].
  destruct (run_events (ops := example_opcodes) [EvBeforeLoop; EvAfterNop] ctx1)
    as [ctx2|] eqn:Hctx2;
    [|vm_compute in Hctx; injection Hctx as <-; vm_compute in Hctx1;
      injection Hctx1 as <-; vm_compute in Hctx2; discriminate Hctx2].
  assert (Hctx2' : buf_ok (buf ctx2) ∧ buf_size (buf ctx2) = 37).
  { vm_compute in Hctx. injection Hctx as <-. vm_compute in Hctx1. injection Hctx1 as <-.
    vm_compute in Hctx2. injection Hctx2 as <-. unfold buf_ok. simpl. lia. }
  destruct Hctx2' as [Hok2 Hsize2].
  destruct (count_placeholder_truncation (ops := example_opcodes)
              RegionLoop ctx2 35 main_module ctx 0
              (mkWasmFunction 0 WASM_TYPE_VOID [] 1 "main") 257) as (_ & Hregion & _).
  destruct Hregion as (ctx3 & Hclose & Hbyte3 & _ & Hkeep3); [done | lia | lia |].
  destruct (run_events (ops := example_opcodes) [EvAfterNop] ctx3) as [ctx4|] eqn:Hctx4.
  - destruct (count_placeholder_truncation (ops := example_opcodes)
                RegionLoop ctx2 35 main_module ctx 0
                (mkWasmFunction 0 WASM_TYPE_VOID [] 1 "main") 258) as (_ & _ & Hfunction).
    destruct Hfunction as (ctx1' & header & Hopen & Hheader & Hoffset & _ & _ & Hafter);
      [done | done | lia | reflexivity |].
    rewrite Hctx1 in Hopen. injection Hopen as <-.
    assert (Hheader' : header = 8).
    { vm_compute in Hctx. injection Hctx as <-. vm_compute in Hheader.
      injection Hheader as <-. reflexivity. }
    destruct (Hafter ([EvBeforeLoop; EvAfterNop; EvAfterLoop 257 35; EvAfterNop]) ctx4)
      as (ctx5 & Hclose5 & Hbyte5 & _ & Hkeep5); [reflexivity | |].
    { unfold run_events in *. cbn [for_each] in *.
      apply bind_Some in Hctx2 as (c1 & Hc1 & Hctx2).
      apply bind_Some in Hctx2 as (c2 & Hc2 & Hctx2). injection Hctx2 as ->.
      rewrite Hc1. cbn [mbind option_bind]. rewrite Hc2. cbn [mbind option_bind].
      cbn [callback]. cbn [region_close] in Hclose. rewrite Hclose.
      cbn [mbind option_bind]. exact Hctx4. }
    rewrite Hoffset, Hsize in Hbyte5, Hkeep5.
    exists ctx, ctx1, ctx2, ctx3, ctx4, ctx5.
    split; [first [exact Hctx | reflexivity]|]. split; [exact Hctx1|]. split; [exact Hctx2|].
    split; [exact Hclose|]. split; [exact Hbyte3|]. split; [apply Hkeep3; lia|].
    split; [exact Hctx4|]. split; [exact Hclose5|]. split; [exact Hbyte5|].
    apply Hkeep5; [lia|]. rewrite Hheader'.
    unfold FUNC_HEADER_CODE_END_OFFSET, FUNC_SIG_SIZE. cbn [num_args]. lia.
  - exfalso. vm_compute in Hctx. injection Hctx as <-.
    vm_compute in Hctx1. injection Hctx1 as <-.
    vm_compute in Hctx2. injection Hctx2 as <-.
    vm_compute in Hclose. injection Hclose as <-.
    vm_compute in Hctx4. discriminate Hctx4.
Defined.

(** ** The footer writer *)

Lemma bytes_at_ext b b' offset n :
  (∀ j, offset ≤ j < offset + n → buf_start b' !! j = buf_start b !! j) →
  bytes_at b' offset n = bytes_at b offset n.
Proof.
  intros Hext. unfold bytes_at. apply list_eq; intros k. rewrite !list_lookup_fmap.
  destruct (seqZ offset n !! k) as [j|] eqn:Hj; [simpl | done].
  apply lookup_seqZ in Hj. f_equal. apply Hext. lia.
Qed.

Lemma read_u32_bytes b offset value :
  0 ≤ value < 2 ^ 32 →
  bytes_at b offset 4 = Some <$> le_bytes 4 value → read_u32 b offset = Some value.
Proof.
  intros Hv Hbytes. unfold read_u32. rewrite Hbytes.
  rewrite mapM_fmap_Some by done. cbn [fmap option_fmap option_map].
  rewrite le_value_le_bytes. f_equal. apply Z.mod_small.
  change (2 ^ (8 * Z.of_nat 4)) with (2 ^ 32). lia.
Qed.

Lemma patch_append_ok b item :
  buf_ok b → 0 ≤ fst item → fst item + 4 ≤ buf_size b → buf_size b < 2 ^ 32 →
  ∃ b', patch_append b item = Some b' ∧ buf_ok b'
    ∧ buf_size b' = buf_size b + Z.of_nat (length (snd item))
    ∧ bytes_at b' (fst item) 4 = Some <$> le_bytes 4 (buf_size b)
    ∧ bytes_at b' (buf_size b) (Z.of_nat (length (snd item))) = Some <$> snd item
    ∧ ∀ j, j < buf_size b → ¬ (fst item ≤ j < fst item + 4) →
           buf_start b' !! j = buf_start b !! j.
Proof.
  intros Hok Hlo Hhi Hbound. unfold patch_append.
  destruct (out_u32_at_ok b (fst item) (buf_size b) Hok)
    as (b1 & -> & Hok1 & Hsize1 & Hfield1 & Hframe1); [lia | lia |].
  cbn [mbind option_bind].
  destruct (out_at_end_ok b1 (snd item) Hok1) as (b2 & -> & Hok2 & Hsize2 & Hstart2).
  exists b2. split; [done|]. split; [done|]. split; [lia|].
  assert (Hframe2 : ∀ j, j < buf_size b → buf_start b2 !! j = buf_start b1 !! j).
  { intros j Hj. rewrite Hstart2, memcpy_lookup_outside; [done | lia]. }
  split; [|split].
  - rewrite <- Hfield1. apply bytes_at_ext. intros j Hj. apply Hframe2. lia.
  - rewrite <- Hsize1. by eapply bytes_at_memcpy.
  - intros j Hj Hout. rewrite Hframe2 by done. by apply Hframe1.
Qed.

Lemma tail_bytes_cons item items : tail_bytes (item :: items) = snd item ++ tail_bytes items.
Proof. done. Qed.

Lemma tail_bytes_app items1 items2 :
  tail_bytes (items1 ++ items2) = tail_bytes items1 ++ tail_bytes items2.
Proof. unfold tail_bytes. by rewrite fmap_app, concat_app. Qed.

Lemma for_each_patch_append items : ∀ b H,
  buf_ok b → H ≤ buf_size b →
  buf_size b + Z.of_nat (length (tail_bytes items)) < 2 ^ 32 →
  Forall (λ item, 0 ≤ fst item ∧ fst item + 4 ≤ H) items →
  fields_disjoint items →
  ∃ b', for_each patch_append items b = Some b' ∧ buf_ok b'
    ∧ buf_size b' = buf_size b + Z.of_nat (length (tail_bytes items))
    ∧ bytes_at b' (buf_size b) (Z.of_nat (length (tail_bytes items)))
      = Some <$> tail_bytes items
    ∧ (∀ j, j < buf_size b →
            Forall (λ item, ¬ (fst item ≤ j < fst item + 4)) items →
            buf_start b' !! j = buf_start b !! j)
    ∧ (∀ k field payload,
         items !! k = Some (field, payload) →
         bytes_at b' field 4
         = Some <$> le_bytes 4 (buf_size b + Z.of_nat (length (tail_bytes (take k items))))
         ∧ bytes_at b' (buf_size b + Z.of_nat (length (tail_bytes (take k items))))
                    (Z.of_nat (length payload))
           = Some <$> payload).
Proof.
  induction items as [|item items IH]; intros b H Hok HH Hbound Hfields Hdisj.
  - exists b. cbn. split_and!; try done. lia.
  - apply Forall_cons in Hfields as [[Hlo Hhi] Hfields].
    destruct Hdisj as [Hitem Hdisj].
    rewrite tail_bytes_cons, length_app in *.
    destruct (patch_append_ok b item Hok) as (b1 & Hstep & Hok1 & Hsize1 & Hfield1 & Htail1 & Hframe1);
      [lia | lia | lia |].
    destruct (IH b1 H Hok1) as (b' & Hrun & Hok' & Hsize' & Htail' & Hframe' & Hitems');
      [lia | lia | done | done |].
    exists b'. cbn [for_each]. rewrite Hstep. cbn [mbind option_bind].
    split; [done|]. split; [done|]. split; [lia|].
    assert (Hbelow : ∀ j, H ≤ j < buf_size b1 →
              Forall (λ other : TailItem, ¬ (fst other ≤ j < fst other + 4)) items).
    { intros j Hj. eapply Forall_impl; [exact Hfields|]. intros other Hother.
      simpl in Hother. lia. }
    assert (Hmine : ∀ j, fst item ≤ j < fst item + 4 →
              Forall (λ other : TailItem, ¬ (fst other ≤ j < fst other + 4)) items).
    { intros j Hj. eapply Forall_impl; [exact Hitem|]. intros other Hother.
      simpl in Hother. lia. }
    split; [|split].
    + (* the whole tail *)
      rewrite Nat2Z.inj_add, fmap_app. unfold bytes_at in *.
      rewrite seqZ_app, fmap_app by lia. f_equal.
      * rewrite <- Htail1. apply (bytes_at_ext b1 b'). intros j Hj.
        apply Hframe'; [lia|]. apply Hbelow. lia.
      * rewrite <- Htail'. by rewrite Hsize1.
    + intros j Hj Hout. apply Forall_cons in Hout as [Hout1 Hout].
      rewrite Hframe' by (done || lia). by apply Hframe1.
    + intros [|k] field payload Hk.
      * injection Hk as ->. cbn [fst snd take] in *.
        change (tail_bytes []) with (@nil Z). cbn [length]. rewrite Z.add_0_r.
        split.
        -- rewrite <- Hfield1. apply bytes_at_ext. intros j Hj.
           apply Hframe'; [simpl in *; lia|]. apply Hmine. done.
        -- rewrite <- Htail1. apply bytes_at_ext. intros j Hj.
           apply Hframe'; [simpl in *; lia|]. apply Hbelow. simpl in *. lia.
      * destruct (Hitems' k field payload Hk) as [Hf Hp].
        cbn [take]. rewrite tail_bytes_cons, length_app.
        replace (buf_size b + Z.of_nat (length (snd item) + length (tail_bytes (take k items))))
          with (buf_size b1 + Z.of_nat (length (tail_bytes (take k items)))) by lia.
        done.
Qed.

Lemma ensure_output_buffer_capacity_keeps b ensure_capacity b' :
  ensure_output_buffer_capacity b ensure_capacity = Some b' →
  buf_start b' = buf_start b ∧ buf_size b' = buf_size b
  ∧ buf_capacity b ≤ buf_capacity b'.
Proof.
  unfold ensure_output_buffer_capacity.
  destruct (Z.ltb_spec (buf_capacity b) ensure_capacity) as [Hlt|Hge].
  - intros Hrun. apply bind_Some in Hrun as (c & Hc & Hrun). injection Hrun as <-.
    cbn. split_and!; try done.
    assert (Hmono : ∀ fuel nc, double_capacity fuel nc ensure_capacity = Some c →
                               ensure_capacity ≤ c).
    { induction fuel as [|fuel IH]; intros nc; cbn;
        destruct (Z.ltb_spec nc ensure_capacity); try done.
      - intros [= <-]. lia.
      - apply IH.
      - intros [= <-]. lia. }
    specialize (Hmono _ _ Hc). lia.
  - intros [= <-]. split_and!; (done || lia).
Qed.

Lemma out_segment_eq b segment :
  segment_ok segment → out_segment b segment = out_at_end b (seg_data segment).
Proof.
  unfold segment_ok, out_segment, out_at_end, out_data, wasm_copy_segment_data.
  intros <-. rewrite Z.leb_refl. cbn [negb].
  destruct (ensure_output_buffer_capacity b
              (buf_size b + Z.of_nat (length (seg_data segment)))) as [b'|] eqn:Hensure;
    [|done].
  apply ensure_output_buffer_capacity_keeps in Hensure as (_ & Hsize & _).
  cbn [mbind option_bind]. rewrite Nat2Z.id, firstn_all. cbn. by rewrite Hsize.
Qed.

Lemma out_segment_data_step table b i segment header :
  array_get table i = Some header → segment_ok segment →
  out_segment_data table (b, i) segment
  = (λ b', (b', i + 1))
      <$> patch_append b (header + SEGMENT_HEADER_DATA_OFFSET, seg_data segment).
Proof.
  intros Hheader Hseg. unfold out_segment_data, patch_append. cbn [fst snd].
  rewrite Hheader. cbn [mbind option_bind].
  destruct (out_u32_at b (header + SEGMENT_HEADER_DATA_OFFSET) (buf_size b)) as [b1|];
    [|done].
  cbn [mbind option_bind]. rewrite out_segment_eq by done.
  by destruct (out_at_end b1 (seg_data segment)).
Qed.

Lemma segments_loop table : ∀ data b i offset,
  0 ≤ i →
  (∀ k, (k < length data)%nat →
        array_get table (i + Z.of_nat k) = Some (offset + SEGMENT_HEADER_SIZE * Z.of_nat k)) →
  Forall segment_ok data →
  for_each (out_segment_data table) data (b, i)
  = (λ b', (b', i + Z.of_nat (length data)))
      <$> for_each patch_append (segment_items offset data) b.
Proof.
  induction data as [|segment data IH]; intros b i offset Hi Htable Hsegs.
  - cbn. by rewrite Z.add_0_r.
  - apply Forall_cons in Hsegs as [Hseg Hsegs].
    cbn [for_each segment_items length].
    pose proof (Htable 0%nat ltac:(cbn; lia)) as Hhead.
    rewrite Z.add_0_r, Z.mul_0_r, Z.add_0_r in Hhead.
    rewrite (out_segment_data_step table b i segment offset) by done.
    destruct (patch_append b _) as [b1|]; [|done]. cbn [fmap option_fmap option_map mbind option_bind].
    rewrite (IH b1 (i + 1) (offset + SEGMENT_HEADER_SIZE)); [| lia | | done].
    + destruct (for_each patch_append _ b1); [|done]. cbn. do 2 f_equal. lia.
    + intros k Hk. specialize (Htable (S k) ltac:(cbn; lia)).
      replace (i + 1 + Z.of_nat k) with (i + Z.of_nat (S k)) by lia.
      rewrite Htable. f_equal. unfold SEGMENT_HEADER_SIZE. lia.
Qed.

Lemma out_import_name_step b offset import :
  out_import_name (b, offset) import
  = (λ b', (b', to_uint32 (offset + FUNC_HEADER_SIZE (vector_size (import_args import)))))
      <$> patch_append b (offset + FUNC_HEADER_NAME_OFFSET (vector_size (import_args import)),
                          cstr_bytes (import_func_name import) ++ [0]).
Proof.
  unfold out_import_name, patch_append, out_cstr. cbn [fst snd].
  destruct (out_u32_at b _ (buf_size b)) as [b1|]; [|done].
  cbn [mbind option_bind]. by destruct (out_at_end b1 _).
Qed.

Lemma imports_loop : ∀ data b offset,
  0 ≤ offset →
  offset + sum_list_Z ((λ i, 24 + vector_size (import_args i)) <$> data) < 2 ^ 32 →
  for_each out_import_name data (b, offset)
  = (λ b', (b', offset + sum_list_Z ((λ i, 24 + vector_size (import_args i)) <$> data)))
      <$> for_each patch_append (import_items offset data) b.
Proof.
  induction data as [|import data IH]; intros b offset Hlo Hhi.
  - cbn. by rewrite Z.add_0_r.
  - rewrite fmap_cons, sum_list_Z_cons in *.
    assert (0 ≤ vector_size (import_args import)) by (unfold vector_size; lia).
    assert (0 ≤ sum_list_Z ((λ i, 24 + vector_size (import_args i)) <$> data)).
    { apply sum_list_Z_nonneg, Forall_fmap, Forall_forall. intros i _. simpl.
      unfold vector_size. lia. }
    cbn [for_each import_items]. rewrite out_import_name_step.
    destruct (patch_append b _) as [b1|]; [|done].
    cbn [fmap option_fmap option_map mbind option_bind].
    unfold FUNC_HEADER_SIZE, to_uint32. rewrite Z.mod_small by lia.
    rewrite IH by lia.
    destruct (for_each patch_append _ b1); [|done]. cbn. do 2 f_equal. lia.
Qed.

Lemma out_function_name_step b offset function :
  out_function_name (b, offset) function
  = (λ b', (b', to_uint32 (offset + FUNC_HEADER_SIZE (num_args function))))
      <$> (if exported function =? 0 then Some b
           else patch_append b (offset + FUNC_HEADER_NAME_OFFSET (num_args function),
                                cstr_bytes (exported_name function) ++ [0])).
Proof.
  unfold out_function_name, patch_append, out_cstr. cbn [fst snd].
  destruct (exported function =? 0); [done|].
  destruct (out_u32_at b _ (buf_size b)) as [b1|]; [|done].
  cbn [mbind option_bind]. by destruct (out_at_end b1 _).
Qed.

Lemma functions_loop : ∀ data b offset,
  0 ≤ offset →
  Forall (λ f, 0 ≤ num_args f) data →
  offset + sum_list_Z ((λ f, 24 + num_args f) <$> data) < 2 ^ 32 →
  for_each out_function_name data (b, offset)
  = (λ b', (b', offset + sum_list_Z ((λ f, 24 + num_args f) <$> data)))
      <$> for_each patch_append (function_items offset data) b.
Proof.
  induction data as [|function data IH]; intros b offset Hlo Hargs Hhi.
  - cbn. by rewrite Z.add_0_r.
  - apply Forall_cons in Hargs as [Harg Hargs]. cbn beta in Harg.
    rewrite fmap_cons, sum_list_Z_cons in *.
    assert (0 ≤ sum_list_Z ((λ f, 24 + num_args f) <$> data)).
    { apply sum_list_Z_nonneg, Forall_fmap. eapply Forall_impl; [done|].
      intros f Hf. simpl in *. lia. }
    cbn [for_each function_items]. rewrite out_function_name_step.
    unfold FUNC_HEADER_SIZE, to_uint32. rewrite Z.mod_small by lia.
    destruct (exported function =? 0).
    + cbn [fmap option_fmap option_map mbind option_bind]. rewrite IH by (done || lia).
      destruct (for_each patch_append _ b); [|done]. cbn. do 2 f_equal. lia.
    + cbn [for_each].
      destruct (patch_append b _) as [b1|]; [|done].
      cbn [fmap option_fmap option_map mbind option_bind]. rewrite IH by (done || lia).
      destruct (for_each patch_append _ b1); [|done]. cbn. do 2 f_equal. lia.
Qed.

Lemma for_each_app {A S} (body : S → A → option S) data1 data2 s :
  for_each body (data1 ++ data2) s = for_each body data1 s ≫= for_each body data2.
Proof.
  revert s. induction data1 as [|x data1 IH]; intros s; cbn [for_each app]; [done|].
  destruct (body s x) as [s'|]; [|done]. cbn [mbind option_bind]. apply IH.
Qed.

Lemma fields_disjoint_app items1 items2 lo1 hi1 lo2 hi2 :
  fields_disjoint items1 → fields_disjoint items2 →
  Forall (λ item : TailItem, lo1 ≤ fst item ∧ fst item + 4 ≤ hi1) items1 →
  Forall (λ item : TailItem, lo2 ≤ fst item ∧ fst item + 4 ≤ hi2) items2 →
  hi1 ≤ lo2 ∨ hi2 ≤ lo1 →
  fields_disjoint (items1 ++ items2).
Proof.
  intros Hd1 Hd2 Hr1 Hr2 Hsep.
  induction items1 as [|item items1 IH]; [done|].
  destruct Hd1 as [Hitem Hd1]. apply Forall_cons in Hr1 as [Hr Hr1].
  cbn [app fields_disjoint]. split; [|by apply IH].
  apply Forall_app. split; [done|].
  eapply Forall_impl; [exact Hr2|]. intros other Hother. cbn beta in *. lia.
Qed.

Lemma segment_items_fields : ∀ data offset,
  Forall (λ item : TailItem,
            offset ≤ fst item ∧ fst item + 4 ≤ offset + 13 * Z.of_nat (length data))
         (segment_items offset data)
  ∧ fields_disjoint (segment_items offset data).
Proof.
  induction data as [|segment data IH]; intros offset; [done|].
  destruct (IH (offset + SEGMENT_HEADER_SIZE)) as [Hrange Hdisj].
  unfold SEGMENT_HEADER_SIZE in *.
  cbn [segment_items fields_disjoint length]. unfold SEGMENT_HEADER_DATA_OFFSET.
  split; [|split; [|done]].
  - constructor; [cbn; lia|].
    eapply Forall_impl; [exact Hrange|]. intros item Hitem. cbn beta in *. lia.
  - eapply Forall_impl; [exact Hrange|]. intros item Hitem. cbn in *. lia.
Qed.

Lemma import_items_fields : ∀ data offset,
  Forall (λ item : TailItem,
            offset ≤ fst item
            ∧ fst item + 4
              ≤ offset + sum_list_Z ((λ i, 24 + vector_size (import_args i)) <$> data))
         (import_items offset data)
  ∧ fields_disjoint (import_items offset data).
Proof.
  induction data as [|import data IH]; intros offset; [done|].
  destruct (IH (offset + FUNC_HEADER_SIZE (vector_size (import_args import))))
    as [Hrange Hdisj].
  assert (0 ≤ vector_size (import_args import)) by (unfold vector_size; lia).
  assert (0 ≤ sum_list_Z ((λ i, 24 + vector_size (import_args i)) <$> data)).
  { apply sum_list_Z_nonneg, Forall_fmap, Forall_forall. intros i _. simpl.
    unfold vector_size. lia. }
  rewrite fmap_cons, sum_list_Z_cons.
  unfold FUNC_HEADER_SIZE in *.
  cbn [import_items fields_disjoint]. unfold FUNC_HEADER_NAME_OFFSET, FUNC_SIG_SIZE.
  split; [|split; [|done]].
  - constructor; [cbn; lia|].
    eapply Forall_impl; [exact Hrange|]. intros item Hitem. cbn beta in *. lia.
  - eapply Forall_impl; [exact Hrange|]. intros item Hitem. cbn in *. lia.
Qed.

Lemma function_items_fields : ∀ data offset,
  Forall (λ f, 0 ≤ num_args f) data →
  Forall (λ item : TailItem,
            offset ≤ fst item
            ∧ fst item + 4 ≤ offset + sum_list_Z ((λ f, 24 + num_args f) <$> data))
         (function_items offset data)
  ∧ fields_disjoint (function_items offset data).
Proof.
  induction data as [|function data IH]; intros offset Hargs; [done|].
  apply Forall_cons in Hargs as [Harg Hargs]. cbn beta in Harg.
  destruct (IH (offset + FUNC_HEADER_SIZE (num_args function)) Hargs) as [Hrange Hdisj].
  assert (0 ≤ sum_list_Z ((λ f, 24 + num_args f) <$> data)).
  { apply sum_list_Z_nonneg, Forall_fmap. eapply Forall_impl; [done|].
    intros f Hf. simpl in *. lia. }
  rewrite fmap_cons, sum_list_Z_cons.
  unfold FUNC_HEADER_SIZE in *.
  cbn [function_items]. unfold FUNC_HEADER_NAME_OFFSET, FUNC_SIG_SIZE.
  assert (Hrest : Forall (λ item : TailItem,
            offset + 24 + num_args function ≤ fst item
            ∧ fst item + 4
              ≤ offset + (24 + num_args function
                          + sum_list_Z ((λ f, 24 + num_args f) <$> data)))
           (function_items (offset + (24 + num_args function)) data)).
  { eapply Forall_impl; [exact Hrange|]. intros item Hitem. cbn beta in *. lia. }
  destruct (exported function =? 0).
  - split; [|done].
    eapply Forall_impl; [exact Hrest|]. intros item Hitem. cbn beta in *. lia.
  - cbn [fields_disjoint]. split; [|split; [|done]].
    + constructor; [cbn; lia|].
      eapply Forall_impl; [exact Hrest|]. intros item Hitem. cbn beta in *. lia.
    + eapply Forall_impl; [exact Hrest|]. intros item Hitem. cbn in *. lia.
Qed.

Lemma footer_items_fields m :
  Forall (λ f, 0 ≤ num_args f) (functions m) →
  Forall (λ item : TailItem, 0 ≤ fst item ∧ fst item + 4 ≤ headers_end m) (footer_items m)
  ∧ fields_disjoint (footer_items m).
Proof.
  intros Hargs. unfold footer_items.
  destruct (segment_items_fields (segments m)
              (function_header_offset_closed m (length (functions m)))) as [Hr1 Hd1].
  destruct (import_items_fields (imports m) (FUNC_HEADERS_OFFSET (vector_size (globals m))))
    as [Hr2 Hd2].
  destruct (function_items_fields (functions m) (function_header_offset_closed m 0) Hargs)
    as [Hr3 Hd3].
  pose proof (sum_list_Z_nonneg _ (import_header_sizes_nonneg m)) as Himp.
  pose proof (sum_list_Z_nonneg _ (function_header_sizes_nonneg m Hargs)) as Hfun.
  assert (Hclosed0 : function_header_offset_closed m 0
                     = FUNC_HEADERS_OFFSET (vector_size (globals m))
                       + sum_list_Z (import_header_sizes m)).
  { unfold function_header_offset_closed, FUNC_HEADERS_OFFSET, GLOBAL_HEADERS_OFFSET,
      GLOBAL_HEADER_SIZE. rewrite take_0. change (sum_list_Z []) with 0. lia. }
  assert (HclosedF : function_header_offset_closed m (length (functions m))
                     = function_header_offset_closed m 0
                       + sum_list_Z (function_header_sizes m)).
  { unfold function_header_offset_closed. rewrite take_0. change (sum_list_Z []) with 0.
    rewrite take_ge; [lia|]. unfold function_header_sizes. by rewrite length_fmap. }
  assert (Hend : headers_end m
                 = function_header_offset_closed m (length (functions m))
                   + 13 * Z.of_nat (length (segments m))) by done.
  assert (0 ≤ vector_size (globals m)) by (unfold vector_size; lia).
  unfold FUNC_HEADERS_OFFSET, GLOBAL_HEADERS_OFFSET, GLOBAL_HEADER_SIZE in *.
  fold (import_header_sizes m) in Hr2. fold (function_header_sizes m) in Hr3.
  split.
  - rewrite !Forall_app. split_and!.
    + eapply Forall_impl; [exact Hr1|]. intros item Hitem. cbn beta in *. lia.
    + eapply Forall_impl; [exact Hr2|]. intros item Hitem. cbn beta in *. lia.
    + eapply Forall_impl; [exact Hr3|]. intros item Hitem. cbn beta in *. lia.
  - eapply fields_disjoint_app; [exact Hd1 | | exact Hr1 | | ].
    + eapply fields_disjoint_app; [exact Hd2 | exact Hd3 | exact Hr2 | exact Hr3 |].
      left. lia.
    + apply Forall_app. split.
      * eapply Forall_impl; [exact Hr2|]. intros item Hitem. cbn beta in *.
        instantiate (1 := function_header_offset_closed m (length (functions m))).
        instantiate (1 := 0). lia.
      * eapply Forall_impl; [exact Hr3|]. intros item Hitem. cbn beta in *. lia.
    + right. lia.
Qed.

Lemma array_get_nat {A} (data : list A) (k : nat) : array_get data (Z.of_nat k) = data !! k.
Proof.
  unfold array_get. destruct (Z.ltb_spec (Z.of_nat k) 0); [lia|]. by rewrite Nat2Z.id.
Qed.

(** The three loops of [out_module_footer] patch and append the tail items
    of the module, one after the other. *)
Lemma out_module_footer_items m ctx :
  laid_out m ctx → Forall (λ f, 0 ≤ num_args f) (functions m) →
  Forall segment_ok (segments m) → headers_end m < 2 ^ 32 →
  out_module_footer ctx m
  = with_buf ctx <$> for_each patch_append (footer_items m) (buf ctx).
Proof.
  intros (_ & Hplan & _ & _) Hargs Hsegs Hend.
  rewrite plan_header_offsets_closed in Hplan by done. injection Hplan as _ Hst.
  pose proof Hend as Hend'. rewrite headers_end_unfold in Hend'.
  pose proof (sum_list_Z_nonneg _ (import_header_sizes_nonneg m)) as Himp.
  pose proof (sum_list_Z_nonneg _ (function_header_sizes_nonneg m Hargs)) as Hfun.
  assert (0 ≤ vector_size (globals m)) by (unfold vector_size; lia).
  assert (0 ≤ vector_size (segments m)) by (unfold vector_size; lia).
  unfold out_module_footer, footer_items.
  rewrite (segments_loop _ (segments m) (buf ctx) 0
             (function_header_offset_closed m (length (functions m)))); [|lia| |done].
  2:{ intros k Hk. rewrite Z.add_0_l, array_get_nat, Hst, list_lookup_fmap.
      rewrite lookup_seq_lt by done. cbn [fmap option_fmap option_map].
      unfold segment_header_offset_closed, SEGMENT_HEADER_SIZE. f_equal; lia. }
  rewrite !for_each_app.
  destruct (for_each patch_append (segment_items _ (segments m)) (buf ctx)) as [b1|];
    [|done].
  cbn [fmap option_fmap option_map mbind option_bind].
  unfold to_uint32, FUNC_HEADERS_OFFSET, GLOBAL_HEADERS_OFFSET, GLOBAL_HEADER_SIZE.
  rewrite Z.mod_small by lia.
  unfold import_header_sizes, function_header_sizes in *.
  rewrite imports_loop by lia. rewrite for_each_app.
  destruct (for_each patch_append (import_items _ (imports m)) b1) as [b2|]; [|done].
  cbn [fmap option_fmap option_map mbind option_bind].
  rewrite functions_loop by (done || lia).
  replace (function_header_offset_closed m 0)
    with (8 + vector_size (globals m) * 6
          + sum_list_Z ((λ i, 24 + vector_size (import_args i)) <$> imports m)).
  2:{ unfold function_header_offset_closed, import_header_sizes. rewrite take_0.
      change (sum_list_Z []) with 0. lia. }
  by destruct (for_each patch_append (function_items _ (functions m)) b2).
Qed.

Lemma after_module_ok m ctx :
  laid_out m ctx → Forall (λ f, 0 ≤ num_args f) (functions m) →
  Forall segment_ok (segments m) →
  buf_size (buf ctx) + Z.of_nat (length (tail_bytes (footer_items m))) < 2 ^ 32 →
  ∃ b', after_module m ctx = Some (with_buf ctx b') ∧ buf_ok b'
    ∧ buf_size b' = buf_size (buf ctx) + Z.of_nat (length (tail_bytes (footer_items m)))
    ∧ bytes_at b' (buf_size (buf ctx)) (Z.of_nat (length (tail_bytes (footer_items m))))
      = Some <$> tail_bytes (footer_items m)
    ∧ (∀ j, j < buf_size (buf ctx) →
            Forall (λ item : TailItem, ¬ (fst item ≤ j < fst item + 4)) (footer_items m) →
            buf_start b' !! j = buf_start (buf ctx) !! j)
    ∧ (∀ k field payload,
         footer_items m !! k = Some (field, payload) →
         bytes_at b' field 4
         = Some <$> le_bytes 4 (buf_size (buf ctx)
                                + Z.of_nat (length (tail_bytes (take k (footer_items m)))))
         ∧ bytes_at b' (buf_size (buf ctx)
                        + Z.of_nat (length (tail_bytes (take k (footer_items m)))))
                    (Z.of_nat (length payload))
           = Some <$> payload).
Proof.
  intros Hlaid Hargs Hsegs Hbound.
  pose proof Hlaid as (_ & _ & Hok & Hend).
  destruct (footer_items_fields m Hargs) as [Hfields Hdisj].
  destruct (for_each_patch_append (footer_items m) (buf ctx) (headers_end m))
    as (b' & Hrun & Hrest); [done | done | done | done | done |].
  exists b'. split; [|done].
  unfold after_module. rewrite out_module_footer_items by (done || lia).
  by rewrite Hrun.
Qed.

Lemma length_segment_items data : ∀ offset, length (segment_items offset data) = length data.
Proof. induction data as [|s data IH]; intros offset; cbn; [done | by rewrite IH]. Qed.

Lemma segment_items_lookup : ∀ data offset s segment,
  data !! s = Some segment →
  segment_items offset data !! s
  = Some (offset + SEGMENT_HEADER_SIZE * Z.of_nat s + SEGMENT_HEADER_DATA_OFFSET,
          seg_data segment).
Proof.
  induction data as [|x data IH]; intros offset [|s] segment Hs; try done.
  - injection Hs as ->. cbn. do 2 f_equal. lia.
  - cbn [segment_items lookup list_lookup]. rewrite (IH _ s segment) by done.
    do 2 f_equal. unfold SEGMENT_HEADER_SIZE. lia.
Qed.

Lemma tail_bytes_take_segment_items : ∀ data offset s,
  Forall segment_ok data →
  Z.of_nat (length (tail_bytes (take s (segment_items offset data))))
  = sum_list_Z (seg_size <$> take s data).
Proof.
  induction data as [|x data IH]; intros offset [|s] Hsegs; try done.
  apply Forall_cons in Hsegs as [Hseg Hsegs].
  cbn [segment_items take fmap list_fmap].
  rewrite tail_bytes_cons, length_app, Nat2Z.inj_add, sum_list_Z_cons, IH by done.
  cbn [snd]. unfold segment_ok in Hseg. lia.
Qed.

(** X1. At module close, on a context laid out for the module and while
    offsets fit 32 bits, the footer writer returns, appends the tail (segment
    data, then import names, then the names of the exported functions, in
    declaration order) and leaves in every tail item's header field the
    offset at which that item's bytes start.  Below the old end of the buffer
    it changes nothing but those fields. *)
Theorem footer_fields_point_into_tail (m : WasmModule) (ctx : Context) :
  laid_out m ctx → Forall (λ f, 0 ≤ num_args f) (functions m) →
  Forall segment_ok (segments m) →
  buf_size (buf ctx) + Z.of_nat (length (tail_bytes (footer_items m))) < 2 ^ 32 →
  ∃ ctx', after_module m ctx = Some ctx'
    ∧ buf_size (buf ctx')
      = buf_size (buf ctx) + Z.of_nat (length (tail_bytes (footer_items m)))
    ∧ bytes_at (buf ctx') (buf_size (buf ctx))
               (Z.of_nat (length (tail_bytes (footer_items m))))
      = Some <$> tail_bytes (footer_items m)
    ∧ (∀ k field payload,
         footer_items m !! k = Some (field, payload) →
         read_u32 (buf ctx') field
         = Some (buf_size (buf ctx)
                 + Z.of_nat (length (tail_bytes (take k (footer_items m)))))
         ∧ bytes_at (buf ctx')
                    (buf_size (buf ctx)
                     + Z.of_nat (length (tail_bytes (take k (footer_items m)))))
                    (Z.of_nat (length payload))
           = Some <$> payload)
    ∧ (∀ j, j < buf_size (buf ctx) →
            Forall (λ item : TailItem, ¬ (fst item ≤ j < fst item + 4)) (footer_items m) →
            buf_start (buf ctx') !! j = buf_start (buf ctx) !! j).
Proof.
  intros Hlaid Hargs Hsegs Hbound.
  destruct (after_module_ok m ctx Hlaid Hargs Hsegs Hbound)
    as (b' & Hrun & _ & Hsize & Htail & Hframe & Hitems).
  pose proof Hlaid as (_ & _ & [[Hsize0 _] _] & _).
  exists (with_buf ctx b'). cbn [buf with_buf].
  split; [done|]. split; [done|]. split; [done|]. split; [|done].
  intros k field payload Hk. destruct (Hitems k field payload Hk) as [Hfield Hpayload].
  split; [|done]. apply read_u32_bytes; [|done].
  split; [lia|].
  rewrite <- (take_drop k (footer_items m)), tail_bytes_app, length_app in Hbound. lia.
Qed.

Lemma footer_fields_point_into_tail_witness :
  let m := {| max_memory_size := 65536;
              globals := [mkWasmVariable WASM_TYPE_I32];
              imports := [mkWasmImport [mkWasmVariable WASM_TYPE_F64] WASM_TYPE_VOID "print"];
              functions := [mkWasmFunction 1 WASM_TYPE_I32
                              [mkWasmVariable WASM_TYPE_I32; mkWasmVariable WASM_TYPE_F32]
                              0 "";
                            mkWasmFunction 0 WASM_TYPE_VOID [] 1 "main"];
              segments := [mkWasmSegment 0 [1; 2; 3; 4] 4; mkWasmSegment 16 [5] 1] |} in
  ∃ ctx ctx', before_module m zero_context = Some ctx
    ∧ after_module m ctx = Some ctx'
    ∧ buf_size (buf ctx') = buf_size (buf ctx) + 16.
Proof.
  intros m.
  assert (Hmod : module_ok m).
  { split; [vm_compute; discriminate|]. repeat constructor; vm_compute; discriminate. }
  destruct (before_module_ok m zero_context Hmod) as (ctx & Hctx & Hlaid & Hsize & _).
  destruct (footer_fields_point_into_tail m ctx) as (ctx' & Hrun & Hsize' & _).
  - exact Hlaid.
  - repeat constructor; vm_compute; discriminate.
  - repeat constructor.
  - rewrite Hsize. vm_compute. reflexivity.
  - exists ctx, ctx'. split; [exact Hctx|]. split; [exact Hrun|]. exact Hsize'.
Defined.

(** X2. After the footer, the data-offset field of every segment header
    holds the offset at which that segment's initializer bytes start; the
    segments follow one another from the old end of the buffer in declaration
    order, each taking [size] bytes. *)
Theorem segment_data_offsets (m : WasmModule) (ctx : Context)
    (s : nat) (segment : WasmSegment) :
  laid_out m ctx → Forall (λ f, 0 ≤ num_args f) (functions m) →
  Forall segment_ok (segments m) →
  buf_size (buf ctx) + Z.of_nat (length (tail_bytes (footer_items m))) < 2 ^ 32 →
  segments m !! s = Some segment →
  ∃ ctx' header,
    after_module m ctx = Some ctx'
    ∧ segment_header_offsets ctx !! s = Some header
    ∧ read_u32 (buf ctx') (header + SEGMENT_HEADER_DATA_OFFSET)
      = Some (buf_size (buf ctx) + sum_list_Z (seg_size <$> take s (segments m)))
    ∧ bytes_at (buf ctx')
               (buf_size (buf ctx) + sum_list_Z (seg_size <$> take s (segments m)))
               (seg_size segment)
      = Some <$> seg_data segment.
Proof.
  intros Hlaid Hargs Hsegs Hbound Hs.
  destruct (after_module_ok m ctx Hlaid Hargs Hsegs Hbound)
    as (b' & Hrun & _ & Hsize & Htail & Hframe & Hitems).
  pose proof Hlaid as (_ & Hplan & [[Hsize0 _] _] & Hend).
  rewrite plan_header_offsets_closed in Hplan by (done || lia). injection Hplan as _ Hst.
  pose proof (lookup_lt_Some _ _ _ Hs) as Hlt.
  set (base := function_header_offset_closed m (length (functions m))).
  assert (Hitem : footer_items m !! s
                  = Some (base + SEGMENT_HEADER_SIZE * Z.of_nat s + SEGMENT_HEADER_DATA_OFFSET,
                          seg_data segment)).
  { unfold footer_items. rewrite lookup_app_l by (by rewrite length_segment_items).
    by apply segment_items_lookup. }
  assert (Htake : Z.of_nat (length (tail_bytes (take s (footer_items m))))
                  = sum_list_Z (seg_size <$> take s (segments m))).
  { unfold footer_items. rewrite take_app_le by (rewrite length_segment_items; lia).
    by apply tail_bytes_take_segment_items. }
  destruct (Hitems s _ _ Hitem) as [Hfield Hpayload]. rewrite Htake in *.
  exists (with_buf ctx b'), (base + SEGMENT_HEADER_SIZE * Z.of_nat s). cbn [buf with_buf].
  split; [done|]. split; [|split].
  - rewrite Hst, list_lookup_fmap, lookup_seq_lt by done.
    cbn [fmap option_fmap option_map].
    unfold segment_header_offset_closed, SEGMENT_HEADER_SIZE. fold base. f_equal; lia.
  - apply read_u32_bytes; [|done]. split.
    + assert (0 ≤ Z.of_nat (length (tail_bytes (take s (footer_items m))))) by lia. lia.
    + rewrite <- Htake.
      rewrite <- (take_drop s (footer_items m)), tail_bytes_app, length_app in Hbound. lia.
  - rewrite Forall_forall in Hsegs.
    rewrite <- (Hsegs segment) by (by eapply list_elem_of_lookup_2). done.
Qed.

Lemma segment_data_offsets_witness :
  let m := {| max_memory_size := 0; globals := []; imports := [];
              functions := [mkWasmFunction 0 WASM_TYPE_VOID [] 0 ""];
              segments := [mkWasmSegment 0 [1; 2; 3; 4] 4; mkWasmSegment 16 [5] 1] |} in
  ∃ ctx ctx' header,
    before_module m zero_context = Some ctx
    ∧ after_module m ctx = Some ctx'
    ∧ segment_header_offsets ctx !! 1%nat = Some header
    ∧ read_u32 (buf ctx') (header + SEGMENT_HEADER_DATA_OFFSET)
      = Some (buf_size (buf ctx) + 4)
    ∧ bytes_at (buf ctx') (buf_size (buf ctx) + 4) 1 = [Some 5].
Proof.
  intros m.
  assert (Hmod : module_ok m).
  { split; [vm_compute; discriminate|]. repeat constructor; vm_compute; discriminate. }
  destruct (before_module_ok m zero_context Hmod) as (ctx & Hctx & Hlaid & Hsize & _).
  destruct (segment_data_offsets m ctx 1 (mkWasmSegment 16 [5] 1))
    as (ctx' & header & Hrun & Hheader & Hfield & Hdata).
  - exact Hlaid.
  - repeat constructor; vm_compute; discriminate.
  - repeat constructor.
  - rewrite Hsize. vm_compute. reflexivity.
  - reflexivity.
  - exists ctx, ctx', header.
    split; [exact Hctx|]. split; [exact Hrun|]. split; [exact Hheader|].
    split; [exact Hfield | exact Hdata].
Defined.

(** ** Capacity growth *)

Lemma double_capacity_power fuel : ∀ new_capacity ensure_capacity,
  0 < new_capacity →
  ensure_capacity ≤ new_capacity + Z.of_nat fuel →
  ∃ k : nat, double_capacity fuel new_capacity ensure_capacity
             = Some (new_capacity * 2 ^ Z.of_nat k)
    ∧ ensure_capacity ≤ new_capacity * 2 ^ Z.of_nat k
    ∧ (k = 0%nat ∨ new_capacity * 2 ^ Z.of_nat k < 2 * ensure_capacity).
Proof.
  induction fuel as [|fuel IH]; intros nc e Hpos Hfuel; cbn [double_capacity];
    destruct (Z.ltb_spec nc e) as [Hlt|Hge].
  - lia.
  - exists 0%nat. rewrite Z.mul_1_r. split_and!; [done | lia | by left].
  - destruct (IH (nc * 2) e) as (k & Hrun & Hle & Hmin); [lia | lia |].
    exists (S k). rewrite Nat2Z.inj_succ, Z.pow_succ_r by lia.
    replace (nc * (2 * 2 ^ Z.of_nat k)) with (nc * 2 * 2 ^ Z.of_nat k) by lia.
    split_and!; [done | done |]. right.
    destruct Hmin as [-> | Hmin]; [|done]. rewrite Z.mul_1_r. lia.
  - exists 0%nat. rewrite Z.mul_1_r. split_and!; [done | lia | by left].
Qed.

Lemma double_capacity_zero fuel ensure_capacity :
  0 < ensure_capacity → double_capacity fuel 0 ensure_capacity = None.
Proof.
  intros He. induction fuel as [|fuel IH]; cbn [double_capacity];
    destruct (Z.ltb_spec 0 ensure_capacity); done || lia.
Qed.

(** X3. On a buffer with a positive capacity and for a request of at most
    2^63 bytes, [ensure_output_buffer_capacity] returns, keeps the memory and
    the size, and leaves the capacity at [capacity * 2^k]: unchanged
    ([k = 0]) when it already suffices, otherwise doubled at least once,
    large enough and below twice the request, hence below 2^64, so that no
    product of the loop leaves the range of [size_t]. *)
Theorem capacity_grows_by_doubling (b : OutputBuffer) (ensure_capacity : Z) :
  0 < buf_capacity b → ensure_capacity ≤ 2 ^ 63 →
  ∃ k : nat,
    ensure_output_buffer_capacity b ensure_capacity
    = Some {| buf_start := buf_start b; buf_size := buf_size b;
              buf_capacity := buf_capacity b * 2 ^ Z.of_nat k |}
    ∧ ensure_capacity ≤ buf_capacity b * 2 ^ Z.of_nat k
    ∧ (ensure_capacity ≤ buf_capacity b → k = 0%nat)
    ∧ (buf_capacity b < ensure_capacity →
       (1 ≤ k)%nat
       ∧ buf_capacity b * 2 ^ Z.of_nat k < 2 * ensure_capacity
       ∧ buf_capacity b * 2 ^ Z.of_nat k < 2 ^ 64).
Proof.
  intros Hpos Hbound. unfold ensure_output_buffer_capacity.
  destruct (Z.ltb_spec (buf_capacity b) ensure_capacity) as [Hlt|Hge].
  - destruct (double_capacity_power (Z.to_nat ensure_capacity) (buf_capacity b * 2)
                ensure_capacity) as (k & -> & Hle & Hmin); [lia | lia |].
    exists (S k). rewrite Nat2Z.inj_succ, Z.pow_succ_r by lia.
    replace (buf_capacity b * (2 * 2 ^ Z.of_nat k))
      with (buf_capacity b * 2 * 2 ^ Z.of_nat k) by lia.
    cbn [mbind option_bind]. split_and!; [done | done | lia |].
    intros _.
    assert (Hless : buf_capacity b * 2 * 2 ^ Z.of_nat k < 2 * ensure_capacity).
    { destruct Hmin as [-> | Hmin]; [|done]. rewrite Z.mul_1_r. lia. }
    change (2 ^ 64) with (2 * 2 ^ 63). split_and!; lia.
  - exists 0%nat. rewrite Z.mul_1_r. destruct b; cbn in *.
    split_and!; [done | lia | done | lia].
Qed.

Lemma capacity_grows_by_doubling_witness :
  ∃ k : nat,
    ensure_output_buffer_capacity
      {| buf_start := ∅; buf_size := 10; buf_capacity := 16 |} 100
    = Some {| buf_start := ∅; buf_size := 10; buf_capacity := 16 * 2 ^ Z.of_nat k |}
    ∧ 100 ≤ 16 * 2 ^ Z.of_nat k
    ∧ (100 ≤ 16 → k = 0%nat)
    ∧ (16 < 100 → (1 ≤ k)%nat ∧ 16 * 2 ^ Z.of_nat k < 2 * 100
                  ∧ 16 * 2 ^ Z.of_nat k < 2 ^ 64).
Proof.
  apply (capacity_grows_by_doubling
           {| buf_start := ∅; buf_size := 10; buf_capacity := 16 |} 100).
  - cbn. lia.
  - lia.
Defined.

(** X4. A buffer that was never initialised has capacity 0, and doubling 0
    never reaches a positive request: the capacity loop returns for no amount
    of fuel, and no non-empty write to such a buffer returns. *)
Theorem zero_capacity_never_grows (b : OutputBuffer) (src : list Z)
    (fuel : nat) (ensure_capacity : Z) :
  buf_capacity b = 0 → 0 ≤ buf_size b → src ≠ [] → 0 < ensure_capacity →
  double_capacity fuel (buf_capacity b * 2) ensure_capacity = None
  ∧ ensure_output_buffer_capacity b ensure_capacity = None
  ∧ out_data b (buf_size b) src = None
  ∧ out_at_end b src = None.
Proof.
  intros Hcap Hsize Hsrc He.
  assert (Hensure : ∀ e, 0 < e → ensure_output_buffer_capacity b e = None).
  { intros e Hpos. unfold ensure_output_buffer_capacity. rewrite Hcap.
    destruct (Z.ltb_spec 0 e); [|lia]. cbn [Z.mul]. by rewrite double_capacity_zero. }
  assert (Hdata : out_data b (buf_size b) src = None).
  { unfold out_data. rewrite Z.leb_refl. cbn [negb].
    rewrite Hensure; [done|]. destruct src; [done|]. cbn [length]. lia. }
  rewrite Hcap. cbn [Z.mul]. split_and!.
  - by apply double_capacity_zero.
  - by apply Hensure.
  - done.
  - unfold out_at_end. by rewrite Hdata.
Qed.

Lemma zero_capacity_never_grows_witness :
  out_at_end (buf zero_context) [7] = None.
Proof.
  apply (zero_capacity_never_grows (buf zero_context) [7] 0 1);
    [reflexivity | cbn; lia | discriminate | lia].
Defined.

(** ** log_two_u32 *)

(** X5. For a 32-bit [x >= 2], [log_two_u32] is the exponent of the least
    power of two that is not below [x] (so at most 32); it is 0 at 0, and at
    1 it calls [__builtin_clz(0)], which is undefined. *)
Theorem log_two_u32_rounds_up (x : Z) :
  2 ≤ x < 2 ^ 32 →
  ∃ r, log_two_u32 x = Some r
    ∧ 1 ≤ r ≤ 32
    ∧ 2 ^ (r - 1) < x ≤ 2 ^ r
    ∧ log_two_u32 0 = Some 0
    ∧ log_two_u32 1 = None.
Proof.
  intros Hx. unfold log_two_u32 at 1. unfold to_uint32. rewrite Z.mod_small by lia.
  destruct (Z.eqb_spec x 0); [lia|]. destruct (Z.eqb_spec (x - 1) 0); [lia|].
  exists (Z.log2 (x - 1) + 1). split; [done|].
  pose proof (Z.log2_up_spec x ltac:(lia)) as Hspec.
  assert (Hup : Z.log2_up x = Z.log2 (x - 1) + 1).
  { unfold Z.log2_up. destruct (Z.compare_spec 1 x); [lia | | lia].
    by rewrite <- Z.sub_1_r, <- Z.add_1_r. }
  rewrite Hup in Hspec. replace (Z.pred (Z.log2 (x - 1) + 1)) with (Z.log2 (x - 1)) in Hspec by lia.
  replace (Z.log2 (x - 1) + 1 - 1) with (Z.log2 (x - 1)) by lia.
  pose proof (Z.log2_nonneg (x - 1)).
  assert (Z.log2 (x - 1) < 32) by (apply Z.log2_lt_pow2; lia).
  split_and!; try done; lia.
Qed.

Lemma log_two_u32_rounds_up_witness :
  ∃ r, log_two_u32 65537 = Some r
    ∧ 1 ≤ r ≤ 32
    ∧ 2 ^ (r - 1) < 65537 ≤ 2 ^ r
    ∧ log_two_u32 0 = Some 0
    ∧ log_two_u32 1 = None.
Proof. apply (log_two_u32_rounds_up 65537). lia. Defined.

(** ** Fixed-width writers *)

(** X6. Each fixed-width writer ([out_u8], [out_u16], [out_u32], [out_u64],
    [out_f32], [out_f64] are [OUT_TYPE] at widths 1, 2, 4, 8, 4, 8) returns on
    a buffer in use and appends exactly [width] bytes, each below 256, that
    read back little-endian as the value reduced modulo [2^(8*width)]. *)
Theorem OUT_TYPE_little_endian (width : nat) (b : OutputBuffer) (value : Z) :
  buf_ok b →
  ∃ b' bytes, OUT_TYPE width b value = Some b'
    ∧ contents b' = contents b ++ (Some <$> bytes)
    ∧ buf_size b' = buf_size b + Z.of_nat width
    ∧ length bytes = width
    ∧ Forall (λ x, 0 ≤ x < 256) bytes
    ∧ le_value bytes = value mod 2 ^ (8 * Z.of_nat width).
Proof.
  intros Hok.
  destruct (OUT_TYPE_ok width b value Hok) as (b' & Hrun & _ & Hsize & Hcont & _).
  exists b', (le_bytes width value).
  split_and!; try done.
  - apply length_le_bytes.
  - apply le_bytes_range.
  - apply le_value_le_bytes.
Qed.

Lemma OUT_TYPE_little_endian_witness :
  ∃ b' bytes,
    out_u16 {| buf_start := ∅; buf_size := 0; buf_capacity := 4 |} (-2) = Some b'
    ∧ contents b' = Some <$> bytes
    ∧ le_value bytes = 65534.
Proof.
  destruct (OUT_TYPE_little_endian 2
              {| buf_start := ∅; buf_size := 0; buf_capacity := 4 |} (-2))
    as (b' & bytes & Hrun & Hcont & _ & _ & _ & Hvalue).
  - unfold buf_ok. cbn. lia.
  - exists b', bytes. split; [exact Hrun|]. split; [exact Hcont | exact Hvalue].
Defined.

(** ** Strings *)

Lemma cstr_bytes_nonzero s : Forall (λ c, 0 < c < 256) (cstr_bytes s).
Proof.
  induction s as [|c s IH]; cbn [cstr_bytes]; [done|].
  destruct (N.eqb_spec (N_of_ascii c) 0) as [|Hne]; [done|].
  constructor; [|done]. pose proof (N_ascii_bounded c). lia.
Qed.

Lemma read_cstr_terminated bytes rest :
  Forall (λ c, 0 < c < 256) bytes → read_cstr (bytes ++ 0 :: rest) = bytes.
Proof.
  induction 1 as [|c bytes Hc _ IH]; cbn [read_cstr app]; [done|].
  destruct (Z.eqb_spec c 0); [lia|]. by rewrite IH.
Qed.

(** X7. [out_cstr] returns on a buffer in use and appends the characters of
    the string up to its first NUL, then one zero byte ([strlen + 1] bytes).
    None of the characters written is zero, so whatever follows in the
    buffer, reading from the start of the name to the first zero gives the
    name back.  A string without a NUL character is written whole. *)
Theorem out_cstr_round_trip (b : OutputBuffer) (s : string) :
  buf_ok b →
  ∃ b', out_cstr b s = Some b'
    ∧ contents b' = contents b ++ (Some <$> cstr_bytes s ++ [0])
    ∧ buf_size b' = buf_size b + strlen s + 1
    ∧ (∀ rest, read_cstr ((cstr_bytes s ++ [0]) ++ rest) = cstr_bytes s)
    ∧ (Forall (λ c, c ≠ 0) (string_bytes s) → cstr_bytes s = string_bytes s).
Proof.
  intros Hok. unfold out_cstr.
  destruct (out_at_end_contents b (cstr_bytes s ++ [0]) Hok)
    as (b' & Hrun & _ & Hsize & Hcont & _).
  exists b'. split_and!; try done.
  - rewrite Hsize, length_app. unfold strlen. cbn [length]. lia.
  - intros rest. rewrite <- app_assoc. apply read_cstr_terminated, cstr_bytes_nonzero.
  - clear. induction s as [|c s IH]; cbn [cstr_bytes string_bytes]; [done|].
    intros Hnz. apply Forall_cons in Hnz as [Hc Hnz].
    destruct (N.eqb_spec (N_of_ascii c) 0) as [Hz|Hne]; [rewrite Hz in Hc; done|].
    by rewrite IH.
Qed.

Lemma out_cstr_round_trip_witness :
  ∃ b', out_cstr {| buf_start := ∅; buf_size := 0; buf_capacity := 1 |} "main" = Some b'
    ∧ contents b' = Some <$> [109; 97; 105; 110; 0]
    ∧ buf_size b' = 5.
Proof.
  destruct (out_cstr_round_trip {| buf_start := ∅; buf_size := 0; buf_capacity := 1 |} "main")
    as (b' & Hrun & Hcont & Hsize & _).
  - unfold buf_ok. cbn. lia.
  - exists b'. split; [exact Hrun|]. split; [exact Hcont | exact Hsize].
Defined.

(** ** Leaf events *)

Lemma leb128_data_any value :
  ∃ data, leb128_data value = Some data
    ∧ leb128_decode data = to_uint32 value
    ∧ (length data ≤ 5)%nat.
Proof.
  assert (Hrange : 0 ≤ to_uint32 value < 2 ^ 32) by (apply Z.mod_pos_bound; lia).
  destruct (leb128_data_ok (to_uint32 value) Hrange) as (data & Hdata & Hdec & _ & Hlen & _).
  exists data. split_and!; [|done|lia].
  assert (Hidem : to_uint32 (to_uint32 value) = to_uint32 value)
    by (unfold to_uint32; apply Z.mod_mod; lia).
  unfold leb128_data in *. by rewrite Hidem in Hdata.
Qed.

Section LeafEvents.
Context {ops : WasmOpcodes}.

(** X8. The literal callback writes the opcode it is given and the literal's
    bytes, little-endian: eight for a 64-bit integer or float, four for a
    32-bit float.  For the type void it fails its assertion. *)
Theorem after_const_wide_literals (opcode : Z) (value : WasmNumber) (ctx : Context) :
  buf_ok (buf ctx) →
  (∃ ctx', after_const opcode WASM_TYPE_I64 value ctx = Some ctx'
     ∧ contents (buf ctx')
       = contents (buf ctx) ++ (Some <$> to_uint8 opcode :: le_bytes 8 (number_i64 value))
     ∧ le_value (le_bytes 8 (number_i64 value)) = number_bits value mod 2 ^ 64)
  ∧ (∃ ctx', after_const opcode WASM_TYPE_F32 value ctx = Some ctx'
     ∧ contents (buf ctx')
       = contents (buf ctx) ++ (Some <$> to_uint8 opcode :: le_bytes 4 (number_f32 value))
     ∧ le_value (le_bytes 4 (number_f32 value)) = number_bits value mod 2 ^ 32)
  ∧ (∃ ctx', after_const opcode WASM_TYPE_F64 value ctx = Some ctx'
     ∧ contents (buf ctx')
       = contents (buf ctx) ++ (Some <$> to_uint8 opcode :: le_bytes 8 (number_f64 value))
     ∧ le_value (le_bytes 8 (number_f64 value)) = number_bits value mod 2 ^ 64)
  ∧ after_const opcode WASM_TYPE_VOID value ctx = None.
Proof.
  intros Hok.
  destruct (out_opcode_ok (buf ctx) opcode Hok) as (b1 & Hop & Hok1 & _ & Hc1 & _).
  destruct (OUT_TYPE_ok 8 b1 (number_i64 value) Hok1) as (b2 & Hi64 & _ & _ & Hc2 & _).
  destruct (OUT_TYPE_ok 4 b1 (number_f32 value) Hok1) as (b3 & Hf32 & _ & _ & Hc3 & _).
  unfold after_const, out_u64, out_f32, out_f64 in *.
  change (number_f64 value) with (number_i64 value).
  rewrite Hop. cbn [mbind option_bind]. rewrite Hi64, Hf32. cbn [mbind option_bind].
  split_and!; [| | |done].
  - eexists. split; [done|]. cbn [buf with_buf]. rewrite Hc2, Hc1, <- app_assoc.
    split; [done|]. rewrite le_value_le_bytes. unfold number_i64, to_uint64.
    change (2 ^ (8 * Z.of_nat 8)) with (2 ^ 64). apply Z.mod_mod. lia.
  - eexists. split; [done|]. cbn [buf with_buf]. rewrite Hc3, Hc1, <- app_assoc.
    split; [done|]. rewrite le_value_le_bytes. unfold number_f32, to_uint32.
    change (2 ^ (8 * Z.of_nat 4)) with (2 ^ 32). apply Z.mod_mod. lia.
  - eexists. split; [done|]. cbn [buf with_buf]. rewrite Hc2, Hc1, <- app_assoc.
    split; [done|]. rewrite le_value_le_bytes. unfold number_i64, to_uint64.
    change (2 ^ (8 * Z.of_nat 8)) with (2 ^ 64). apply Z.mod_mod. lia.
Qed.

(** X9. [after_break] writes the [BREAK] opcode and the depth as one byte,
    not as a varint: two bytes whatever the depth, and depths that differ by
    256 give the same output. *)
Theorem after_break_depth_is_one_byte (depth : Z) (ctx : Context) :
  buf_ok (buf ctx) →
  ∃ ctx', after_break depth ctx = Some ctx'
    ∧ contents (buf ctx')
      = contents (buf ctx) ++ [Some (to_uint8 WASM_OPCODE_BREAK); Some (depth mod 256)]
    ∧ buf_size (buf ctx') = buf_size (buf ctx) + 2
    ∧ after_break (depth + 256) ctx = Some ctx'.
Proof.
  intros Hok. unfold after_break.
  destruct (out_opcode_ok (buf ctx) WASM_OPCODE_BREAK Hok)
    as (b1 & -> & Hok1 & Hsize1 & Hc1 & _).
  cbn [mbind option_bind].
  destruct (out_u8_ok b1 depth Hok1) as (b2 & Hrun & _ & Hsize2 & Hc2 & _).
  assert (Hsame : out_u8 b1 (depth + 256) = out_u8 b1 depth).
  { assert (Hmod : (depth + 256) mod 256 = depth mod 256).
    { change (depth + 256) with (depth + 1 * 256). apply Z.mod_add. lia. }
    unfold out_u8, OUT_TYPE. cbn [le_bytes]. by rewrite Hmod. }
  rewrite Hsame, Hrun. cbn [mbind option_bind].
  eexists. split; [done|]. cbn [buf with_buf].
  rewrite Hc2, Hc1, <- app_assoc. split_and!; [done | lia | done].
Qed.

(** X10. The local and global access callbacks take a C [int] index and
    pass it to [out_leb128] as [uint32_t].  For every index they return, and
    write their opcode followed by at most five bytes that decode to the
    index reduced modulo 2^32 (so a negative index wraps around). *)
Theorem variable_access_operand (index : Z) (ctx : Context) :
  buf_ok (buf ctx) →
  ∃ data, leb128_data index = Some data
    ∧ leb128_decode data = index mod 2 ^ 32
    ∧ (length data ≤ 5)%nat
    ∧ (∃ ctx', after_get_local index ctx = Some ctx'
         ∧ contents (buf ctx')
           = contents (buf ctx) ++ Some (to_uint8 WASM_OPCODE_GET_LOCAL) :: (Some <$> data))
    ∧ (∃ ctx', before_set_local index ctx = Some ctx'
         ∧ contents (buf ctx')
           = contents (buf ctx) ++ Some (to_uint8 WASM_OPCODE_SET_LOCAL) :: (Some <$> data))
    ∧ (∃ ctx', after_load_global index ctx = Some ctx'
         ∧ contents (buf ctx')
           = contents (buf ctx) ++ Some (to_uint8 WASM_OPCODE_GET_GLOBAL) :: (Some <$> data))
    ∧ (∃ ctx', before_store_global index ctx = Some ctx'
         ∧ contents (buf ctx')
           = contents (buf ctx) ++ Some (to_uint8 WASM_OPCODE_SET_GLOBAL) :: (Some <$> data)).
Proof.
  intros Hok.
  destruct (leb128_data_any index) as (data & Hdata & Hdec & Hlen).
  exists data. split; [done|]. split; [done|]. split; [done|].
  assert (Hgen : ∀ opcode, ∃ b', (out_opcode (buf ctx) opcode ≫= λ b, out_leb128 b index)
                                 = Some b'
            ∧ contents b' = contents (buf ctx) ++ Some (to_uint8 opcode) :: (Some <$> data)).
  { intros opcode.
    destruct (out_opcode_ok (buf ctx) opcode Hok) as (b1 & -> & Hok1 & _ & Hc1 & _).
    cbn [mbind option_bind]. unfold out_leb128. rewrite Hdata. cbn [mbind option_bind].
    destruct (out_at_end_contents b1 data Hok1) as (b2 & -> & _ & _ & Hc2 & _).
    exists b2. split; [done|]. by rewrite Hc2, Hc1, <- app_assoc. }
  unfold after_get_local, before_set_local, after_load_global, before_store_global.
  split_and!.
  - destruct (Hgen WASM_OPCODE_GET_LOCAL) as (b' & Hrun & Hc).
    apply bind_Some in Hrun as (b1 & -> & Hrun). cbn [mbind option_bind]. rewrite Hrun.
    by eexists.
  - destruct (Hgen WASM_OPCODE_SET_LOCAL) as (b' & Hrun & Hc).
    apply bind_Some in Hrun as (b1 & -> & Hrun). cbn [mbind option_bind]. rewrite Hrun.
    by eexists.
  - destruct (Hgen WASM_OPCODE_GET_GLOBAL) as (b' & Hrun & Hc).
    apply bind_Some in Hrun as (b1 & -> & Hrun). cbn [mbind option_bind]. rewrite Hrun.
    by eexists.
  - destruct (Hgen WASM_OPCODE_SET_GLOBAL) as (b' & Hrun & Hc).
    apply bind_Some in Hrun as (b1 & -> & Hrun). cbn [mbind option_bind]. rewrite Hrun.
    by eexists.
Qed.

End LeafEvents.

Lemma after_const_wide_literals_witness :
  ∃ ctx', after_const (ops := example_opcodes) 11 WASM_TYPE_I64 (mkWasmNumber (-1))
            (with_buf zero_context
               (init_output_buffer (buf zero_context) INITIAL_OUTPUT_BUFFER_CAPACITY))
          = Some ctx'
    ∧ contents (buf ctx')
      = Some <$> [11; 255; 255; 255; 255; 255; 255; 255; 255].
Proof.
  destruct (after_const_wide_literals (ops := example_opcodes) 11 (mkWasmNumber (-1))
              (with_buf zero_context
                 (init_output_buffer (buf zero_context) INITIAL_OUTPUT_BUFFER_CAPACITY)))
    as ((ctx' & Hrun & Hcont & _) & _).
  - unfold buf_ok, INITIAL_OUTPUT_BUFFER_CAPACITY. cbn. lia.
  - exists ctx'. split; [exact Hrun | exact Hcont].
Defined.

Lemma after_break_depth_is_one_byte_witness :
  ∃ ctx', after_break (ops := example_opcodes) 300
            (with_buf zero_context
               (init_output_buffer (buf zero_context) INITIAL_OUTPUT_BUFFER_CAPACITY))
          = Some ctx'
    ∧ contents (buf ctx') = [Some 6; Some 44].
Proof.
  destruct (after_break_depth_is_one_byte (ops := example_opcodes) 300
              (with_buf zero_context
                 (init_output_buffer (buf zero_context) INITIAL_OUTPUT_BUFFER_CAPACITY)))
    as (ctx' & Hrun & Hcont & _).
  - unfold buf_ok, INITIAL_OUTPUT_BUFFER_CAPACITY. cbn. lia.
  - exists ctx'. split; [exact Hrun | exact Hcont].
Defined.

Lemma variable_access_operand_witness :
  ∃ data ctx', leb128_data (-1) = Some data
    ∧ leb128_decode data = 4294967295
    ∧ after_get_local (ops := example_opcodes) (-1)
        (with_buf zero_context
           (init_output_buffer (buf zero_context) INITIAL_OUTPUT_BUFFER_CAPACITY))
      = Some ctx'
    ∧ contents (buf ctx') = Some 14 :: (Some <$> data).
Proof.
  destruct (variable_access_operand (ops := example_opcodes) (-1)
              (with_buf zero_context
                 (init_output_buffer (buf zero_context) INITIAL_OUTPUT_BUFFER_CAPACITY)))
    as (data & Hdata & Hdec & _ & (ctx' & Hrun & Hcont) & _).
  - unfold buf_ok, INITIAL_OUTPUT_BUFFER_CAPACITY. cbn. lia.
  - exists data, ctx'. split; [exact Hdata|]. split; [exact Hdec|].
    split; [exact Hrun | exact Hcont].
Defined.

(** ** Nested expressions *)

Lemma buf_appends_refl b : buf_ok b → buf_appends b b [].
Proof.
  intros Hok. unfold buf_appends. cbn. rewrite app_nil_r. split_and!; [done | lia | done].
Qed.

Lemma buf_appends_trans b b1 b2 x y :
  buf_appends b b1 x → buf_appends b1 b2 y → buf_appends b b2 (x ++ y).
Proof.
  intros (_ & Hsize1 & Hcont1) (Hok2 & Hsize2 & Hcont2). unfold buf_appends.
  rewrite length_app, fmap_app, app_assoc, <- Hcont1. split_and!; [done | lia | done].
Qed.

Lemma buf_appends_frame b b' bytes j :
  buf_appends b b' bytes → 0 ≤ j < buf_size b → buf_start b' !! j = buf_start b !! j.
Proof.
  intros (_ & Hsize & Hcont) Hj.
  assert (Hl : contents b' !! Z.to_nat j = contents b !! Z.to_nat j).
  { rewrite Hcont. apply lookup_app_l. rewrite length_contents; lia. }
  rewrite !contents_lookup in Hl by lia. by injection Hl.
Qed.

Lemma out_at_end_appends b src :
  buf_ok b → ∃ b', out_at_end b src = Some b' ∧ buf_appends b b' src.
Proof.
  intros Hok. destruct (out_at_end_contents b src Hok) as (b' & ? & ? & ? & ? & _).
  by exists b'.
Qed.

Lemma out_u8_at_contents b offset value :
  buf_ok b → 0 ≤ offset < buf_size b → offset < 2 ^ 32 →
  ∃ b', out_u8_at b offset value = Some b' ∧ buf_ok b'
    ∧ buf_size b' = buf_size b
    ∧ contents b' = <[Z.to_nat offset := Some (to_uint8 value)]> (contents b).
Proof.
  intros Hok Hoff Hbound.
  destruct (out_u8_at_ok b offset value Hok) as (b' & Hrun & Hok' & Hsize & Hbyte & Hframe);
    [lia | lia |].
  exists b'. split_and!; try done.
  apply list_eq. intros k.
  destruct (decide (k < Z.to_nat (buf_size b))%nat) as [Hk|Hk].
  - replace k with (Z.to_nat (Z.of_nat k)) at 1 by lia.
    rewrite contents_lookup by lia.
    destruct (decide (k = Z.to_nat offset)) as [->|Hne].
    + rewrite list_lookup_insert_eq by (rewrite length_contents; lia).
      rewrite Z2Nat.id by lia. by rewrite Hbyte.
    + rewrite list_lookup_insert_ne by done.
      replace k with (Z.to_nat (Z.of_nat k)) at 2 by lia.
      rewrite contents_lookup by lia. rewrite Hframe by lia. done.
  - rewrite !lookup_ge_None_2; [done | |].
    + rewrite length_insert, length_contents; lia.
    + rewrite length_contents; lia.
Qed.

Lemma Expr_nested_ind (P : Expr → Prop) :
  (∀ e operands, Forall P operands → P (ExprBefore e operands)) →
  (∀ operands e, Forall P operands → P (ExprAfter operands e)) →
  (∀ r body, Forall P body → P (ExprRegion r body)) →
  (∀ with_else parts, Forall P parts → P (ExprIf with_else parts)) →
  ∀ t, P t.
Proof.
  intros Hbefore Hafter Hregion Hif. fix IH 1.
  assert (Hall : ∀ ts, Forall P ts).
  { fix IHs 1. intros [|t ts]; constructor; [apply IH | apply IHs]. }
  intros [e operands|operands e|r body|with_else parts].
  - apply Hbefore, Hall.
  - apply Hafter, Hall.
  - apply Hregion, Hall.
  - apply Hif, Hall.
Qed.

Ltac step_append :=
  match goal with
  | Hok : buf_ok ?b |- context [out_at_end ?b ?x] =>
    let b' := fresh "b" in
    let Hok' := fresh "Hok" in
    let Hsize := fresh "Hsize" in
    let Hcont := fresh "Hcont" in
    destruct (out_at_end_appends b x Hok) as (b' & -> & Hok' & Hsize & Hcont);
    cbn [mbind option_bind]
  end.


Section TraversalProperties.
Context {ops : WasmOpcodes}.

Lemma leaf_event_appends e ctx bytes :
  leaf_event e = true → buf_ok (buf ctx) →
  leaf_bytes (module ctx) e = Some bytes →
  ∃ b', callback ctx e = Some (with_buf ctx b') ∧ buf_appends (buf ctx) b' bytes.
Proof.
  intros Hleaf Hok Hbytes.
  destruct e; try discriminate Hleaf; cbn [callback leaf_bytes] in *;
    unfold before_binary, after_break, before_call, before_call_import, before_compare,
           after_const, before_convert, after_get_local, before_load, after_load_global,
           after_nop, before_return, before_set_local, before_store, before_store_global,
           before_unary;
    unfold out_opcode, out_leb128, out_u8, out_u32, out_u64, out_f32, out_f64, OUT_TYPE;
    repeat match goal with
    | H : (_ ≫= _) = Some _ |- _ => apply bind_Some in H as (? & ? & H)
    | H : match ?t with WASM_TYPE_VOID => _ | _ => _ end = Some _ |- _ => destruct t
    | H : (if ?c then _ else _) = Some _ |- _ => destruct c
    | H : None = Some _ |- _ => discriminate H
    | H : Some _ = Some _ |- _ => injection H as <-
    | H : module ctx = Some _ |- _ => rewrite H; cbn [mbind option_bind]
    | H : leb128_data _ = Some _ |- _ => rewrite H; cbn [mbind option_bind]
    end;
    repeat step_append;
    (eexists; split; [done|]); unfold buf_appends in *;
    cbn [le_bytes length fmap list_fmap] in *; rewrite ?to_uint8_idemp in *;
    (split_and!; [done | cbn [length]; lia |]);
    repeat match goal with H : contents _ = _ |- _ => rewrite H; clear H end;
    rewrite <- ?app_assoc; done.
Qed.

Lemma region_open_appends r ctx :
  buf_ok (buf ctx) →
  ∃ b', region_open r ctx = Some (buf_size (buf ctx) + 1, with_buf ctx b')
    ∧ buf_appends (buf ctx) b' [to_uint8 (region_opcode r); 0].
Proof.
  intros Hok.
  destruct (out_opcode_ok (buf ctx) (region_opcode r) Hok)
    as (b1 & Hop & Hok1 & Hsize1 & Hcont1 & _).
  destruct (out_u8_ok b1 0 Hok1) as (b2 & Hu8 & Hok2 & Hsize2 & Hcont2 & _).
  exists b2. split.
  - destruct r; cbn [region_open region_opcode] in *;
      unfold before_block, before_loop, before_label;
      rewrite Hop; cbn [mbind option_bind]; rewrite Hu8; cbn [mbind option_bind];
      by rewrite Hsize1.
  - unfold buf_appends. rewrite Hcont2, Hcont1, <- app_assoc. cbn [length].
    split_and!; [done | lia | done].
Qed.

Lemma region_close_patches r n ctx b prefix rest :
  buf_ok b → contents b = prefix ++ Some 0 :: rest →
  Z.of_nat (length prefix) < 2 ^ 32 →
  ∃ b', region_close r n (Z.of_nat (length prefix)) (with_buf ctx b)
        = Some (with_buf ctx b')
    ∧ buf_ok b' ∧ buf_size b' = buf_size b
    ∧ contents b' = prefix ++ Some (to_uint8 n) :: rest.
Proof.
  intros Hok Hcont Hbound.
  pose proof Hok as [[Hsize0 _] _].
  assert (Hlen : length (contents b) = (length prefix + S (length rest))%nat)
    by (by rewrite Hcont, length_app).
  rewrite length_contents in Hlen by done.
  destruct (out_u8_at_contents b (Z.of_nat (length prefix)) n Hok)
    as (b' & Hrun & Hok' & Hsize & Hcont'); [lia | lia |].
  exists b'. split; [|split; [done|split; [done|]]].
  - assert (Hwrap : to_uint32 (Z.of_nat (length prefix)) = Z.of_nat (length prefix))
      by (apply Z.mod_small; lia).
    destruct r; cbn [region_close]; unfold after_block, after_loop, after_label;
      cbn [buf with_buf]; rewrite Hwrap, Hrun; done.
  - rewrite Hcont', Hcont, Nat2Z.id.
    rewrite <- (Nat.add_0_r (length prefix)) at 1. by rewrite insert_app_r.
Qed.

Lemma after_if_patches with_else ctx b prefix rest :
  buf_ok b → contents b = prefix ++ Some (to_uint8 WASM_OPCODE_IF) :: rest →
  Z.of_nat (length prefix) < 2 ^ 32 →
  ∃ b', after_if with_else (Z.of_nat (length prefix)) (with_buf ctx b)
        = Some (with_buf ctx b')
    ∧ buf_ok b' ∧ buf_size b' = buf_size b
    ∧ contents b'
      = prefix
        ++ Some (to_uint8 (if with_else =? 0 then WASM_OPCODE_IF else WASM_OPCODE_IF_THEN))
           :: rest.
Proof.
  intros Hok Hcont Hbound. unfold after_if.
  destruct (Z.eqb_spec with_else 0) as [_|_]; [by exists b|].
  pose proof Hok as [[Hsize0 _] _].
  assert (Hlen : length (contents b) = (length prefix + S (length rest))%nat)
    by (by rewrite Hcont, length_app).
  rewrite length_contents in Hlen by done.
  destruct (out_u8_at_contents b (Z.of_nat (length prefix)) WASM_OPCODE_IF_THEN Hok)
    as (b' & Hrun & Hok' & Hsize & Hcont'); [lia | lia |].
  exists b'. split; [|split; [done|split; [done|]]].
  - assert (Hwrap : to_uint32 (Z.of_nat (length prefix)) = Z.of_nat (length prefix))
      by (apply Z.mod_small; lia).
    cbn [buf with_buf]. by rewrite Hwrap, Hrun.
  - rewrite Hcont', Hcont, Nat2Z.id.
    rewrite <- (Nat.add_0_r (length prefix)) at 1. by rewrite insert_app_r.
Qed.

Lemma emit_list_encodes ts :
  Forall emit_encodes ts →
  ∀ ctx bytes,
    buf_ok (buf ctx) → encode_list (module ctx) ts = Some bytes →
    buf_size (buf ctx) + Z.of_nat (length bytes) < 2 ^ 32 →
    ∃ b', emit_list ts ctx = Some (with_buf ctx b') ∧ buf_appends (buf ctx) b' bytes.
Proof.
  induction 1 as [|t ts Ht _ IH]; intros ctx bytes Hok Henc Hbound.
  - injection Henc as <-. exists (buf ctx). split; [by destruct ctx|].
    by apply buf_appends_refl.
  - change (encode_list (module ctx) (t :: ts))
      with (encode (module ctx) t
            ≫= λ bytes, encode_list (module ctx) ts ≫= λ rest, Some (bytes ++ rest))
      in Henc.
    apply bind_Some in Henc as (x & Hx & Henc).
    apply bind_Some in Henc as (y & Hy & Henc). injection Henc as <-.
    rewrite length_app in Hbound.
    destruct (Ht ctx x Hok Hx) as (b1 & Hrun1 & Happ1); [lia|].
    pose proof Happ1 as (Hok1 & Hsize1 & _).
    destruct (IH (with_buf ctx b1) y Hok1 Hy) as (b2 & Hrun2 & Happ2);
      [cbn [buf with_buf]; lia|].
    exists b2. cbn [emit_list]. rewrite Hrun1. cbn [mbind option_bind].
    split; [exact Hrun2|]. by eapply buf_appends_trans.
Qed.

Lemma emit_encodes_all t : emit_encodes t.
Proof.
  induction t as [e operands IH|operands e IH|r body IH|with_else parts IH]
    using Expr_nested_ind; intros ctx bytes Hok Henc Hbound.
  - change (emit (ExprBefore e operands) ctx)
      with (if leaf_event e then callback ctx e ≫= emit_list operands else None).
    change (encode (module ctx) (ExprBefore e operands))
      with (leaf_bytes (module ctx) e
            ≫= λ op, encode_list (module ctx) operands ≫= λ rest, Some (op ++ rest))
      in Henc.
    apply bind_Some in Henc as (x & Hx & Henc).
    apply bind_Some in Henc as (y & Hy & Henc). injection Henc as <-.
    rewrite length_app in Hbound.
    destruct (leaf_event e) eqn:Hleaf; [|by destruct e].
    destruct (leaf_event_appends e ctx x Hleaf Hok Hx) as (b1 & -> & Happ1).
    pose proof Happ1 as (Hok1 & Hsize1 & _). cbn [mbind option_bind].
    destruct (emit_list_encodes operands IH (with_buf ctx b1) y Hok1 Hy)
      as (b2 & Hrun2 & Happ2); [cbn [buf with_buf]; lia|].
    exists b2. split; [exact Hrun2|]. by eapply buf_appends_trans.
  - change (emit (ExprAfter operands e) ctx)
      with (if leaf_event e then emit_list operands ctx ≫= λ ctx, callback ctx e else None).
    change (encode (module ctx) (ExprAfter operands e))
      with (encode_list (module ctx) operands
            ≫= λ rest, leaf_bytes (module ctx) e ≫= λ op, Some (rest ++ op))
      in Henc.
    apply bind_Some in Henc as (x & Hx & Henc).
    apply bind_Some in Henc as (y & Hy & Henc). injection Henc as <-.
    rewrite length_app in Hbound.
    destruct (leaf_event e) eqn:Hleaf; [|by destruct e].
    destruct (emit_list_encodes operands IH ctx x Hok Hx) as (b1 & -> & Happ1); [lia|].
    pose proof Happ1 as (Hok1 & Hsize1 & _). cbn [mbind option_bind].
    destruct (leaf_event_appends e (with_buf ctx b1) y Hleaf Hok1 Hy) as (b2 & Hrun2 & Happ2).
    exists b2. split; [exact Hrun2|]. by eapply buf_appends_trans.
  - change (emit (ExprRegion r body) ctx)
      with (region_open r ctx
            ≫= λ '(cookie, ctx),
                 emit_list body ctx
                 ≫= λ ctx, region_close r (Z.of_nat (length body)) cookie ctx).
    change (encode (module ctx) (ExprRegion r body))
      with (encode_list (module ctx) body
            ≫= λ rest, Some (to_uint8 (region_opcode r)
                             :: to_uint8 (Z.of_nat (length body)) :: rest))
      in Henc.
    apply bind_Some in Henc as (rest & Hrest & Henc). injection Henc as <-.
    cbn [length] in Hbound.
    pose proof Hok as [[Hsize0 _] _].
    destruct (region_open_appends r ctx Hok) as (b1 & -> & Happ1).
    pose proof Happ1 as (Hok1 & Hsize1 & Hcont1). cbn [length] in Hsize1.
    cbn [mbind option_bind].
    destruct (emit_list_encodes body IH (with_buf ctx b1) rest Hok1 Hrest)
      as (b2 & -> & Happ2); [cbn [buf with_buf]; lia|].
    pose proof Happ2 as (Hok2 & Hsize2 & Hcont2). cbn [buf with_buf] in *.
    cbn [mbind option_bind].
    destruct (region_close_patches r (Z.of_nat (length body)) ctx b2
                (contents (buf ctx) ++ [Some (to_uint8 (region_opcode r))])
                (Some <$> rest) Hok2)
      as (b3 & Hrun3 & Hok3 & Hsize3 & Hcont3).
    { rewrite Hcont2, Hcont1, <- !app_assoc. done. }
    { rewrite length_app, length_contents by done. cbn [length]. lia. }
    exists b3. split.
    + rewrite <- Hrun3. f_equal. rewrite length_app, length_contents by done.
      cbn [length]. lia.
    + unfold buf_appends. rewrite Hcont3, <- app_assoc. cbn [length].
      split_and!; [done | lia | done].
  - change (emit (ExprIf with_else parts) ctx)
      with (before_if ctx
            ≫= λ '(cookie, ctx),
                 emit_list parts ctx ≫= λ ctx, after_if with_else cookie ctx).
    change (encode (module ctx) (ExprIf with_else parts))
      with (encode_list (module ctx) parts
            ≫= λ rest, Some (to_uint8 (if with_else =? 0 then WASM_OPCODE_IF
                                       else WASM_OPCODE_IF_THEN) :: rest))
      in Henc.
    apply bind_Some in Henc as (rest & Hrest & Henc). injection Henc as <-.
    cbn [length] in Hbound.
    pose proof Hok as [[Hsize0 _] _].
    unfold before_if.
    destruct (out_opcode_ok (buf ctx) WASM_OPCODE_IF Hok)
      as (b1 & -> & Hok1 & Hsize1 & Hcont1 & _).
    cbn [mbind option_bind].
    destruct (emit_list_encodes parts IH (with_buf ctx b1) rest Hok1 Hrest)
      as (b2 & -> & Happ2); [cbn [buf with_buf]; lia|].
    pose proof Happ2 as (Hok2 & Hsize2 & Hcont2). cbn [buf with_buf] in *.
    cbn [mbind option_bind].
    destruct (after_if_patches with_else ctx b2 (contents (buf ctx)) (Some <$> rest) Hok2)
      as (b3 & Hrun3 & Hok3 & Hsize3 & Hcont3).
    { rewrite Hcont2, Hcont1, <- !app_assoc. done. }
    { rewrite length_contents by done. lia. }
    exists b3. split.
    + rewrite <- Hrun3. f_equal. unfold to_uint32. rewrite Z.mod_small by lia.
      rewrite length_contents by done. lia.
    + unfold buf_appends. rewrite Hcont3. cbn [length].
      split_and!; [done | lia | done].
Qed.

End TraversalProperties.

Section TraversalTheorems.
Context {ops : WasmOpcodes}.

(** X11. Driving the callbacks over a sequence of nested expressions gives
    the same bytes as encoding the expressions front to back: each block,
    loop and label is its opcode, the number of its direct sub-expressions
    (modulo 256) and its body; each conditional is [IF] or [IF_THEN],
    according to the flag reported at its close, and its parts.  The
    backpatching leaves every byte that was in the buffer before, and the
    layout tables, as they were.  (Cookies are 32-bit: the buffer is assumed
    to end below 2^32.) *)
Theorem emit_matches_encoding (ts : list Expr) (ctx : Context) (bytes : list Z) :
  buf_ok (buf ctx) →
  encode_list (module ctx) ts = Some bytes →
  buf_size (buf ctx) + Z.of_nat (length bytes) < 2 ^ 32 →
  ∃ ctx', emit_list ts ctx = Some ctx'
    ∧ same_frame ctx ctx'
    ∧ buf_size (buf ctx') = buf_size (buf ctx) + Z.of_nat (length bytes)
    ∧ contents (buf ctx') = contents (buf ctx) ++ (Some <$> bytes).
Proof.
  intros Hok Henc Hbound.
  destruct (emit_list_encodes ts) with (ctx := ctx) (bytes := bytes)
    as (b' & Hrun & Hok' & Hsize & Hcont); try done.
  { apply Forall_forall. intros t _. apply emit_encodes_all. }
  exists (with_buf ctx b'). split; [done|]. cbn [buf with_buf].
  split; [|done]. unfold same_frame.
  cbn [module buf with_buf function_num_exprs_offset function_header_offsets
       segment_header_offsets].
  split_and!; try done. lia.
Qed.

End TraversalTheorems.

Lemma emit_matches_encoding_witness :
  let ctx := with_buf zero_context
               (init_output_buffer (buf zero_context) INITIAL_OUTPUT_BUFFER_CAPACITY) in
  ∃ ctx',
    emit_list (ops := example_opcodes)
      [ExprRegion RegionBlock
         [ExprAfter [] EvAfterNop;
          ExprIf 1 [ExprAfter [] (EvAfterConst 10 WASM_TYPE_I32 (mkWasmNumber 7));
                    ExprRegion RegionLoop [];
                    ExprBefore (EvBeforeSetLocal 300) [ExprAfter [] EvAfterNop]]]] ctx
    = Some ctx'
    ∧ contents (buf ctx') = Some <$> [1; 2; 0; 4; 9; 7; 2; 0; 15; 172; 2; 0].
Proof.
  intros ctx.
  destruct (emit_matches_encoding (ops := example_opcodes)
              [ExprRegion RegionBlock
                 [ExprAfter [] EvAfterNop;
                  ExprIf 1 [ExprAfter [] (EvAfterConst 10 WASM_TYPE_I32 (mkWasmNumber 7));
                            ExprRegion RegionLoop [];
                            ExprBefore (EvBeforeSetLocal 300) [ExprAfter [] EvAfterNop]]]]
              ctx [1; 2; 0; 4; 9; 7; 2; 0; 15; 172; 2; 0])
    as (ctx' & Hrun & _ & _ & Hcont).
  - subst ctx. unfold buf_ok, INITIAL_OUTPUT_BUFFER_CAPACITY. cbn. lia.
  - vm_compute. reflexivity.
  - vm_compute. reflexivity.
  - exists ctx'. split; [exact Hrun | exact Hcont].
Defined.

(** ** Function bodies and export flags *)

Lemma bytes_at_of_contents b prefix mid suffix :
  0 ≤ buf_size b → contents b = prefix ++ mid ++ suffix →
  bytes_at b (Z.of_nat (length prefix)) (Z.of_nat (length mid)) = mid.
Proof.
  intros Hsize Hcont.
  assert (Hlen : Z.to_nat (buf_size b) = (length prefix + (length mid + length suffix))%nat).
  { rewrite <- length_contents by done. by rewrite Hcont, !length_app. }
  apply list_eq. intros k. unfold bytes_at. rewrite list_lookup_fmap.
  destruct (decide (k < length mid)%nat) as [Hk|Hk].
  - rewrite lookup_seqZ_lt by lia. cbn [fmap option_fmap option_map].
    assert (Hl : contents b !! Z.to_nat (Z.of_nat (length prefix) + Z.of_nat k)
                 = mid !! k).
    { rewrite Hcont, lookup_app_r by lia. rewrite lookup_app_l by lia. f_equal. lia. }
    rewrite contents_lookup in Hl by lia. done.
  - rewrite lookup_seqZ_ge by lia. by rewrite lookup_ge_None_2 by lia.
Qed.

Lemma out_u8_at_patches b prefix old rest value :
  buf_ok b → contents b = prefix ++ Some old :: rest →
  Z.of_nat (length prefix) < 2 ^ 32 →
  ∃ b', out_u8_at b (Z.of_nat (length prefix)) value = Some b'
    ∧ buf_ok b' ∧ buf_size b' = buf_size b
    ∧ contents b' = prefix ++ Some (to_uint8 value) :: rest
    ∧ ∀ j, j ≠ Z.of_nat (length prefix) → buf_start b' !! j = buf_start b !! j.
Proof.
  intros Hok Hcont Hbound.
  pose proof Hok as [[Hsize0 _] _].
  assert (Hlen : length (contents b) = (length prefix + S (length rest))%nat)
    by (by rewrite Hcont, length_app).
  rewrite length_contents in Hlen by done.
  destruct (out_u8_at_contents b (Z.of_nat (length prefix)) value Hok)
    as (b' & Hrun & Hok' & Hsize & Hcont'); [lia | lia |].
  destruct (out_u8_at_ok b (Z.of_nat (length prefix)) value Hok)
    as (b'' & Hrun' & _ & _ & _ & Hframe); [lia | lia |].
  rewrite Hrun in Hrun'. injection Hrun' as <-.
  exists b'. split_and!; try done.
  rewrite Hcont', Hcont, Nat2Z.id.
  rewrite <- (Nat.add_0_r (length prefix)) at 1. by rewrite insert_app_r.
Qed.

Section FunctionBodies.
Context {ops : WasmOpcodes}.

(** X12. Emitting one function (open, body, close with the number of body
    expressions) on a context laid out for the module returns and appends
    the body wrapped in its implicit block: the [BLOCK] opcode, the count
    modulo 256, the encoded expressions.  Afterwards the function header's
    code-start field holds the offset of that [BLOCK] opcode and its code-end
    field the offset just past the body; no other byte that was in the buffer
    changes. *)
Theorem function_body_is_bracketed (m : WasmModule) (ctx : Context) (i : Z)
    (f : WasmFunction) (body : list Expr) (bytes : list Z) :
  laid_out m ctx → Forall (λ f, 0 ≤ num_args f) (functions m) →
  array_get (functions m) i = Some f →
  encode_list (Some m) body = Some bytes →
  buf_size (buf ctx) + 2 + Z.of_nat (length bytes) < 2 ^ 32 →
  ∃ ctx' header,
    emit_function m i body ctx = Some ctx'
    ∧ array_get (function_header_offsets ctx) i = Some header
    ∧ laid_out m ctx'
    ∧ buf_size (buf ctx') = buf_size (buf ctx) + 2 + Z.of_nat (length bytes)
    ∧ read_u32 (buf ctx') (header + FUNC_HEADER_CODE_START_OFFSET (num_args f))
      = Some (buf_size (buf ctx))
    ∧ read_u32 (buf ctx') (header + FUNC_HEADER_CODE_END_OFFSET (num_args f))
      = Some (buf_size (buf ctx'))
    ∧ bytes_at (buf ctx') (buf_size (buf ctx)) (2 + Z.of_nat (length bytes))
      = Some <$> to_uint8 WASM_OPCODE_BLOCK :: to_uint8 (Z.of_nat (length body)) :: bytes
    ∧ ∀ j, 0 ≤ j < buf_size (buf ctx) →
           ¬ (header + FUNC_HEADER_CODE_START_OFFSET (num_args f) ≤ j
              < header + FUNC_HEADER_CODE_END_OFFSET (num_args f) + 4) →
           buf_start (buf ctx') !! j = buf_start (buf ctx) !! j.
Proof.
  intros Hlaid Hargs Hf Henc Hbound.
  pose proof Hlaid as (Hm & Hplan & Hok & Hend).
  pose proof Hok as [[Hsize0 _] _].
  destruct (function_header_lookup m ctx i f Hlaid Hargs) as (h & Hh & _ & Hlo & Hhi);
    [lia | done |].
  assert (Harg : 0 ≤ num_args f).
  { rewrite Forall_forall in Hargs. apply Hargs. unfold array_get in Hf.
    destruct (i <? 0); [done|]. by eapply list_elem_of_lookup_2. }
  unfold FUNC_HEADER_CODE_START_OFFSET, FUNC_HEADER_CODE_END_OFFSET, FUNC_SIG_SIZE in *.
  (* before_function *)
  destruct (out_u32_at_ok (buf ctx) (h + (2 + num_args f + 4)) (buf_size (buf ctx)) Hok)
    as (b1 & Hrun1 & Hok1 & Hsize1 & Hfield1 & Hframe1); [lia | lia |].
  destruct (out_opcode_ok b1 WASM_OPCODE_BLOCK Hok1) as (b2 & Hrun2 & Hok2 & Hsize2 & Hcont2 & _).
  destruct (out_u8_ok b2 0 Hok2) as (b3 & Hrun3 & Hok3 & Hsize3 & Hcont3 & _).
  set (ctx1 := {| module := module ctx; buf := b3;
                  function_num_exprs_offset := to_uint32 (buf_size b2);
                  function_header_offsets := function_header_offsets ctx;
                  segment_header_offsets := segment_header_offsets ctx |}).
  assert (Hopen : before_function m i ctx = Some ctx1).
  { unfold before_function, FUNC_HEADER_CODE_START_OFFSET, FUNC_SIG_SIZE.
    rewrite Hf, Hh. cbn [mbind option_bind]. rewrite Hrun1. cbn [mbind option_bind].
    rewrite Hrun2. cbn [mbind option_bind]. rewrite Hrun3. done. }
  (* the body *)
  destruct (emit_list_encodes body) with (ctx := ctx1) (bytes := bytes)
    as (b4 & Hrun4 & Hok4 & Hsize4 & Hcont4).
  { apply Forall_forall. intros t _. apply emit_encodes_all. }
  { done. }
  { cbn [module ctx1]. by rewrite Hm. }
  { cbn [buf ctx1]. lia. }
  cbn [buf ctx1] in Hsize4, Hcont4.
  (* after_function *)
  assert (Hcont4' : contents b4
                    = (contents b1 ++ [Some (to_uint8 WASM_OPCODE_BLOCK)])
                      ++ Some 0 :: (Some <$> bytes)).
  { rewrite Hcont4, Hcont3, Hcont2, <- !app_assoc. done. }
  assert (Hlen1 : Z.of_nat (length (contents b1 ++ [Some (to_uint8 WASM_OPCODE_BLOCK)]))
                  = buf_size (buf ctx) + 1).
  { rewrite length_app, length_contents by lia. cbn [length]. lia. }
  destruct (out_u8_at_patches b4 _ 0 _ (Z.of_nat (length body)) Hok4 Hcont4')
    as (b5 & Hrun5 & Hok5 & Hsize5 & Hcont5 & Hframe5); [lia|].
  rewrite Hlen1 in Hrun5, Hframe5.
  destruct (out_u32_at_ok b5 (h + (2 + num_args f + 8)) (buf_size b5) Hok5)
    as (b6 & Hrun6 & Hok6 & Hsize6 & Hfield6 & Hframe6); [lia | lia |].
  assert (Hclose : after_function m i (Z.of_nat (length body)) (with_buf ctx1 b4)
                   = Some (with_buf (with_buf ctx1 b4) b6)).
  { unfold after_function, FUNC_HEADER_CODE_END_OFFSET, FUNC_SIG_SIZE.
    rewrite Hf. cbn [mbind option_bind buf with_buf function_num_exprs_offset
                     function_header_offsets ctx1].
    unfold to_uint32 at 1. rewrite Z.mod_small by lia.
    rewrite Hsize2, Hsize1, Hrun5. cbn [mbind option_bind]. rewrite Hh.
    cbn [mbind option_bind]. rewrite Hrun6. done. }
  (* what the old bytes look like at the end *)
  assert (Hold : ∀ j, 0 ≤ j < buf_size (buf ctx) →
                      buf_start b6 !! j
                      = if decide (h + (2 + num_args f + 8) ≤ j < h + (2 + num_args f + 8) + 4)
                        then buf_start b6 !! j else buf_start b1 !! j).
  { intros j Hj. case_decide; [done|].
    rewrite Hframe6 by done. rewrite Hframe5 by lia.
    assert (Happ : buf_appends b1 b4 ([to_uint8 WASM_OPCODE_BLOCK; 0] ++ bytes)).
    { unfold buf_appends. rewrite Hcont4, Hcont3, Hcont2, length_app, fmap_app, <- !app_assoc.
      cbn [length]. split_and!; [done | lia | done]. }
    apply (buf_appends_frame _ _ _ _ Happ). lia. }
  exists (with_buf (with_buf ctx1 b4) b6), h.
  split; [|split; [done|split; [|split; [|split; [|split; [|split]]]]]].
  - unfold emit_function. rewrite Hopen. cbn [mbind option_bind].
    rewrite Hrun4. cbn [mbind option_bind]. exact Hclose.
  - unfold laid_out. cbn. split_and!; try done. lia.
  - cbn [buf with_buf]. lia.
  - cbn [buf with_buf]. apply read_u32_bytes; [lia|].
    rewrite <- Hfield1. apply bytes_at_ext. intros j Hj.
    rewrite Hold by lia. case_decide; [lia | done].
  - cbn [buf with_buf]. apply read_u32_bytes; [lia|]. by rewrite Hsize6.
  - cbn [buf with_buf].
    assert (Hb5 : bytes_at b5 (buf_size (buf ctx)) (2 + Z.of_nat (length bytes))
                  = Some <$> to_uint8 WASM_OPCODE_BLOCK
                             :: to_uint8 (Z.of_nat (length body)) :: bytes).
    { pose proof (bytes_at_of_contents b5 (contents b1)
                    (Some <$> to_uint8 WASM_OPCODE_BLOCK
                              :: to_uint8 (Z.of_nat (length body)) :: bytes) []) as Hat.
      rewrite length_contents, length_fmap in Hat by lia. cbn [length] in Hat.
      rewrite Z2Nat.id, Hsize1 in Hat by lia.
      replace (Z.of_nat (S (S (length bytes)))) with (2 + Z.of_nat (length bytes)) in Hat
        by lia.
      apply Hat; [lia|]. rewrite Hcont5, app_nil_r, <- app_assoc. done. }
    rewrite <- Hb5. apply bytes_at_ext. intros j Hj. apply Hframe6. lia.
  - cbn [buf with_buf]. intros j Hj Hout. rewrite Hold by done.
    case_decide; [lia|]. apply Hframe1. lia.
Qed.

(** X13. [after_export] on a laid-out context sets the export flag byte of
    the function's header record to 1 and changes nothing else, not the size
    either; exporting the same function again changes nothing. *)
Theorem after_export_sets_flag (m : WasmModule) (ctx : Context) (i : Z) (f : WasmFunction) :
  laid_out m ctx → Forall (λ f, 0 ≤ num_args f) (functions m) →
  headers_end m < 2 ^ 32 →
  array_get (functions m) i = Some f →
  ∃ ctx' header,
    after_export m i ctx = Some ctx'
    ∧ array_get (function_header_offsets ctx) i = Some header
    ∧ laid_out m ctx'
    ∧ buf_size (buf ctx') = buf_size (buf ctx)
    ∧ buf_start (buf ctx') !! (header + FUNC_HEADER_EXPORTED_OFFSET (num_args f)) = Some 1
    ∧ (∀ j, j ≠ header + FUNC_HEADER_EXPORTED_OFFSET (num_args f) →
            buf_start (buf ctx') !! j = buf_start (buf ctx) !! j)
    ∧ ∃ ctx'', after_export m i ctx' = Some ctx''
               ∧ buf_start (buf ctx'') = buf_start (buf ctx').
Proof.
  intros Hlaid Hargs Hend32 Hf.
  pose proof Hlaid as (Hm & Hplan & Hok & Hend).
  destruct (function_header_lookup m ctx i f Hlaid Hargs Hend32 Hf)
    as (h & Hh & _ & Hlo & Hhi).
  assert (Harg : 0 ≤ num_args f).
  { rewrite Forall_forall in Hargs. apply Hargs. unfold array_get in Hf.
    destruct (i <? 0); [done|]. by eapply list_elem_of_lookup_2. }
  unfold FUNC_HEADER_EXPORTED_OFFSET, FUNC_SIG_SIZE in *.
  destruct (out_u8_at_ok (buf ctx) (h + (2 + num_args f + 20)) 1 Hok)
    as (b1 & Hrun1 & Hok1 & Hsize1 & Hbyte1 & Hframe1); [lia | lia |].
  destruct (out_u8_at_ok b1 (h + (2 + num_args f + 20)) 1 Hok1)
    as (b2 & Hrun2 & Hok2 & Hsize2 & Hbyte2 & Hframe2); [lia | lia |].
  assert (Hexport : ∀ b b', out_u8_at b (h + (2 + num_args f + 20)) 1 = Some b' →
            after_export m i (with_buf ctx b) = Some (with_buf ctx b')).
  { intros b b' Hb. unfold after_export, FUNC_HEADER_EXPORTED_OFFSET, FUNC_SIG_SIZE.
    rewrite Hf. cbn [mbind option_bind buf with_buf function_header_offsets].
    rewrite Hh. cbn [mbind option_bind]. rewrite Hb. done. }
  exists (with_buf ctx b1), h. cbn [buf with_buf].
  split; [|split; [done|split; [|split; [done|split; [|split; [done|]]]]]].
  - rewrite <- (Hexport (buf ctx) b1 Hrun1). by destruct ctx.
  - unfold laid_out. cbn. split_and!; try done. lia.
  - rewrite Hbyte1. done.
  - exists (with_buf ctx b2). split; [by apply Hexport|]. cbn [buf with_buf].
    apply map_eq. intros j.
    destruct (decide (j = h + (2 + num_args f + 20))) as [->|Hne].
    + by rewrite Hbyte2, Hbyte1.
    + by apply Hframe2.
Qed.

End FunctionBodies.

(** ** The header records *)

Lemma for_each_appends {A} (body : OutputBuffer → A → option OutputBuffer)
    (bytes : A → list Z) data :
  (∀ b x, x ∈ data → buf_ok b → ∃ b', body b x = Some b' ∧ buf_appends b b' (bytes x)) →
  ∀ b, buf_ok b →
       ∃ b', for_each body data b = Some b' ∧ buf_appends b b' (concat (bytes <$> data)).
Proof.
  induction data as [|x data IH]; intros Hbody b Hok; cbn [for_each].
  - exists b. split; [done|]. by apply buf_appends_refl.
  - destruct (Hbody b x) as (b1 & -> & Happ1); [left | done |].
    cbn [mbind option_bind]. pose proof Happ1 as (Hok1 & _).
    destruct (IH (λ b y Hy, Hbody b y (list_elem_of_further _ _ _ Hy)) b1 Hok1)
      as (b' & Hrun & Happ).
    exists b'. split; [done|]. rewrite fmap_cons. cbn [concat].
    by eapply buf_appends_trans.
Qed.

Lemma OUT_TYPE_appends width b value :
  buf_ok b → ∃ b', OUT_TYPE width b value = Some b' ∧ buf_appends b b' (le_bytes width value).
Proof. intros Hok. unfold OUT_TYPE. by apply out_at_end_appends. Qed.

Lemma array_get_seqZ {A St} (g : St → A → option St) (data : list A) : ∀ len n s,
  0 ≤ n → Z.of_nat len + n ≤ Z.of_nat (length data) →
  for_each (λ s j, x ← array_get data j; g s x) (seqZ n (Z.of_nat len)) s
  = for_each g (take len (drop (Z.to_nat n) data)) s.
Proof.
  induction len as [|len IH]; intros n s Hn Hlen.
  - by rewrite take_0.
  - rewrite Nat2Z.inj_succ, seqZ_cons by lia. cbn [for_each].
    replace (Z.pred (Z.succ (Z.of_nat len))) with (Z.of_nat len) by lia.
    destruct (drop (Z.to_nat n) data) as [|x rest] eqn:Hdrop.
    { apply (f_equal length) in Hdrop. rewrite length_drop in Hdrop. cbn in Hdrop. lia. }
    assert (Hx : array_get data n = Some x).
    { unfold array_get. destruct (Z.ltb_spec n 0); [lia|].
      rewrite <- (Nat.add_0_r (Z.to_nat n)), <- lookup_drop, Hdrop. done. }
    rewrite Hx. cbn [mbind option_bind take for_each].
    destruct (g s x) as [s'|]; [|done]. cbn [mbind option_bind].
    rewrite IH by lia. do 2 f_equal.
    replace (Z.to_nat (Z.succ n)) with (Z.to_nat n + 1)%nat by lia.
    by rewrite <- drop_drop, Hdrop.
Qed.

Lemma count_type_cons tag v vars :
  count_type tag (v :: vars)
  = (if decide (WasmType_value (var_type v) = tag) then 1 else 0) + count_type tag vars.
Proof.
  unfold count_type. rewrite filter_cons. case_decide; cbn [length]; lia.
Qed.

Lemma count_loop vars : ∀ arr : list Z,
  ∃ arr', for_each (λ num_locals local,
                      Some (alter (λ n, n + 1)
                                  (Z.to_nat (WasmType_value (var_type local))) num_locals))
                   vars arr = Some arr'
    ∧ ∀ k, arr' !! k = (λ n, n + count_type (Z.of_nat k) vars) <$> arr !! k.
Proof.
  induction vars as [|v vars IH]; intros arr; cbn [for_each].
  - exists arr. split; [done|]. intros k. unfold count_type. cbn.
    destruct (arr !! k); cbn; [f_equal; lia | done].
  - cbn [mbind option_bind].
    destruct (IH (alter (λ n, n + 1) (Z.to_nat (WasmType_value (var_type v))) arr))
      as (arr' & -> & Harr').
    exists arr'. split; [done|]. intros k. rewrite Harr', count_type_cons.
    assert (Htag : 0 ≤ WasmType_value (var_type v)) by (by destruct (var_type v)).
    destruct (decide (k = Z.to_nat (WasmType_value (var_type v)))) as [->|Hne].
    + rewrite list_lookup_alter_eq, Z2Nat.id by done. case_decide; [|done].
      destruct (arr !! _); cbn; [f_equal; lia | done].
    + rewrite list_lookup_alter_ne by done. case_decide; [lia|].
      destruct (arr !! k); cbn; [f_equal; lia | done].
Qed.

Lemma count_locals_counts function :
  0 ≤ num_args function ≤ vector_size (locals function) →
  ∃ arr, count_locals function = Some arr
    ∧ ∀ t, array_get arr (WasmType_value t)
           = Some (count_type (WasmType_value t)
                              (drop (Z.to_nat (num_args function)) (locals function))).
Proof.
  intros Hargs. unfold count_locals, vector_size in *.
  replace (Z.of_nat (length (locals function)) - num_args function)
    with (Z.of_nat (length (locals function) - Z.to_nat (num_args function))) by lia.
  rewrite array_get_seqZ by lia.
  rewrite take_ge by (rewrite length_drop; lia).
  destruct (count_loop (drop (Z.to_nat (num_args function)) (locals function))
              (replicate (Z.to_nat WASM_NUM_TYPES) 0)) as (arr & -> & Harr).
  exists arr. split; [done|]. intros t. unfold array_get.
  assert (Htag : 0 ≤ WasmType_value t < 5) by (destruct t; cbn; lia).
  destruct (Z.ltb_spec (WasmType_value t) 0); [lia|].
  rewrite Harr, Z2Nat.id by lia.
  rewrite lookup_replicate_2 by (change (Z.to_nat WASM_NUM_TYPES) with 5%nat; lia).
  done.
Qed.

Ltac step_out :=
  unfold out_u8, out_u16, out_u32, OUT_TYPE; repeat step_append.

Ltac close_appends :=
  eexists; split; [done|]; unfold buf_appends in *;
  split; [done|]; split;
  [ repeat match goal with H : buf_size _ = _ |- _ => rewrite H; clear H end;
    rewrite ?length_app, ?length_fmap, ?length_le_bytes; cbn [length]; lia
  | repeat match goal with H : contents _ = _ |- _ => rewrite H; clear H end;
    rewrite ?fmap_app, <- ?app_assoc; done ].

Lemma out_global_header_appends b global :
  buf_ok b →
  ∃ b', out_global_header b global = Some b' ∧ buf_appends b b' (global_header_bytes global).
Proof.
  intros Hok. unfold out_global_header, global_header_bytes. step_out.
  assert (Hcode : global_type_codes (var_type global) mod 256
                  = global_type_codes (var_type global)).
  { unfold global_type_codes. apply to_uint8_idemp. }
  cbn [le_bytes] in *. rewrite Hcode in *. close_appends.
Qed.

Lemma out_segment_header_appends b segment :
  buf_ok b →
  ∃ b', out_segment_header b segment = Some b'
        ∧ buf_appends b b' (segment_header_bytes segment).
Proof.
  intros Hok. unfold out_segment_header, segment_header_bytes. step_out.
  change (le_bytes 1 1) with [1] in *. close_appends.
Qed.

Lemma type_loop_appends (vars : list WasmVariable) b :
  buf_ok b →
  ∃ b', for_each (λ buf arg, out_u8 buf (WasmType_value (var_type arg))) vars b = Some b'
    ∧ buf_appends b b' ((λ arg, to_uint8 (WasmType_value (var_type arg))) <$> vars).
Proof.
  intros Hok.
  destruct (for_each_appends (λ buf arg, out_u8 buf (WasmType_value (var_type arg)))
              (λ arg, [to_uint8 (WasmType_value (var_type arg))]) vars) with (b := b)
    as (b' & Hrun & Happ); [|done|].
  { intros b0 arg _ Hok0. by apply (OUT_TYPE_appends 1). }
  exists b'. split; [done|].
  replace ((λ arg, to_uint8 (WasmType_value (var_type arg))) <$> vars)
    with (concat ((λ arg, [to_uint8 (WasmType_value (var_type arg))]) <$> vars)); [done|].
  clear. induction vars as [|v vars IH]; [done|]. cbn. by rewrite <- IH.
Qed.

Lemma out_import_header_appends b import :
  buf_ok b →
  ∃ b', out_import_header b import = Some b'
        ∧ buf_appends b b' (import_header_bytes import).
Proof.
  intros Hok. unfold out_import_header, import_header_bytes.
  destruct (OUT_TYPE_appends 1 b (vector_size (import_args import)) Hok)
    as (b1 & Hrun1 & Hok1 & Hsize1 & Hcont1).
  fold out_u8 in Hrun1. rewrite Hrun1. cbn [mbind option_bind].
  destruct (OUT_TYPE_appends 1 b1 (WasmType_value (import_result_type import)) Hok1)
    as (b2 & Hrun2 & Hok2 & Hsize2 & Hcont2).
  fold out_u8 in Hrun2. rewrite Hrun2. cbn [mbind option_bind].
  destruct (type_loop_appends (import_args import) b2 Hok2)
    as (b3 & -> & Hok3 & Hsize3 & Hcont3).
  cbn [mbind option_bind]. step_out.
  change (le_bytes 1 0) with [0] in *. change (le_bytes 1 1) with [1] in *.
  cbn [le_bytes length] in Hsize1, Hsize2, Hcont1, Hcont2.
  close_appends.
Qed.

Lemma out_function_header_appends b function :
  buf_ok b → 0 ≤ num_args function ≤ vector_size (locals function) →
  ∃ b', out_function_header b function = Some b'
        ∧ buf_appends b b' (function_header_bytes function).
Proof.
  intros Hok Hargs. unfold out_function_header, function_header_bytes.
  destruct (OUT_TYPE_appends 1 b (num_args function) Hok)
    as (b1 & Hrun1 & Hok1 & Hsize1 & Hcont1).
  fold out_u8 in Hrun1. rewrite Hrun1. cbn [mbind option_bind].
  destruct (OUT_TYPE_appends 1 b1 (WasmType_value (result_type function)) Hok1)
    as (b2 & Hrun2 & Hok2 & Hsize2 & Hcont2).
  fold out_u8 in Hrun2. rewrite Hrun2. cbn [mbind option_bind].
  unfold vector_size in Hargs.
  replace (seqZ 0 (num_args function))
    with (seqZ 0 (Z.of_nat (Z.to_nat (num_args function))))
    by (by rewrite Z2Nat.id by lia).
  rewrite (array_get_seqZ (λ buf local, out_u8 buf (WasmType_value (var_type local))))
    by lia.
  rewrite drop_0.
  destruct (type_loop_appends (take (Z.to_nat (num_args function)) (locals function)) b2 Hok2)
    as (b3 & -> & Hok3 & Hsize3 & Hcont3).
  cbn [mbind option_bind].
  destruct (count_locals_counts function) as (arr & Harr & Hget);
    [unfold vector_size; lia|].
  unfold out_u32, OUT_TYPE. repeat step_append.
  rewrite Harr. cbn [mbind option_bind]. rewrite !Hget. cbn [mbind option_bind].
  step_out.
  change (le_bytes 1 0) with [0] in *.
  cbn [le_bytes length] in Hsize1, Hsize2, Hcont1, Hcont2.
  close_appends.
Qed.

Ltac step_loop bytes data tac :=
  match goal with
  | Hok : buf_ok ?buf0 |- context [for_each ?body data ?buf0] =>
    let b' := fresh "b" in
    let Hok' := fresh "Hok" in
    let Hsize := fresh "Hsize" in
    let Hcont := fresh "Hcont" in
    destruct (for_each_appends body bytes data tac buf0 Hok)
      as (b' & -> & Hok' & Hsize & Hcont);
    cbn [mbind option_bind]
  end.

Lemma out_module_header_appends b m :
  buf_ok b → module_ok m →
  ∃ r b', log_two_u32 (max_memory_size m) = Some r
    ∧ out_module_header b m = Some b'
    ∧ buf_appends b b' (module_header_bytes r m).
Proof.
  intros Hok [Hmem Hfuns]. unfold out_module_header, module_header_bytes, preamble_bytes.
  destruct (log_two_u32_ok _ Hmem) as [r Hr]. exists r. rewrite Hr.
  cbn [mbind option_bind].
  destruct (OUT_TYPE_appends 1 b r Hok) as (b1 & Hrun1 & Hok1 & Hsize1 & Hcont1).
  fold out_u8 in Hrun1. rewrite Hrun1. cbn [mbind option_bind].
  destruct (OUT_TYPE_appends 1 b1 DEFAULT_MEMORY_EXPORT Hok1)
    as (b2 & Hrun2 & Hok2 & Hsize2 & Hcont2).
  fold out_u8 in Hrun2. rewrite Hrun2. cbn [mbind option_bind].
  unfold out_u16, OUT_TYPE. repeat step_append.
  assert (Hglobal : ∀ b x, x ∈ globals m → buf_ok b →
            ∃ b', out_global_header b x = Some b' ∧ buf_appends b b' (global_header_bytes x))
    by (intros; by apply out_global_header_appends).
  assert (Himport : ∀ b x, x ∈ imports m → buf_ok b →
            ∃ b', out_import_header b x = Some b' ∧ buf_appends b b' (import_header_bytes x))
    by (intros; by apply out_import_header_appends).
  assert (Hfunction : ∀ b x, x ∈ functions m → buf_ok b →
            ∃ b', out_function_header b x = Some b'
                  ∧ buf_appends b b' (function_header_bytes x)).
  { intros b' f Hf Hok'. apply out_function_header_appends; [done|].
    rewrite Forall_forall in Hfuns. by apply Hfuns. }
  assert (Hsegment : ∀ b x, x ∈ segments m → buf_ok b →
            ∃ b', out_segment_header b x = Some b'
                  ∧ buf_appends b b' (segment_header_bytes x))
    by (intros; by apply out_segment_header_appends).
  step_loop global_header_bytes (globals m) Hglobal.
  step_loop import_header_bytes (imports m) Himport.
  step_loop function_header_bytes (functions m) Hfunction.
  step_loop segment_header_bytes (segments m) Hsegment.
  cbn [le_bytes length] in Hsize1, Hsize2, Hcont1, Hcont2.
  change (DEFAULT_MEMORY_EXPORT mod 256) with DEFAULT_MEMORY_EXPORT in *.
  change (r mod 256) with (to_uint8 r) in *.
  eexists. split; [done|]. split; [done|]. unfold buf_appends in *.
  split; [done|]. split.
  - repeat match goal with H : buf_size _ = _ |- _ => rewrite H; clear H end.
    rewrite !length_app, !length_le_bytes. cbn [length]. lia.
  - repeat match goal with H : contents _ = _ |- _ => rewrite H; clear H end.
    rewrite !fmap_app, <- !app_assoc. done.
Qed.

Lemma bytes_at_block b pre (blocks : list (list Z)) post i x :
  0 ≤ buf_size b →
  contents b = Some <$> (pre ++ concat blocks ++ post) →
  blocks !! i = Some x →
  bytes_at b (Z.of_nat (length pre) + Z.of_nat (length (concat (take i blocks))))
             (Z.of_nat (length x))
  = Some <$> x.
Proof.
  intros Hsize Hcont Hx.
  rewrite <- (take_drop_middle blocks i x Hx) in Hcont.
  rewrite concat_app in Hcont. cbn [concat] in Hcont.
  pose proof (bytes_at_of_contents b (Some <$> (pre ++ concat (take i blocks))) (Some <$> x)
                (Some <$> (concat (drop (S i) blocks) ++ post)) Hsize) as Hat.
  rewrite !length_fmap, length_app, Nat2Z.inj_add in Hat. apply Hat.
  rewrite Hcont, !fmap_app, <- !app_assoc. done.
Qed.

Lemma length_concat_sizes {A} (hb : A → list Z) (size : A → Z) (data : list A) :
  (∀ x, x ∈ data → Z.of_nat (length (hb x)) = size x) →
  Z.of_nat (length (concat (hb <$> data))) = sum_list_Z (size <$> data).
Proof.
  induction data as [|x data IH]; intros Hsize; [done|].
  rewrite !fmap_cons, sum_list_Z_cons. cbn [concat].
  rewrite length_app, Nat2Z.inj_add, Hsize by left.
  rewrite IH; [done|]. intros y Hy. apply Hsize. by right.
Qed.

Lemma length_global_header_bytes g : Z.of_nat (length (global_header_bytes g)) = 6.
Proof. done. Qed.

Lemma length_import_header_bytes import :
  Z.of_nat (length (import_header_bytes import)) = 24 + vector_size (import_args import).
Proof.
  unfold import_header_bytes, vector_size.
  rewrite !length_app, length_fmap, !length_le_bytes. cbn [length]. lia.
Qed.

Lemma length_function_header_bytes function :
  0 ≤ num_args function ≤ vector_size (locals function) →
  Z.of_nat (length (function_header_bytes function)) = 24 + num_args function.
Proof.
  unfold function_header_bytes, vector_size. intros Hargs.
  rewrite !length_app, length_fmap, length_take, !length_le_bytes. cbn [length]. lia.
Qed.

Lemma length_segment_header_bytes segment :
  Z.of_nat (length (segment_header_bytes segment)) = 13.
Proof. done. Qed.

(** X14. [before_module] leaves in the buffer exactly the preamble and the
    header records (globals, imports, functions, segments), and the layout
    pass and the header writer agree: the record of every declared function
    starts at the offset stored for it in [function_header_offsets], the
    record of every segment at its entry of [segment_header_offsets], and the
    record of every import where [out_module_footer] later looks for it.
    The records carry zero placeholders for the fields patched later. *)
Theorem header_records_at_planned_offsets (m : WasmModule) (ctx : Context) :
  module_ok m → headers_end m < 2 ^ 32 →
  ∃ ctx' mem_size_log2,
    before_module m ctx = Some ctx'
    ∧ log_two_u32 (max_memory_size m) = Some mem_size_log2
    ∧ contents (buf ctx') = Some <$> module_header_bytes mem_size_log2 m
    ∧ buf_size (buf ctx') = headers_end m
    ∧ (∀ i f, functions m !! i = Some f →
         ∃ header, function_header_offsets ctx' !! i = Some header
           ∧ bytes_at (buf ctx') header (24 + num_args f)
             = Some <$> function_header_bytes f)
    ∧ (∀ s segment, segments m !! s = Some segment →
         ∃ header, segment_header_offsets ctx' !! s = Some header
           ∧ bytes_at (buf ctx') header 13 = Some <$> segment_header_bytes segment)
    ∧ (∀ j import, imports m !! j = Some import →
         bytes_at (buf ctx') (import_header_offset_closed m j)
                  (24 + vector_size (import_args import))
         = Some <$> import_header_bytes import).
Proof.
  intros Hmod Hend.
  pose proof (module_ok_args m Hmod) as Hargs.
  destruct (before_module_ok m ctx Hmod) as (ctx' & Hrun & Hlaid & Hsize & _).
  pose proof Hlaid as (_ & Hplan & Hok & _).
  rewrite plan_header_offsets_closed in Hplan by done. injection Hplan as Hft Hst.
  destruct (out_module_header_appends
              (init_output_buffer (buf ctx) INITIAL_OUTPUT_BUFFER_CAPACITY) m)
    as (r & b' & Hr & Hhdr & _ & _ & Hcont); [|done|].
  { unfold buf_ok, INITIAL_OUTPUT_BUFFER_CAPACITY. cbn. lia. }
  assert (Hbuf : buf ctx' = b').
  { unfold before_module in Hrun. destruct (plan_header_offsets m).
    rewrite Hhdr in Hrun. cbn in Hrun. by injection Hrun as <-. }
  change (contents (init_output_buffer (buf ctx) INITIAL_OUTPUT_BUFFER_CAPACITY))
    with (@nil (option Z)) in Hcont.
  rewrite app_nil_l, <- Hbuf in Hcont. clear Hhdr Hbuf b'.
  pose proof Hok as [[Hsize0 _] _].
  assert (Hglobals : Z.of_nat (length (concat (global_header_bytes <$> globals m)))
                     = 6 * vector_size (globals m)).
  { rewrite (length_concat_sizes _ (λ _, 6)) by done.
    rewrite sum_list_Z_const. done. }
  assert (Himports : ∀ j, Z.of_nat (length (concat (take j (import_header_bytes <$> imports m))))
                          = sum_list_Z (take j (import_header_sizes m))).
  { intros j. unfold import_header_sizes. rewrite <- !fmap_take.
    apply length_concat_sizes. intros x _. apply length_import_header_bytes. }
  assert (Hfunctions : ∀ i,
            Z.of_nat (length (concat (take i (function_header_bytes <$> functions m))))
            = sum_list_Z (take i (function_header_sizes m))).
  { intros i. unfold function_header_sizes. rewrite <- !fmap_take.
    apply length_concat_sizes. intros x Hx. apply length_function_header_bytes.
    destruct Hmod as [_ Hfuns]. rewrite Forall_forall in Hfuns. apply Hfuns.
    by apply (subseteq_take i). }
  assert (Hsegments : ∀ s,
            Z.of_nat (length (concat (take s (segment_header_bytes <$> segments m))))
            = 13 * Z.of_nat (length (take s (segments m)))).
  { intros s. rewrite <- fmap_take, (length_concat_sizes _ (λ _, 13)) by done.
    by rewrite sum_list_Z_const. }
  pose proof (Himports (length (imports m))) as Himports_all.
  pose proof (Hfunctions (length (functions m))) as Hfunctions_all.
  rewrite take_ge in Himports_all, Hfunctions_all by (by rewrite length_fmap).
  rewrite (take_ge (import_header_sizes m)) in Himports_all
    by (unfold import_header_sizes; by rewrite length_fmap).
  rewrite (take_ge (function_header_sizes m)) in Hfunctions_all
    by (unfold function_header_sizes; by rewrite length_fmap).
  exists ctx', r. split; [done|]. split; [done|]. split; [done|]. split; [done|].
  unfold module_header_bytes in Hcont.
  split; [|split].
  - intros i f Hf. exists (function_header_offset_closed m i). split.
    + rewrite Hft, list_lookup_fmap, lookup_seq_lt by (by eapply lookup_lt_Some). done.
    + pose proof (bytes_at_block (buf ctx')
                    (preamble_bytes r m ++ concat (global_header_bytes <$> globals m)
                     ++ concat (import_header_bytes <$> imports m))
                    (function_header_bytes <$> functions m)
                    (concat (segment_header_bytes <$> segments m))
                    i (function_header_bytes f) Hsize0) as Hat.
      rewrite !length_app, !Nat2Z.inj_add, Hglobals, Himports_all, Hfunctions in Hat.
      rewrite length_function_header_bytes in Hat.
      2:{ destruct Hmod as [_ Hfuns]. rewrite Forall_forall in Hfuns. apply Hfuns.
          by eapply list_elem_of_lookup_2. }
      change (Z.of_nat (length (preamble_bytes r m))) with 8 in Hat.
      unfold function_header_offset_closed.
      replace (8 + 6 * vector_size (globals m) + sum_list_Z (import_header_sizes m)
               + sum_list_Z (take i (function_header_sizes m)))
        with (8 + (6 * vector_size (globals m) + sum_list_Z (import_header_sizes m))
              + sum_list_Z (take i (function_header_sizes m))) by lia.
      apply Hat.
      * rewrite Hcont, <- !app_assoc. done.
      * by rewrite list_lookup_fmap, Hf.
  - intros s segment Hs. exists (segment_header_offset_closed m s). split.
    + rewrite Hst, list_lookup_fmap, lookup_seq_lt by (by eapply lookup_lt_Some). done.
    + pose proof (bytes_at_block (buf ctx')
                    (preamble_bytes r m ++ concat (global_header_bytes <$> globals m)
                     ++ concat (import_header_bytes <$> imports m)
                     ++ concat (function_header_bytes <$> functions m))
                    (segment_header_bytes <$> segments m) []
                    s (segment_header_bytes segment) Hsize0) as Hat.
      rewrite !length_app, !Nat2Z.inj_add, Hglobals, Himports_all, Hfunctions_all,
        Hsegments in Hat.
      rewrite length_take_le in Hat by (apply Nat.lt_le_incl; by eapply lookup_lt_Some).
      change (Z.of_nat (length (preamble_bytes r m))) with 8 in Hat.
      change (Z.of_nat (length (segment_header_bytes segment))) with 13 in Hat.
      unfold segment_header_offset_closed, function_header_offset_closed.
      rewrite take_ge by (unfold function_header_sizes; by rewrite length_fmap).
      replace (8 + 6 * vector_size (globals m) + sum_list_Z (import_header_sizes m)
               + sum_list_Z (function_header_sizes m) + 13 * Z.of_nat s)
        with (8 + (6 * vector_size (globals m)
                   + (sum_list_Z (import_header_sizes m)
                      + sum_list_Z (function_header_sizes m)))
              + 13 * Z.of_nat s) by lia.
      apply Hat.
      * rewrite Hcont, app_nil_r, <- !app_assoc. done.
      * by rewrite list_lookup_fmap, Hs.
  - intros j import Hj.
    pose proof (bytes_at_block (buf ctx')
                  (preamble_bytes r m ++ concat (global_header_bytes <$> globals m))
                  (import_header_bytes <$> imports m)
                  (concat (function_header_bytes <$> functions m)
                   ++ concat (segment_header_bytes <$> segments m))
                  j (import_header_bytes import) Hsize0) as Hat.
    rewrite !length_app, !Nat2Z.inj_add, Hglobals, Himports in Hat.
    rewrite length_import_header_bytes in Hat.
    change (Z.of_nat (length (preamble_bytes r m))) with 8 in Hat.
    unfold import_header_offset_closed.
    replace (8 + 6 * vector_size (globals m) + sum_list_Z (take j (import_header_sizes m)))
      with (8 + 6 * vector_size (globals m) + sum_list_Z (take j (import_header_sizes m)))
      by lia.
    apply Hat.
    + rewrite Hcont, <- !app_assoc. done.
    + by rewrite list_lookup_fmap, Hj.
Qed.

Lemma header_records_at_planned_offsets_witness :
  let m := {| max_memory_size := 65536;
              globals := [mkWasmVariable WASM_TYPE_I32];
              imports := [mkWasmImport [mkWasmVariable WASM_TYPE_F64] WASM_TYPE_VOID "print"];
              functions := [mkWasmFunction 1 WASM_TYPE_I32
                              [mkWasmVariable WASM_TYPE_I32; mkWasmVariable WASM_TYPE_F32;
                               mkWasmVariable WASM_TYPE_F32]
                              0 "";
                            mkWasmFunction 0 WASM_TYPE_VOID [] 1 "main"];
              segments := [mkWasmSegment 0 [1; 2; 3; 4] 4] |} in
  ∃ ctx', before_module m zero_context = Some ctx'
    ∧ function_header_offsets ctx' !! 0%nat = Some 39
    ∧ bytes_at (buf ctx') 39 25
      = Some <$> [1; 1; 1; 0; 0; 0; 0; 0; 0; 0; 0; 0; 0; 0; 0; 0; 0; 0; 0; 2; 0; 0; 0; 0; 0].
Proof.
  intros m.
  destruct (header_records_at_planned_offsets m zero_context)
    as (ctx' & r & Hrun & _ & _ & _ & Hfunctions & _).
  - split; [vm_compute; discriminate|]. repeat constructor; vm_compute; discriminate.
  - vm_compute. reflexivity.
  - destruct (Hfunctions 0%nat _ eq_refl) as (header & Hheader & Hbytes).
    assert (header = 39) as ->.
    { pose proof Hrun as Hrun'. vm_compute in Hrun'. injection Hrun' as <-.
      vm_compute in Hheader. by injection Hheader as <-. }
    exists ctx'. split; [exact Hrun|]. split; [exact Hheader | exact Hbytes].
Defined.

(** ** Names in the tail *)

Lemma length_import_items data : ∀ offset, length (import_items offset data) = length data.
Proof. induction data as [|x data IH]; intros offset; cbn; [done | by rewrite IH]. Qed.

Lemma import_items_lookup : ∀ data offset j import,
  data !! j = Some import →
  import_items offset data !! j
  = Some (offset + sum_list_Z (take j ((λ i, 24 + vector_size (import_args i)) <$> data))
          + FUNC_HEADER_NAME_OFFSET (vector_size (import_args import)),
          name_bytes (import_func_name import)).
Proof.
  induction data as [|x data IH]; intros offset [|j] import Hj; try done.
  - injection Hj as ->. cbn. do 2 f_equal. unfold sum_list_Z. cbn. lia.
  - cbn [import_items lookup list_lookup]. rewrite (IH _ j import) by done.
    rewrite fmap_cons. cbn [take]. rewrite sum_list_Z_cons.
    do 2 f_equal. unfold FUNC_HEADER_SIZE. lia.
Qed.

Lemma tail_bytes_take_import_items : ∀ data offset j,
  tail_bytes (take j (import_items offset data))
  = concat ((λ i, name_bytes (import_func_name i)) <$> take j data).
Proof.
  induction data as [|x data IH]; intros offset [|j]; try done.
  cbn [import_items take fmap list_fmap concat]. rewrite tail_bytes_cons, IH. done.
Qed.

Lemma tail_bytes_segment_items : ∀ data offset,
  tail_bytes (segment_items offset data) = concat (seg_data <$> data).
Proof.
  induction data as [|x data IH]; intros offset; [done|].
  cbn [segment_items fmap list_fmap concat]. rewrite tail_bytes_cons, IH. done.
Qed.

Lemma tail_bytes_import_items data offset :
  tail_bytes (import_items offset data)
  = concat ((λ i, name_bytes (import_func_name i)) <$> data).
Proof.
  rewrite <- (take_ge (import_items offset data) (length data))
    by (by rewrite length_import_items).
  rewrite tail_bytes_take_import_items. by rewrite take_ge.
Qed.

Lemma function_items_lookup : ∀ data offset i f,
  data !! i = Some f → exported f ≠ 0 →
  function_items offset data !! length (exported_functions (take i data))
  = Some (offset + sum_list_Z (take i ((λ f, 24 + num_args f) <$> data))
          + FUNC_HEADER_NAME_OFFSET (num_args f),
          name_bytes (exported_name f))
  ∧ tail_bytes (take (length (exported_functions (take i data))) (function_items offset data))
    = concat ((λ f, name_bytes (exported_name f)) <$> exported_functions (take i data)).
Proof.
  induction data as [|x data IH]; intros offset [|i] f Hi Hexp; try done.
  - injection Hi as ->. cbn [take exported_functions filter list_filter length function_items].
    destruct (Z.eqb_spec (exported f) 0); [done|]. cbn. split; [|done].
    do 2 f_equal. unfold sum_list_Z. cbn. lia.
  - cbn [lookup list_lookup] in Hi.
    destruct (IH (offset + FUNC_HEADER_SIZE (num_args x)) i f Hi Hexp) as [Hlook Htail].
    cbn [take function_items]. unfold exported_functions in *. rewrite filter_cons.
    rewrite fmap_cons. cbn [take]. rewrite sum_list_Z_cons.
    assert (Hoff : offset + FUNC_HEADER_SIZE (num_args x)
                   + sum_list_Z (take i ((λ f, 24 + num_args f) <$> data))
                   = offset + (24 + num_args x
                   + sum_list_Z (take i ((λ f, 24 + num_args f) <$> data))))
      by (unfold FUNC_HEADER_SIZE; lia).
    rewrite Hoff in Hlook.
    destruct (Z.eqb_spec (exported x) 0) as [Hz|Hnz]; case_decide; try done.
    cbn [length]. cbn [lookup list_lookup take]. rewrite tail_bytes_cons.
    split; [exact Hlook|]. cbn [snd]. rewrite fmap_cons. cbn [concat].
    f_equal. exact Htail.
Qed.

Lemma function_items_skip : ∀ data offset i f,
  Forall (λ f, 0 ≤ num_args f) data →
  data !! i = Some f → exported f = 0 →
  Forall (λ item : TailItem,
            fst item + 4 ≤ offset + sum_list_Z (take i ((λ f, 24 + num_args f) <$> data))
            ∨ offset + sum_list_Z (take (S i) ((λ f, 24 + num_args f) <$> data)) ≤ fst item)
         (function_items offset data).
Proof.
  induction data as [|x data IH]; intros offset [|i] f Hargs Hi Hexp; try done.
  - injection Hi as ->. apply Forall_cons in Hargs as [Harg Hargs].
    cbn [function_items]. rewrite Hexp. cbn [Z.eqb].
    destruct (function_items_fields data (offset + FUNC_HEADER_SIZE (num_args f)) Hargs)
      as [Hrange _].
    eapply Forall_impl; [exact Hrange|]. intros item [Hlo _]. right.
    rewrite fmap_cons. cbn [take]. rewrite take_0, sum_list_Z_cons.
    change (sum_list_Z []) with 0. unfold FUNC_HEADER_SIZE in Hlo. lia.
  - apply Forall_cons in Hargs as [Harg Hargs]. cbn beta in Harg.
    cbn [lookup list_lookup] in Hi.
    pose proof (IH (offset + FUNC_HEADER_SIZE (num_args x)) i f Hargs Hi Hexp) as Hrest.
    assert (0 ≤ sum_list_Z (take i ((λ f, 24 + num_args f) <$> data))).
    { apply sum_list_Z_nonneg, Forall_take, Forall_fmap.
      eapply Forall_impl; [exact Hargs|]. intros g Hg. cbn in *. lia. }
    assert (Hrest' : Forall (λ item : TailItem,
              fst item + 4
              ≤ offset + sum_list_Z (take (S i) ((λ f, 24 + num_args f) <$> x :: data))
              ∨ offset + sum_list_Z (take (S (S i)) ((λ f, 24 + num_args f) <$> x :: data))
                ≤ fst item)
             (function_items (offset + FUNC_HEADER_SIZE (num_args x)) data)).
    { eapply Forall_impl; [exact Hrest|]. intros item Hitem.
      rewrite fmap_cons. cbn [take]. rewrite !sum_list_Z_cons.
      unfold FUNC_HEADER_SIZE in Hitem. cbn [take] in Hitem. lia. }
    cbn [function_items]. destruct (exported x =? 0); [done|].
    constructor; [|done]. left. cbn [fst].
    rewrite fmap_cons. cbn [take]. rewrite sum_list_Z_cons.
    unfold FUNC_HEADER_NAME_OFFSET, FUNC_SIG_SIZE. lia.
Qed.

Lemma take_prefix_bound (items : list TailItem) (k : nat) :
  Z.of_nat (length (tail_bytes (take k items))) ≤ Z.of_nat (length (tail_bytes items)).
Proof.
  rewrite <- (take_drop k items) at 2. rewrite tail_bytes_app, length_app. lia.
Qed.

(** X15. After the footer, the name field of every import header holds the
    offset of that import's function name, written NUL-terminated; the import
    names follow the segment data in declaration order. *)
Theorem import_name_offsets (m : WasmModule) (ctx : Context)
    (j : nat) (import : WasmImport) :
  laid_out m ctx → Forall (λ f, 0 ≤ num_args f) (functions m) →
  Forall segment_ok (segments m) →
  buf_size (buf ctx) + Z.of_nat (length (tail_bytes (footer_items m))) < 2 ^ 32 →
  imports m !! j = Some import →
  ∃ ctx' start,
    after_module m ctx = Some ctx'
    ∧ start = buf_size (buf ctx) + sum_list_Z (seg_size <$> segments m)
              + Z.of_nat (length (concat ((λ i, name_bytes (import_func_name i))
                                            <$> take j (imports m))))
    ∧ read_u32 (buf ctx')
               (import_header_offset_closed m j
                + FUNC_HEADER_NAME_OFFSET (vector_size (import_args import)))
      = Some start
    ∧ bytes_at (buf ctx') start (Z.of_nat (length (name_bytes (import_func_name import))))
      = Some <$> name_bytes (import_func_name import).
Proof.
  intros Hlaid Hargs Hsegs Hbound Hj.
  destruct (after_module_ok m ctx Hlaid Hargs Hsegs Hbound)
    as (b' & Hrun & _ & Hsize & Htail & Hframe & Hitems).
  pose proof Hlaid as (_ & _ & [[Hsize0 _] _] & _).
  pose proof (lookup_lt_Some _ _ _ Hj) as Hlt.
  set (n := length (segments m)).
  assert (Hitem : footer_items m !! (n + j)%nat
                  = Some (import_header_offset_closed m j
                          + FUNC_HEADER_NAME_OFFSET (vector_size (import_args import)),
                          name_bytes (import_func_name import))).
  { unfold footer_items. rewrite lookup_app_r by (rewrite length_segment_items; unfold n; lia).
    rewrite length_segment_items. replace (n + j - length (segments m))%nat with j by (unfold n; lia).
    rewrite lookup_app_l by (by rewrite length_import_items).
    rewrite (import_items_lookup _ _ j import Hj). do 2 f_equal.
    unfold import_header_offset_closed, import_header_sizes, FUNC_HEADERS_OFFSET,
      GLOBAL_HEADERS_OFFSET, GLOBAL_HEADER_SIZE, FUNC_HEADER_SIZE. lia. }
  assert (Htake : Z.of_nat (length (tail_bytes (take (n + j) (footer_items m))))
                  = sum_list_Z (seg_size <$> segments m)
                    + Z.of_nat (length (concat ((λ i, name_bytes (import_func_name i))
                                                  <$> take j (imports m))))).
  { unfold footer_items.
    rewrite take_app_ge by (rewrite length_segment_items; unfold n; lia).
    rewrite length_segment_items. replace (n + j - length (segments m))%nat with j by (unfold n; lia).
    rewrite take_app_le by (rewrite length_import_items; lia).
    rewrite tail_bytes_app, length_app, Nat2Z.inj_add, tail_bytes_take_import_items.
    f_equal.
    rewrite <- (take_ge (segment_items _ (segments m)) (length (segments m)))
      by (by rewrite length_segment_items).
    rewrite tail_bytes_take_segment_items by done. by rewrite take_ge. }
  destruct (Hitems _ _ _ Hitem) as [Hfield Hpayload].
  pose proof (take_prefix_bound (footer_items m) (n + j)) as Hle.
  rewrite Htake in *.
  eexists (with_buf ctx b'), _. cbn [buf with_buf].
  split; [done|]. split; [reflexivity|]. split.
  - apply read_u32_bytes; [|rewrite <- Z.add_assoc; exact Hfield].
    assert (0 ≤ sum_list_Z (seg_size <$> segments m)).
    { apply sum_list_Z_nonneg, Forall_fmap. eapply Forall_impl; [exact Hsegs|].
      intros s Hs. unfold segment_ok in Hs. cbn. lia. }
    lia.
  - rewrite <- Z.add_assoc. exact Hpayload.
Qed.

Lemma segments_tail_length (m : WasmModule) offset :
  Forall segment_ok (segments m) →
  Z.of_nat (length (tail_bytes (segment_items offset (segments m))))
  = sum_list_Z (seg_size <$> segments m).
Proof.
  intros Hsegs.
  rewrite <- (take_ge (segment_items _ (segments m)) (length (segments m)))
    by (by rewrite length_segment_items).
  rewrite tail_bytes_take_segment_items by done. by rewrite take_ge.
Qed.

(** X16. After the footer, the name field of every exported function's
    header holds the offset of its export name, written NUL-terminated; the
    export names follow the segment data and the import names, in declaration
    order, and functions that are not exported contribute nothing. *)
Theorem export_name_offsets (m : WasmModule) (ctx : Context)
    (i : nat) (f : WasmFunction) :
  laid_out m ctx → Forall (λ f, 0 ≤ num_args f) (functions m) →
  Forall segment_ok (segments m) →
  buf_size (buf ctx) + Z.of_nat (length (tail_bytes (footer_items m))) < 2 ^ 32 →
  functions m !! i = Some f → exported f ≠ 0 →
  ∃ ctx' header start,
    after_module m ctx = Some ctx'
    ∧ function_header_offsets ctx !! i = Some header
    ∧ start = buf_size (buf ctx) + sum_list_Z (seg_size <$> segments m)
              + Z.of_nat (length (concat ((λ i, name_bytes (import_func_name i))
                                            <$> imports m)))
              + Z.of_nat (length (concat ((λ f, name_bytes (exported_name f))
                                            <$> exported_functions (take i (functions m)))))
    ∧ read_u32 (buf ctx') (header + FUNC_HEADER_NAME_OFFSET (num_args f)) = Some start
    ∧ bytes_at (buf ctx') start (Z.of_nat (length (name_bytes (exported_name f))))
      = Some <$> name_bytes (exported_name f).
Proof.
  intros Hlaid Hargs Hsegs Hbound Hi Hexp.
  destruct (after_module_ok m ctx Hlaid Hargs Hsegs Hbound)
    as (b' & Hrun & _ & Hsize & Htail & Hframe & Hitems).
  pose proof Hlaid as (_ & Hplan & [[Hsize0 _] _] & Hend).
  rewrite plan_header_offsets_closed in Hplan by (done || lia). injection Hplan as Hft _.
  pose proof (lookup_lt_Some _ _ _ Hi) as Hlt.
  set (n := length (segments m)). set (n' := length (imports m)).
  set (e := length (exported_functions (take i (functions m)))).
  destruct (function_items_lookup (functions m) (function_header_offset_closed m 0) i f Hi Hexp)
    as [Hlook Hnames]. fold e in Hlook, Hnames.
  assert (Hitem : footer_items m !! (n + (n' + e))%nat
                  = Some (function_header_offset_closed m i
                          + FUNC_HEADER_NAME_OFFSET (num_args f),
                          name_bytes (exported_name f))).
  { unfold footer_items. rewrite lookup_app_r by (rewrite length_segment_items; unfold n; lia).
    rewrite length_segment_items.
    replace (n + (n' + e) - length (segments m))%nat with (n' + e)%nat by (unfold n; lia).
    rewrite lookup_app_r by (rewrite length_import_items; unfold n'; lia).
    rewrite length_import_items.
    replace (n' + e - length (imports m))%nat with e by (unfold n'; lia).
    etrans; [exact Hlook|]. do 2 f_equal.
    unfold function_header_offset_closed, function_header_sizes. rewrite take_0.
    change (sum_list_Z []) with 0. lia. }
  assert (Htake : Z.of_nat (length (tail_bytes (take (n + (n' + e)) (footer_items m))))
                  = sum_list_Z (seg_size <$> segments m)
                    + Z.of_nat (length (concat ((λ i, name_bytes (import_func_name i))
                                                  <$> imports m)))
                    + Z.of_nat (length (concat ((λ f, name_bytes (exported_name f))
                                  <$> exported_functions (take i (functions m)))))).
  { unfold footer_items.
    rewrite take_app_ge by (rewrite length_segment_items; unfold n; lia).
    rewrite length_segment_items.
    replace (n + (n' + e) - length (segments m))%nat with (n' + e)%nat by (unfold n; lia).
    rewrite take_app_ge by (rewrite length_import_items; unfold n'; lia).
    rewrite length_import_items.
    replace (n' + e - length (imports m))%nat with e by (unfold n'; lia).
    rewrite !tail_bytes_app, !length_app, !Nat2Z.inj_add, Hnames, tail_bytes_import_items.
    rewrite segments_tail_length by done. lia. }
  destruct (Hitems _ _ _ Hitem) as [Hfield Hpayload].
  pose proof (take_prefix_bound (footer_items m) (n + (n' + e))) as Hle.
  rewrite Htake in *.
  assert (Hsum : 0 ≤ sum_list_Z (seg_size <$> segments m)).
  { apply sum_list_Z_nonneg, Forall_fmap. eapply Forall_impl; [exact Hsegs|].
    intros s Hs. unfold segment_ok in Hs. cbn. lia. }
  eexists (with_buf ctx b'), (function_header_offset_closed m i), _. cbn [buf with_buf].
  split; [done|]. split; [|split; [reflexivity|split]].
  - rewrite Hft, list_lookup_fmap, lookup_seq_lt by done. done.
  - apply read_u32_bytes; [lia|]. rewrite <- !Z.add_assoc. rewrite <- !Z.add_assoc in Hfield.
    exact Hfield.
  - rewrite <- !Z.add_assoc. rewrite <- !Z.add_assoc in Hpayload. exact Hpayload.
Qed.

(** X17. The footer rewrites name and data fields only: every byte before
    the import headers (the preamble and the global headers) and the whole
    header record of every function that is not exported are left exactly as
    they were. *)
Theorem footer_leaves_other_headers (m : WasmModule) (ctx : Context) :
  laid_out m ctx → Forall (λ f, 0 ≤ num_args f) (functions m) →
  Forall segment_ok (segments m) →
  buf_size (buf ctx) + Z.of_nat (length (tail_bytes (footer_items m))) < 2 ^ 32 →
  ∃ ctx', after_module m ctx = Some ctx'
    ∧ (∀ j, j < FUNC_HEADERS_OFFSET (vector_size (globals m)) →
            buf_start (buf ctx') !! j = buf_start (buf ctx) !! j)
    ∧ (∀ i f header j,
         functions m !! i = Some f → exported f = 0 →
         function_header_offsets ctx !! i = Some header →
         header ≤ j < header + FUNC_HEADER_SIZE (num_args f) →
         buf_start (buf ctx') !! j = buf_start (buf ctx) !! j).
Proof.
  intros Hlaid Hargs Hsegs Hbound.
  destruct (after_module_ok m ctx Hlaid Hargs Hsegs Hbound)
    as (b' & Hrun & _ & Hsize & Htail & Hframe & Hitems).
  pose proof Hlaid as (_ & Hplan & [[Hsize0 _] _] & Hend).
  rewrite plan_header_offsets_closed in Hplan by (done || lia). injection Hplan as Hft _.
  pose proof (sum_list_Z_nonneg _ (import_header_sizes_nonneg m)) as Himp.
  pose proof (sum_list_Z_nonneg _ (function_header_sizes_nonneg m Hargs)) as Hfun.
  assert (Hglob : 0 ≤ vector_size (globals m)) by (unfold vector_size; lia).
  assert (Hnseg : 0 ≤ vector_size (segments m)) by (unfold vector_size; lia).
  pose proof (headers_end_unfold m) as Hunfold.
  destruct (segment_items_fields (segments m)
              (function_header_offset_closed m (length (functions m)))) as [Hr1 _].
  destruct (import_items_fields (imports m) (FUNC_HEADERS_OFFSET (vector_size (globals m))))
    as [Hr2 _].
  fold (import_header_sizes m) in Hr2.
  destruct (function_items_fields (functions m) (function_header_offset_closed m 0) Hargs)
    as [Hr3 _].
  assert (Hall : function_header_offset_closed m (length (functions m))
                 = 8 + 6 * vector_size (globals m) + sum_list_Z (import_header_sizes m)
                   + sum_list_Z (function_header_sizes m)).
  { unfold function_header_offset_closed. rewrite take_ge; [done|].
    unfold function_header_sizes. by rewrite length_fmap. }
  assert (Hzero : function_header_offset_closed m 0
                  = 8 + 6 * vector_size (globals m) + sum_list_Z (import_header_sizes m)).
  { unfold function_header_offset_closed. rewrite take_0. change (sum_list_Z []) with 0. lia. }
  unfold FUNC_HEADERS_OFFSET, GLOBAL_HEADERS_OFFSET, GLOBAL_HEADER_SIZE in *.
  exists (with_buf ctx b'). cbn [buf with_buf]. split; [done|]. split.
  - intros j Hj. apply Hframe; [lia|].
    unfold footer_items. rewrite !Forall_app. split; [|split].
    + eapply Forall_impl; [exact Hr1|]. intros item Hitem. cbn beta in *. lia.
    + eapply Forall_impl; [exact Hr2|]. intros item Hitem. cbn beta in *. lia.
    + eapply Forall_impl; [exact Hr3|]. intros item Hitem. cbn beta in *. lia.
  - intros i f header j Hi Hexp Hheader Hj.
    pose proof (lookup_lt_Some _ _ _ Hi) as Hlt.
    rewrite Hft, list_lookup_fmap, lookup_seq_lt in Hheader by done.
    injection Hheader as <-.
    pose proof (function_items_skip (functions m) (function_header_offset_closed m 0)
                  i f Hargs Hi Hexp) as Hskip.
    assert (Hnext : sum_list_Z (take (S i) (function_header_sizes m))
                    = sum_list_Z (take i (function_header_sizes m)) + (24 + num_args f)).
    { unfold function_header_sizes.
      erewrite take_S_r by (rewrite list_lookup_fmap, Hi; reflexivity).
      rewrite sum_list_Z_app, sum_list_Z_cons. change (sum_list_Z []) with 0. lia. }
    assert (Hle : sum_list_Z (take (S i) (function_header_sizes m))
                  ≤ sum_list_Z (function_header_sizes m)).
    { rewrite <- (take_drop (S i) (function_header_sizes m)) at 2.
      rewrite sum_list_Z_app.
      assert (0 ≤ sum_list_Z (drop (S i) (function_header_sizes m))); [|lia].
      apply sum_list_Z_nonneg, Forall_drop, function_header_sizes_nonneg. done. }
    assert (Hprefix : 0 ≤ sum_list_Z (take i (function_header_sizes m))).
    { apply sum_list_Z_nonneg, Forall_take, function_header_sizes_nonneg. done. }
    unfold function_header_offset_closed, FUNC_HEADER_SIZE in Hj.
    fold (function_header_sizes m) in Hskip.
    apply Hframe; [lia|].
    unfold footer_items. rewrite !Forall_app. split; [|split].
    + eapply Forall_impl; [exact Hr1|]. intros item Hitem. cbn beta in *. lia.
    + eapply Forall_impl; [exact Hr2|]. intros item Hitem. cbn beta in *. lia.
    + eapply Forall_impl; [exact Hskip|]. intros item Hitem. cbn beta in *. lia.
Qed.

Lemma function_body_is_bracketed_witness :
  let m := {| max_memory_size := 0; globals := []; imports := [];
              functions := [mkWasmFunction 0 WASM_TYPE_VOID [] 0 ""];
              segments := [] |} in
  ∃ ctx ctx',
    before_module m zero_context = Some ctx
    ∧ emit_function (ops := example_opcodes) m 0 [ExprAfter [] EvAfterNop] ctx = Some ctx'
    ∧ buf_size (buf ctx') = buf_size (buf ctx) + 2 + 1.
Proof.
  intros m.
  assert (Hmod : module_ok m).
  { split; [vm_compute; discriminate|]. repeat constructor; vm_compute; discriminate. }
  destruct (before_module_ok m zero_context Hmod) as (ctx & Hctx & Hlaid & Hsize & _).
  destruct (function_body_is_bracketed (ops := example_opcodes) m ctx 0
              (mkWasmFunction 0 WASM_TYPE_VOID [] 0 "") [ExprAfter [] EvAfterNop] [0])
    as (ctx' & header & Hrun & _ & _ & Hsize' & _).
  - exact Hlaid.
  - repeat constructor; vm_compute; discriminate.
  - reflexivity.
  - vm_compute. reflexivity.
  - rewrite Hsize. vm_compute. reflexivity.
  - exists ctx, ctx'. split; [exact Hctx|]. split; [exact Hrun | exact Hsize'].
Defined.

Lemma after_export_sets_flag_witness :
  let m := {| max_memory_size := 0; globals := []; imports := [];
              functions := [mkWasmFunction 0 WASM_TYPE_VOID [] 1 "main"];
              segments := [] |} in
  ∃ ctx ctx' header,
    before_module m zero_context = Some ctx
    ∧ after_export m 0 ctx = Some ctx'
    ∧ array_get (function_header_offsets ctx) 0 = Some header
    ∧ buf_start (buf ctx') !! (header + FUNC_HEADER_EXPORTED_OFFSET 0) = Some 1.
Proof.
  intros m.
  assert (Hmod : module_ok m).
  { split; [vm_compute; discriminate|]. repeat constructor; vm_compute; discriminate. }
  destruct (before_module_ok m zero_context Hmod) as (ctx & Hctx & Hlaid & Hsize & _).
  destruct (after_export_sets_flag m ctx 0 (mkWasmFunction 0 WASM_TYPE_VOID [] 1 "main"))
    as (ctx' & header & Hrun & Hheader & _ & _ & Hflag & _).
  - exact Hlaid.
  - repeat constructor; vm_compute; discriminate.
  - vm_compute. reflexivity.
  - reflexivity.
  - exists ctx, ctx', header.
    split; [exact Hctx|]. split; [exact Hrun|]. split; [exact Hheader | exact Hflag].
Defined.

Lemma import_name_offsets_witness :
  let m := {| max_memory_size := 0; globals := [];
              imports := [mkWasmImport [] WASM_TYPE_VOID "a";
                          mkWasmImport [mkWasmVariable WASM_TYPE_I32] WASM_TYPE_VOID "put"];
              functions := [mkWasmFunction 0 WASM_TYPE_VOID [] 0 ""];
              segments := [mkWasmSegment 0 [1; 2; 3] 3] |} in
  ∃ ctx ctx',
    before_module m zero_context = Some ctx
    ∧ after_module m ctx = Some ctx'
    ∧ read_u32 (buf ctx') (import_header_offset_closed m 1 + FUNC_HEADER_NAME_OFFSET 1)
      = Some (buf_size (buf ctx) + 3 + 2)
    ∧ bytes_at (buf ctx') (buf_size (buf ctx) + 3 + 2) 4 = [Some 112; Some 117; Some 116; Some 0].
Proof.
  intros m.
  assert (Hmod : module_ok m).
  { split; [vm_compute; discriminate|]. repeat constructor; vm_compute; discriminate. }
  destruct (before_module_ok m zero_context Hmod) as (ctx & Hctx & Hlaid & Hsize & _).
  destruct (import_name_offsets m ctx 1
              (mkWasmImport [mkWasmVariable WASM_TYPE_I32] WASM_TYPE_VOID "put"))
    as (ctx' & start & Hrun & Hstart & Hfield & Hname).
  - exact Hlaid.
  - repeat constructor; vm_compute; discriminate.
  - repeat constructor.
  - rewrite Hsize. vm_compute. reflexivity.
  - reflexivity.
  - exists ctx, ctx'. rewrite Hstart in Hfield, Hname.
    split; [exact Hctx|]. split; [exact Hrun|]. split; [exact Hfield | exact Hname].
Defined.

Lemma export_name_offsets_witness :
  let m := {| max_memory_size := 0; globals := [];
              imports := [mkWasmImport [] WASM_TYPE_VOID "a"];
              functions := [mkWasmFunction 0 WASM_TYPE_VOID [] 1 "f";
                            mkWasmFunction 0 WASM_TYPE_VOID [] 0 "";
                            mkWasmFunction 0 WASM_TYPE_VOID [] 1 "go"];
              segments := [mkWasmSegment 0 [1; 2; 3] 3] |} in
  ∃ ctx ctx' header,
    before_module m zero_context = Some ctx
    ∧ after_module m ctx = Some ctx'
    ∧ function_header_offsets ctx !! 2%nat = Some header
    ∧ read_u32 (buf ctx') (header + FUNC_HEADER_NAME_OFFSET 0)
      = Some (buf_size (buf ctx) + 3 + 2 + 2)
    ∧ bytes_at (buf ctx') (buf_size (buf ctx) + 3 + 2 + 2) 3 = [Some 103; Some 111; Some 0].
Proof.
  intros m.
  assert (Hmod : module_ok m).
  { split; [vm_compute; discriminate|]. repeat constructor; vm_compute; discriminate. }
  destruct (before_module_ok m zero_context Hmod) as (ctx & Hctx & Hlaid & Hsize & _).
  destruct (export_name_offsets m ctx 2 (mkWasmFunction 0 WASM_TYPE_VOID [] 1 "go"))
    as (ctx' & header & start & Hrun & Hheader & Hstart & Hfield & Hname).
  - exact Hlaid.
  - repeat constructor; vm_compute; discriminate.
  - repeat constructor.
  - rewrite Hsize. vm_compute. reflexivity.
  - reflexivity.
  - vm_compute. discriminate.
  - exists ctx, ctx', header. rewrite Hstart in Hfield, Hname.
    split; [exact Hctx|]. split; [exact Hrun|]. split; [exact Hheader|].
    split; [exact Hfield | exact Hname].
Defined.

Lemma footer_leaves_other_headers_witness :
  let m := {| max_memory_size := 0; globals := [mkWasmVariable WASM_TYPE_I32];
              imports := [mkWasmImport [] WASM_TYPE_VOID "a"];
              functions := [mkWasmFunction 0 WASM_TYPE_VOID [] 1 "f";
                            mkWasmFunction 0 WASM_TYPE_VOID [] 0 ""];
              segments := [mkWasmSegment 0 [1; 2; 3] 3] |} in
  ∃ ctx ctx',
    before_module m zero_context = Some ctx
    ∧ after_module m ctx = Some ctx'
    ∧ buf_start (buf ctx') !! 13 = buf_start (buf ctx) !! 13.
Proof.
  intros m.
  assert (Hmod : module_ok m).
  { split; [vm_compute; discriminate|]. repeat constructor; vm_compute; discriminate. }
  destruct (before_module_ok m zero_context Hmod) as (ctx & Hctx & Hlaid & Hsize & _).
  destruct (footer_leaves_other_headers m ctx) as (ctx' & Hrun & Hlow & _).
  - exact Hlaid.
  - repeat constructor; vm_compute; discriminate.
  - repeat constructor.
  - rewrite Hsize. vm_compute. reflexivity.
  - exists ctx, ctx'. split; [exact Hctx|]. split; [exact Hrun|].
    apply Hlow. vm_compute. reflexivity.
Defined.

(** ** Reuse of the context and patches at the edge of the buffer *)

Section Reuse.
Context {ops : WasmOpcodes}.

(** X18. [before_module] starts the image afresh: the buffer it leaves does
    not depend on the context it is given, and once the first function is
    opened nothing of an earlier module is left, so the rest of the run is
    the same whatever was generated before (the multi-module mode reuses one
    context for all modules of a file). *)
Theorem module_start_forgets_context (m : WasmModule) (i : Z) (events : list Event)
    (ctx1 ctx2 : Context) :
  buf <$> before_module m ctx1 = buf <$> before_module m ctx2
  ∧ run_events (EvBeforeModule m :: EvBeforeFunction i :: events) ctx1
    = run_events (EvBeforeModule m :: EvBeforeFunction i :: events) ctx2.
Proof.
  unfold run_events. cbn [for_each callback]. unfold before_module, init_output_buffer.
  destruct (plan_header_offsets m) as [function_table segment_table].
  destruct (out_module_header _ m) as [b|]; [|done].
  cbn [mbind option_bind fmap option_fmap option_map buf module]. split; [done|].
  unfold before_function. cbn [buf module function_header_offsets segment_header_offsets].
  destruct (array_get (functions m) i) as [f|]; [|done]. cbn [mbind option_bind].
  destruct (array_get function_table i) as [h|]; [|done]. cbn [mbind option_bind].
  destruct (out_u32_at b _ _) as [b1|]; [|done]. cbn [mbind option_bind].
  destruct (out_opcode b1 _) as [b2|]; [|done]. cbn [mbind option_bind].
  destruct (out_u8 b2 0) as [b3|]; done.
Qed.

End Reuse.

(** X19. The bound checked before a patch is [offset <= size], with the
    offset taken modulo 2^32: a patch beyond the end aborts, while a patch
    placed exactly at the end is accepted although none of its bytes lies
    inside the buffer.  Such a patch leaves the image as it was, and the
    next append of at least as many bytes overwrites it. *)
Theorem patch_at_end_is_lost (b : OutputBuffer) (width : nat) (value : Z) (src : list Z) :
  buf_ok b → buf_size b < 2 ^ 32 → (width ≤ length src)%nat →
  (∀ offset, buf_size b < to_uint32 offset → OUT_AT_TYPE width b offset value = None)
  ∧ ∃ b1 b2 b2',
      OUT_AT_TYPE width b (buf_size b) value = Some b1
      ∧ buf_size b1 = buf_size b ∧ contents b1 = contents b
      ∧ out_at_end b1 src = Some b2 ∧ out_at_end b src = Some b2'
      ∧ buf_size b2 = buf_size b2' ∧ buf_start b2 = buf_start b2'.
Proof.
  intros Hok Hbound Hwidth. pose proof Hok as [[Hsize0 _] _]. split.
  - intros offset Hoff. unfold OUT_AT_TYPE. by rewrite out_data_assert.
  - assert (Hsmall : to_uint32 (buf_size b) = buf_size b)
      by (unfold to_uint32; apply Z.mod_small; change (2 ^ 32) with 4294967296 in *; lia).
    destruct (OUT_AT_TYPE_ok width b (buf_size b) value Hok) as (b1 & Hrun1 & Hok1 & Hsize1 & Hstart1);
      [lia|].
    rewrite Hsmall in Hstart1.
    destruct (out_at_end_ok b1 src Hok1) as (b2 & Hrun2 & _ & Hsize2 & Hstart2).
    destruct (out_at_end_ok b src Hok) as (b2' & Hrun2' & _ & Hsize2' & Hstart2').
    exists b1, b2, b2'. split_and!; try done.
    + unfold contents. rewrite Hsize1. apply list_fmap_ext. intros k j Hj.
      apply lookup_seqZ in Hj as [-> Hk]. rewrite Hstart1.
      apply memcpy_lookup_outside. lia.
    + lia.
    + rewrite Hstart2, Hstart2', Hsize1, Hstart1. apply map_eq. intros j.
      rewrite !memcpy_lookup. rewrite length_le_bytes.
      repeat case_decide; try done; lia.
Qed.

Lemma patch_at_end_is_lost_witness :
  let b := init_output_buffer {| buf_start := ∅; buf_size := 0; buf_capacity := 0 |}
                              INITIAL_OUTPUT_BUFFER_CAPACITY in
  OUT_AT_TYPE 4 b 1 7 = None
  ∧ ∃ b1, OUT_AT_TYPE 4 b (buf_size b) 7 = Some b1 ∧ contents b1 = contents b.
Proof.
  intros b.
  destruct (patch_at_end_is_lost b 4 7 [1; 2; 3; 4]) as [Habort (b1 & _ & _ & Hrun & _ & Hcont & _)].
  - subst b. unfold buf_ok, INITIAL_OUTPUT_BUFFER_CAPACITY. cbn. lia.
  - vm_compute. reflexivity.
  - cbn. lia.
  - split; [apply Habort; vm_compute; reflexivity|].
    exists b1. split; [exact Hrun | exact Hcont].
Defined.
